(** * Pianoscribe: note-event extraction and cross-model agreement

    A shallow embedding of the two algorithmic kernels of the repository:

    - [tasks/task-01/simple_transcriber.py], [SimplePianoTranscriber.transcribe]:
      peak picking on a constant-Q spectrogram at each onset frame, offset
      estimation by decay tracking, a stable sort by onset time and the
      same-pitch overlap filter;
    - [tasks/task-02/compare_models.py], [analyze_model_agreement]: the
      one-sided first-fit match count and the agreement ratio.

    Python [int] is [Z]; a Python [float] is modelled by the exact rational
    it denotes ([Q]), so every comparison is the comparison of the real
    values; where the code subtracts or adds two floats before it compares
    or stores the result (the onset test of the scorer, the note offsets of
    the CREPE wrapper and of the spectral baseline), the operation rounds to
    the nearest double ([Float.round64]); a list of dicts is a [list] of
    records; an exception is the [Raise] branch of [result]. *)

From Stdlib Require Import List ZArith QArith Qabs Qminmax Qround Qpower.
From Stdlib Require Import Bool Lia Lqa Sorted Permutation.
From Stdlib Require String DecimalString DecimalNat.
Import ListNotations.

Set Implicit Arguments.

(** ** Exceptions *)

Inductive exn : Type :=
| IndexError
| ZeroDivisionError.

Inductive result (A : Type) : Type :=
| Ok (a : A)
| Raise (e : exn).

Arguments Ok {A} a.
Arguments Raise {A} e.

Definition bind {A B : Type} (r : result A) (k : A -> result B) : result B :=
  match r with
  | Ok a => k a
  | Raise e => Raise e
  end.

Notation "x <- r ;; k" := (bind r (fun x => k))
  (at level 61, r at next level, right associativity).

(** ** Note events

    The dict built at [simple_transcriber.py:81-87] and read back from JSON
    at [compare_models.py:181-182]. *)

Record note : Type := mk_note {
  pitch_midi : Z;
  onset_time_s : Q;
  offset_time_s : Q;
  velocity : Z;
  confidence : Q
}.

(** ** Python floats

    A float is an IEEE 754 binary64 number: 53 significant bits, the
    least exponent of a unit in the last place -1074, every operation
    rounded to the nearest representable value with a tie going to the
    even significand.  The finite doubles are rationals, and a float is
    modelled by the rational it is; [round64] is the rounding of a real
    result.  Values beyond the largest double stay finite here (the
    code's [inf] is not modelled). *)

Module Float.

(** The exponent of the least subnormal. *)
Definition emin : Z := (-1074)%Z.

(** To the nearest integer, a tie to the even one. *)
Definition rint (x : Q) : Z :=
  let low := Qfloor x in
  match Qcompare (x - inject_Z low) (1 # 2) with
  | Lt => low
  | Gt => (low + 1)%Z
  | Eq => if Z.even low then low else (low + 1)%Z
  end.

(** [floor(log2(x))] of a positive [x]. *)
Definition ilog2 (x : Q) : Z :=
  let k := (Z.log2 (Qnum x) - Z.log2 (Z.pos (Qden x)))%Z in
  if Qle_bool (2 ^ k) x then k else (k - 1)%Z.

(** The exponent of the unit in the last place of a positive [x]. *)
Definition exponent (x : Q) : Z := Z.max (ilog2 x - 52) emin.

(** The double nearest to a positive [x]. *)
Definition round_pos (x : Q) : Q :=
  let e := exponent x in
  inject_Z (rint (x / 2 ^ e)) * 2 ^ e.

(** The double nearest to [x]. *)
Definition round64 (x : Q) : Q :=
  match Qnum x with
  | Z0 => 0
  | Zpos _ => round_pos x
  | Zneg _ => - round_pos (- x)
  end.

(** The unit in the last place at [x]. *)
Definition ulp (x : Q) : Q := 2 ^ exponent (Qabs x).

(** The float a decimal literal denotes. *)
Definition double (x : Q) : Q := round64 x.

(** [x + y] and [x - y] on floats. *)
Definition fadd (x y : Q) : Q := round64 (x + y).

Definition fsub (x y : Q) : Q := round64 (x - y).

End Float.

(** ** compare_models.py: analyze_model_agreement, lines 184-193 *)

Module Agreement.

(** The condition of the [if] at lines 188-189: the difference of the
    two onsets is a float, compared with the float [0.05]. *)
Definition is_match (n1 n2 : note) : bool :=
  (Z.abs (pitch_midi n1 - pitch_midi n2) <=? 1)%Z
  && Qle_bool (Qabs (Float.fsub (onset_time_s n1) (onset_time_s n2)))
       (Float.double (5 # 100)).

(** The inner [for n2 in notes2] with its [break]: the counter is
    threaded through, incremented once at the first hit. *)
Fixpoint inner_loop (n1 : note) (notes2 : list note) (matches : Z) : Z :=
  match notes2 with
  | [] => matches
  | n2 :: rest =>
      if is_match n1 n2 then (matches + 1)%Z
      else inner_loop n1 rest matches
  end.

(** The outer [for n1 in notes1], starting from [matches = 0]. *)
Definition count_matches (notes1 notes2 : list note) : Z :=
  fold_left (fun matches n1 => inner_loop n1 notes2 matches) notes1 0%Z.

(** Python's [len], as an [int]. *)
Definition len (l : list note) : Z := Z.of_nat (length l).

(** Truthiness of a list: non-empty. *)
Definition truthy (l : list note) : bool :=
  match l with [] => false | _ :: _ => true end.

(** [int / int]: true division, raising on a zero denominator. *)
Definition truediv (a b : Z) : result Q :=
  if (b =? 0)%Z then Raise ZeroDivisionError
  else Ok (inject_Z a / inject_Z b).

(** Line 193. *)
Definition agreement (notes1 notes2 : list note) : result Q :=
  let matches := count_matches notes1 notes2 in
  if truthy notes1 || truthy notes2
  then truediv matches (Z.max (len notes1) (len notes2))
  else Ok 0.

(** The partner the scan stops at, if any (first fit). *)
Fixpoint first_fit (n1 : note) (notes2 : list note) : option note :=
  match notes2 with
  | [] => None
  | n2 :: rest => if is_match n1 n2 then Some n2 else first_fit n1 rest
  end.

(** The tolerance relation of the matching rule: the pitches at most a
    semitone apart, the float difference of the onsets at most the float
    [0.05] in absolute value. *)
Definition tolerant (n1 n2 : note) : Prop :=
  (Z.abs (pitch_midi n1 - pitch_midi n2) <= 1)%Z
  /\ Qabs (Float.fsub (onset_time_s n1) (onset_time_s n2))
     <= Float.double (5 # 100).

(** The crafted pair of section 8 of the specification, as
    [(pitch, onset, offset)] triples; the times are the floats of the
    decimal literals. *)
Definition triple (pitch : Z) (onset offset : Q) : note :=
  {| pitch_midi := pitch;
     onset_time_s := Float.double onset;
     offset_time_s := Float.double offset;
     velocity := 64; confidence := 1 # 2 |}.

Definition crafted_a : list note := [triple 60 0 (1 # 2)].

Definition crafted_b : list note :=
  [triple 61 (2 # 100) (1 # 2); triple 60 0 (1 # 2)].

End Agreement.

(** ** numpy arrays

    The constant-Q spectrogram [C_db] is a two-dimensional array indexed
    [[pitch_bin, frame]]: a shape and a cell accessor.  Integer indexing
    wraps a negative index once and raises [IndexError] outside
    [[-n, n)]. *)

Module Numpy.

Record ndarray2 : Type := mk_ndarray2 {
  shape0 : nat;
  shape1 : nat;
  data : nat -> nat -> Q
}.

Definition norm_index (n : nat) (i : Z) : result nat :=
  if ((0 <=? i) && (i <? Z.of_nat n))%Z then Ok (Z.to_nat i)
  else if ((- Z.of_nat n <=? i) && (i <? 0))%Z
       then Ok (Z.to_nat (i + Z.of_nat n))
       else Raise IndexError.

(** [C[i, j]] *)
Definition getitem (C : ndarray2) (i j : Z) : result Q :=
  i' <- norm_index (shape0 C) i ;;
  j' <- norm_index (shape1 C) j ;;
  Ok (data C i' j').

(** [C[:, j]] *)
Definition column (C : ndarray2) (j : Z) : result (list Q) :=
  j' <- norm_index (shape1 C) j ;;
  Ok (map (fun i => data C i j') (seq 0 (shape0 C))).

(** An array from its rows (all of the length of the first one). *)
Definition of_rows (rows : list (list Q)) : ndarray2 :=
  {| shape0 := length rows;
     shape1 := length (hd [] rows);
     data := fun i j => nth j (nth i rows []) 0 |}.

(** [x[i]] on a one-dimensional array, for an index known to be in range. *)
Definition at1 (x : list Q) (i : nat) : Q := nth i x 0.

(** [a[keep]] for a boolean mask [keep]. *)
Fixpoint mask_select {A : Type} (keep : list bool) (a : list A) : list A :=
  match keep, a with
  | k :: keep', v :: a' =>
      if k then v :: mask_select keep' a' else mask_select keep' a'
  | _, _ => []
  end.

(** [keep[k] = 0] *)
Fixpoint clear (k : nat) (keep : list bool) : list bool :=
  match keep, k with
  | [], _ => []
  | _ :: keep', O => false :: keep'
  | b :: keep', S k' => b :: clear k' keep'
  end.

End Numpy.

Definition Qltb (a b : Q) : bool := negb (Qle_bool b a).

(** ** scipy.signal.find_peaks

    The library routine called at [simple_transcriber.py:58-60], as
    [scipy/signal/_peak_finding.py] and [_peak_finding_utils.pyx] define
    it for the arguments used there ([height] a scalar lower bound,
    [distance] a number of samples). *)

Module Scipy.
Import Numpy.

(** Two indices with at least one sample between them. *)
Definition two_apart (a b : nat) : Prop := (a + 2 <= b)%nat.

(** The inner [while i_ahead < i_max and x[i_ahead] == x[i]]. *)
Fixpoint look_ahead (x : list Q) (i i_max fuel i_ahead : nat) : nat :=
  match fuel with
  | O => i_ahead
  | S fuel' =>
      if (i_ahead <? i_max)%nat && Qeq_bool (at1 x i_ahead) (at1 x i)
      then look_ahead x i i_max fuel' (S i_ahead)
      else i_ahead
  end.

(** The outer [while i < i_max] of [_local_maxima_1d]; the midpoints of
    the maxima (plateaus count once) are returned in the order found. *)
Fixpoint maxima_loop (x : list Q) (i_max fuel i : nat) : list nat :=
  match fuel with
  | O => []
  | S fuel' =>
      if (i <? i_max)%nat then
        if Qltb (at1 x (i - 1)) (at1 x i) then
          let i_ahead := look_ahead x i i_max (i_max - S i) (S i) in
          if Qltb (at1 x i_ahead) (at1 x i) then
            ((i + (i_ahead - 1)) / 2)%nat
              :: maxima_loop x i_max fuel' (S i_ahead)
          else maxima_loop x i_max fuel' (S i)
        else maxima_loop x i_max fuel' (S i)
      else []
  end.

Definition local_maxima_1d (x : list Q) : list nat :=
  maxima_loop x (length x - 1) (length x) 1.

(** [np.argsort(priority)]: positions by ascending priority.  Equal
    priorities are listed in their original order here; numpy leaves
    their order open, and [select_by_peak_distance_apart] below shows
    that it does not matter for [distance=2]. *)
Fixpoint argsort_insert (priority : list Q) (j : nat) (order : list nat)
  : list nat :=
  match order with
  | [] => [j]
  | k :: order' =>
      if Qle_bool (at1 priority j) (at1 priority k) then j :: order
      else k :: argsort_insert priority j order'
  end.

Definition argsort (priority : list Q) : list nat :=
  fold_right (argsort_insert priority) [] (seq 0 (length priority)).

(** [k = j - 1; while 0 <= k and peaks[j] - peaks[k] < distance:
    keep[k] = 0; k -= 1], with [k1 = k + 1]. *)
Fixpoint suppress_left (peaks : list nat) (distance pj k1 : nat)
  (keep : list bool) : list bool :=
  match k1 with
  | O => keep
  | S k =>
      if (pj - nth k peaks O <? distance)%nat
      then suppress_left peaks distance pj k (clear k keep)
      else keep
  end.

(** [k = j + 1; while k < peaks_size and peaks[k] - peaks[j] < distance:
    keep[k] = 0; k += 1] *)
Fixpoint suppress_right (peaks : list nat) (distance pj fuel k : nat)
  (keep : list bool) : list bool :=
  match fuel with
  | O => keep
  | S fuel' =>
      if (k <? length peaks)%nat && (nth k peaks O - pj <? distance)%nat
      then suppress_right peaks distance pj fuel' (S k) (clear k keep)
      else keep
  end.

(** [_select_by_peak_distance]: peaks are visited from the highest
    priority down; a peak still kept clears its neighbours closer than
    [distance]. *)
Definition select_by_peak_distance (peaks : list nat) (priority : list Q)
  (distance : nat) : list bool :=
  fold_left
    (fun keep j =>
       if nth j keep false then
         let pj := nth j peaks O in
         suppress_right peaks distance pj (length peaks - S j) (S j)
           (suppress_left peaks distance pj j keep)
       else keep)
    (rev (argsort priority))
    (repeat true (length peaks)).

(** [find_peaks(x, height=height, distance=distance)]: the peak indices
    and [properties['peak_heights']]. *)
Definition find_peaks (x : list Q) (height : Q) (distance : nat)
  : list nat * list Q :=
  let peaks := local_maxima_1d x in
  let peak_heights := map (at1 x) peaks in
  let keep := map (Qle_bool height) peak_heights in
  let peaks := mask_select keep peaks in
  let peak_heights := mask_select keep peak_heights in
  let keep := select_by_peak_distance peaks (map (at1 x) peaks) distance in
  (mask_select keep peaks, mask_select keep peak_heights).

End Scipy.

(** ** simple_transcriber.py: SimplePianoTranscriber *)

Module Transcriber.
Import Numpy.

(** [__init__], lines 21-24: the two settings; [frame_rate] is derived. *)
Record config : Type := mk_config {
  sample_rate : positive;
  hop_length : positive
}.

(** [SimplePianoTranscriber()] *)
Definition default : config :=
  {| sample_rate := 22050; hop_length := 512 |}.

Definition frame_rate (cfg : config) : Q :=
  Z.pos (sample_rate cfg) # hop_length cfg.

(** Python's [int] on a float: truncation towards zero. *)
Definition py_int (q : Q) : Z :=
  if Qle_bool 0 q then Qfloor q else Qceiling q.

(** [librosa.frames_to_time(frame, sr=sr, hop_length=hop_length)]:
    [frame * hop_length / sr] seconds. *)
Definition frames_to_time (cfg : config) (frame : Z) : Q :=
  (frame * Z.pos (hop_length cfg)) # sample_rate cfg.

(** [range(a, b)] *)
Definition py_range (a b : Z) : list Z :=
  map (fun k => (a + Z.of_nat k)%Z) (seq 0 (Z.to_nat (b - a))).

(** [list(peaks).index(peak_idx)], for a [peak_idx] drawn from [peaks]. *)
Fixpoint index (peaks : list nat) (peak_idx : nat) : nat :=
  match peaks with
  | [] => O
  | p :: peaks' => if (p =? peak_idx)%nat then O else S (index peaks' peak_idx)
  end.

(** Line 67. *)
Definition velocity_of (peak_height : Q) : Z :=
  py_int (Qmin 127 (Qmax 1 ((peak_height + 60) * 2))).

(** Lines 73-76: the first frame of the window below -50 dB replaces the
    default [offset_frame]. *)
Fixpoint decay_scan (C_db : ndarray2) (peak_idx : nat) (window : list Z)
  (offset_frame : Z) : result Z :=
  match window with
  | [] => Ok offset_frame
  | check_frame :: rest =>
      v <- getitem C_db (Z.of_nat peak_idx) check_frame ;;
      if Qltb v (-50) then Ok check_frame
      else decay_scan C_db peak_idx rest offset_frame
  end.

(** Lines 70-76. *)
Definition estimate_offset (cfg : config) (C_db : ndarray2)
  (peak_idx : nat) (onset_frame : Z) : result Z :=
  let offset_frame := (onset_frame + py_int (frame_rate cfg * (1 # 2)))%Z in
  decay_scan C_db peak_idx
    (py_range (onset_frame + 1)
       (Z.min (onset_frame + py_int (frame_rate cfg * 2))
              (Z.of_nat (shape1 C_db))))
    offset_frame.

(** Lines 63-87: the note of one peak. *)
Definition note_of_peak (cfg : config) (C_db : ndarray2)
  (peaks : list nat) (peak_heights : list Q) (onset_frame : Z)
  (peak_idx : nat) : result note :=
  let midi_note := (21 + Z.of_nat peak_idx)%Z in
  let velocity := velocity_of (nth (index peaks peak_idx) peak_heights 0) in
  offset_frame <- estimate_offset cfg C_db peak_idx onset_frame ;;
  let onset_time := frames_to_time cfg onset_frame in
  let offset_time := frames_to_time cfg offset_frame in
  Ok {| pitch_midi := midi_note;
        onset_time_s := onset_time;
        offset_time_s := offset_time;
        velocity := velocity;
        confidence := 1 # 2 |}.

(** The [for peak_idx in peaks] loop, appending to [notes]. *)
Fixpoint peaks_loop (cfg : config) (C_db : ndarray2)
  (peaks : list nat) (peak_heights : list Q) (onset_frame : Z)
  (todo : list nat) (notes : list note) : result (list note) :=
  match todo with
  | [] => Ok notes
  | peak_idx :: rest =>
      n <- note_of_peak cfg C_db peaks peak_heights onset_frame peak_idx ;;
      peaks_loop cfg C_db peaks peak_heights onset_frame rest (notes ++ [n])
  end.

(** Lines 53-87: the body of the loop over onset frames. *)
Definition onset_body (cfg : config) (C_db : ndarray2) (onset_frame : Z)
  (notes : list note) : result (list note) :=
  if (onset_frame <? Z.of_nat (shape1 C_db))%Z then
    spectrum <- column C_db onset_frame ;;
    let (peaks, peak_heights) := Scipy.find_peaks spectrum (-40) 2 in
    peaks_loop cfg C_db peaks peak_heights onset_frame peaks notes
  else Ok notes.

(** Lines 51-52: [for onset_frame in onset_frames]. *)
Fixpoint onsets_loop (cfg : config) (C_db : ndarray2)
  (onset_frames : list Z) (notes : list note) : result (list note) :=
  match onset_frames with
  | [] => Ok notes
  | onset_frame :: rest =>
      notes' <- onset_body cfg C_db onset_frame notes ;;
      onsets_loop cfg C_db rest notes'
  end.

(** Line 90: [notes.sort(key=lambda x: x['onset_time_s'])], a stable
    sort: notes of equal onset time keep their relative order. *)
Fixpoint insert (n : note) (sorted : list note) : list note :=
  match sorted with
  | [] => [n]
  | m :: sorted' =>
      if Qle_bool (onset_time_s n) (onset_time_s m) then n :: sorted
      else m :: insert n sorted'
  end.

Definition sort_by_onset (notes : list note) : list note :=
  fold_right insert [] notes.

(** The condition of the [if] at lines 98-99. *)
Definition overlaps (existing n : note) : bool :=
  (pitch_midi existing =? pitch_midi n)%Z
  && (Qle_bool (onset_time_s existing) (onset_time_s n)
      && Qltb (onset_time_s n) (offset_time_s existing)).

(** Lines 96-101: the flag [overlap] after the scan of [filtered_notes]. *)
Fixpoint overlap (filtered_notes : list note) (n : note) : bool :=
  match filtered_notes with
  | [] => false
  | existing :: rest => if overlaps existing n then true else overlap rest n
  end.

(** Lines 102-103: the candidate is appended unless the flag is set. *)
Definition filter_step (filtered_notes : list note) (n : note) : list note :=
  if overlap filtered_notes n then filtered_notes
  else filtered_notes ++ [n].

(** Lines 93-103. *)
Definition overlap_filter (notes : list note) : list note :=
  fold_left filter_step notes [].

(** Lines 50-106, from the spectrogram and the detected onset frames to
    [transcription['notes']]. *)
Definition transcribe (cfg : config) (C_db : ndarray2)
  (onset_frames : list Z) : result (list note) :=
  notes <- onsets_loop cfg C_db onset_frames [] ;;
  Ok (overlap_filter (sort_by_onset notes)).

(** The notes one onset frame contributes. *)
Definition run_at (cfg : config) (C_db : ndarray2) (onset_frame : Z)
  : result (list note) :=
  onset_body cfg C_db onset_frame [].

(** The candidate notes before sorting and filtering. *)
Definition candidates (cfg : config) (C_db : ndarray2)
  (onset_frames : list Z) : result (list note) :=
  onsets_loop cfg C_db onset_frames [].

(** Two half-open intervals [[onset, offset)] share a point. *)
Definition intervals_overlap (n m : note) : Prop :=
  exists t : Q,
    (onset_time_s n <= t /\ t < offset_time_s n)
    /\ (onset_time_s m <= t /\ t < offset_time_s m).

(** Ascending onset time. *)
Definition onset_le (n m : note) : Prop := onset_time_s n <= onset_time_s m.

(** Ascending pitch. *)
Definition pitch_lt (n m : note) : Prop := (pitch_midi n < pitch_midi m)%Z.

(** Ascending onset time, ties by ascending pitch. *)
Definition onset_pitch_lt (n m : note) : Prop :=
  onset_time_s n < onset_time_s m
  \/ (onset_time_s n == onset_time_s m /\ (pitch_midi n < pitch_midi m)%Z).

(** The bin [peak_idx] read at [frame] is below the decay level of line
    74, respectively at or above it. *)
Definition decayed (C_db : ndarray2) (peak_idx : nat) (frame : Z) : Prop :=
  exists v, getitem C_db (Z.of_nat peak_idx) frame = Ok v /\ v < -50.

Definition sustained (C_db : ndarray2) (peak_idx : nat) (frame : Z) : Prop :=
  exists v, getitem C_db (Z.of_nat peak_idx) frame = Ok v /\ -50 <= v.

(** The relation the overlap invariant states of every two kept notes. *)
Definition apart (e n : note) : Prop :=
  pitch_midi e = pitch_midi n -> ~ intervals_overlap e n.

(** What the sorted candidate list owes the filter for its output to be
    ordered by pitch within one onset time: a note that follows a note of
    the same onset time has a higher pitch, or is a repetition of a note
    of positive duration seen by then. *)
Definition tidy (notes : list note) : Prop :=
  forall l1 k l2 x,
    notes = l1 ++ k :: l2 -> In x l2 ->
    onset_time_s k == onset_time_s x ->
    pitch_lt k x
    \/ (In x (l1 ++ [k]) /\ onset_time_s x < offset_time_s x).

(** A spectrogram of 88 bins and 3 frames, silent but for bin 39 (middle
    C), which sounds at frame 0 and has decayed at frame 1. *)
Definition staccato : ndarray2 :=
  {| shape0 := 88; shape1 := 3;
     data := fun i j =>
       if (i =? 39)%nat then nth j [-10; -60; -60] (-80) else -80 |}.

(** 88 bins and 3 frames: bin 39 sustained over all frames, bin 45
    quieter and gone at frame 2. *)
Definition legato : ndarray2 :=
  {| shape0 := 88; shape1 := 3;
     data := fun i j =>
       if (i =? 39)%nat then nth j [-10; -20; -30] (-80)
       else if (i =? 45)%nat then nth j [-30; -35; -60] (-80)
       else -80 |}.

End Transcriber.

(** ** wrappers/crepe_onset_wrapper.py and
       wrappers/piano_transformer_wrapper.py

    The note dicts of the wrappers carry the five keys of [note].  A
    numpy or Python call that raises ([ValueError] of [np.argmin] on an
    empty array, [IndexError] of an index past the end) is the [None]
    of [option]. *)

Module Wrappers.

Section Duplicates.

(** The duplicate filters of [crepe_onset_wrapper.py:78-88] and of
    [piano_transformer_wrapper.py:76-86] are the same two loops around
    different tests of an [existing] kept note against the incoming
    one. *)
Variable test : note -> note -> bool.

(** The inner [for existing in filtered_notes], with its [break]: the
    flag [is_duplicate] after the scan. *)
Fixpoint is_duplicate (filtered_notes : list note) (n : note) : bool :=
  match filtered_notes with
  | [] => false
  | existing :: rest =>
      if test existing n then true else is_duplicate rest n
  end.

(** [if not is_duplicate: filtered_notes.append(note)] *)
Definition keep_step (filtered_notes : list note) (n : note) : list note :=
  if is_duplicate filtered_notes n then filtered_notes
  else filtered_notes ++ [n].

Definition dedupe (notes : list note) : list note :=
  fold_left keep_step notes [].

End Duplicates.

(** [crepe_onset_wrapper.py:83-84]: within a semitone and less than
    50 ms apart. *)
Definition crepe_test (existing n : note) : bool :=
  (Z.abs (pitch_midi existing - pitch_midi n) <=? 1)%Z
  && Qltb (Qabs (onset_time_s existing - onset_time_s n)) (5 # 100).

Definition crepe_filter : list note -> list note := dedupe crepe_test.

(** [piano_transformer_wrapper.py:81-82]: the same pitch and less than
    50 ms apart. *)
Definition transformer_test (existing n : note) : bool :=
  (pitch_midi existing =? pitch_midi n)%Z
  && Qltb (Qabs (onset_time_s existing - onset_time_s n)) (5 # 100).

Definition transformer_unique : list note -> list note :=
  dedupe transformer_test.

(** [np.argmin(a)]: the first index of the least entry; [None] on an
    empty array. *)
Fixpoint argmin_from (best_i : nat) (best : Q) (i : nat) (a : list Q)
  : nat :=
  match a with
  | [] => best_i
  | x :: a' =>
      if Qltb x best then argmin_from i x (S i) a'
      else argmin_from best_i best (S i) a'
  end.

Definition argmin (a : list Q) : option nat :=
  match a with
  | [] => None
  | x :: a' => Some (argmin_from 0 x 1 a')
  end.

(** [round(x)] on a float: to the nearest integer, a tie to the even
    one. *)
Definition py_round (x : Q) : Z :=
  let low := Qfloor x in
  let rest := x - inject_Z low in
  if Qltb rest (1 # 2) then low
  else if Qltb (1 # 2) rest then (low + 1)%Z
  else if Z.even low then low else (low + 1)%Z.

(** [np.abs(time_stamps - onset_time)], line 61: the float differences. *)
Definition distances (time_stamps : list Q) (onset_time : Q) : list Q :=
  map (fun ts => Qabs (Float.fsub ts onset_time)) time_stamps.

(** [crepe_onset_wrapper.py:59-76], over the onset times still to come:
    [later] is non-empty exactly when
    [onset_idx < len(onset_times) - 1], and its head is
    [onset_times[onset_idx + 1]].  The difference of line 66 and the sum
    of line 73 are floats. *)
Fixpoint crepe_notes_loop (time_stamps midi_pitches confidence : list Q)
  (onset_times : list Q) (notes : list note) : option (list note) :=
  match onset_times with
  | [] => Some notes
  | onset_time :: later =>
      match argmin (distances time_stamps onset_time) with
      | None => None
      | Some time_idx =>
          match nth_error confidence time_idx with
          | None => None
          | Some c =>
              if Qltb (5 # 10) c then
                let duration :=
                  match later with
                  | next :: _ => Qmin (Float.fsub next onset_time) 2
                  | [] => 5 # 10
                  end in
                match nth_error midi_pitches time_idx with
                | None => None
                | Some m =>
                    crepe_notes_loop time_stamps midi_pitches confidence later
                      (notes
                       ++ [{| pitch_midi := py_round m;
                              onset_time_s := onset_time;
                              offset_time_s :=
                                Float.fadd onset_time duration;
                              velocity := 64;
                              confidence := c |}])
                end
              else
                crepe_notes_loop time_stamps midi_pitches confidence later
                  notes
          end
      end
  end.

(** [crepe_onset_wrapper.py:58-88]: the notes handed to
    [to_standard_format]. *)
Definition crepe_notes (time_stamps midi_pitches confidence : list Q)
  (onset_times : list Q) : option (list note) :=
  match crepe_notes_loop time_stamps midi_pitches confidence onset_times []
  with
  | None => None
  | Some notes => Some (crepe_filter notes)
  end.

(** The frame [np.argmin] picks for an onset: the first of the time
    stamps whose float distance to the onset is least. *)
Definition nearest (time_stamps : list Q) (onset_time : Q) (i : nat)
  : Prop :=
  exists ts,
    nth_error time_stamps i = Some ts
    /\ forall j ts',
         nth_error time_stamps j = Some ts' ->
         Qabs (Float.fsub ts onset_time) <= Qabs (Float.fsub ts' onset_time)
         /\ ((j < i)%nat ->
             Qabs (Float.fsub ts onset_time)
             < Qabs (Float.fsub ts' onset_time)).

(** What a note of the CREPE wrapper records: CREPE's confidence and
    rounded pitch at the frame nearest to its onset, and as offset the
    float sum of the onset and the duration, which is the float distance
    to the next onset time capped at two seconds, or half a second for
    the last onset time. *)
Definition crepe_note (time_stamps midi_pitches confidences : list Q)
  (onset_times : list Q) (n : note) : Prop :=
  exists i c m duration before later,
    nearest time_stamps (onset_time_s n) i
    /\ nth_error confidences i = Some c
    /\ nth_error midi_pitches i = Some m
    /\ 5 # 10 < c
    /\ confidence n = c
    /\ pitch_midi n = py_round m
    /\ velocity n = 64%Z
    /\ onset_times = before ++ onset_time_s n :: later
    /\ duration
       = match later with
         | next :: _ => Qmin (Float.fsub next (onset_time_s n)) 2
         | [] => 5 # 10
         end
    /\ offset_time_s n = Float.fadd (onset_time_s n) duration.

End Wrappers.

(** ** wrappers/base_wrapper.py: evaluate_against_ground_truth

    [round(x, 2)] is a whole number of hundredths; a rounded onset is
    represented by that number, so two rounded onsets are equal floats
    exactly when their numbers are equal.  A Python set is a list
    without repetition. *)

Module Evaluation.

(** [round(n["onset_time_s"], 2)], in hundredths. *)
Definition round2 (x : Q) : Z := Wrappers.py_round (x * 100).

(** The tuple [(n["pitch_midi"], round(n["onset_time_s"], 2))]. *)
Definition onset_key (n : note) : Z * Z :=
  (pitch_midi n, round2 (onset_time_s n)).

Definition key_eqb (a b : Z * Z) : bool :=
  ((fst a =? fst b) && (snd a =? snd b))%Z.

(** [k in s] *)
Definition mem (k : Z * Z) (s : list (Z * Z)) : bool :=
  existsb (key_eqb k) s.

(** The set comprehensions of lines 69-72. *)
Fixpoint to_set (keys : list (Z * Z)) : list (Z * Z) :=
  match keys with
  | [] => []
  | k :: keys' =>
      let s := to_set keys' in if mem k s then s else k :: s
  end.

Definition onsets (notes : list note) : list (Z * Z) :=
  to_set (map onset_key notes).

(** [a & b] and [a - b] *)
Definition inter (a b : list (Z * Z)) : list (Z * Z) :=
  filter (fun k => mem k b) a.

Definition diff (a b : list (Z * Z)) : list (Z * Z) :=
  filter (fun k => negb (mem k b)) a.

(** [float / float], raising on a zero denominator. *)
Definition fdiv (a b : Q) : result Q :=
  if Qeq_bool b 0 then Raise ZeroDivisionError else Ok (a / b).

Record metrics : Type := mk_metrics {
  onset_precision : Q;
  onset_recall : Q;
  onset_f1 : Q;
  true_positives : Z;
  false_positives : Z;
  false_negatives : Z
}.

(** Lines 69-89, on [predicted["notes"]] and [ground_truth["notes"]]. *)
Definition evaluate_against_ground_truth (predicted ground_truth : list note)
  : result metrics :=
  let pred_onsets := onsets predicted in
  let true_onsets := onsets ground_truth in
  let tp := Z.of_nat (length (inter pred_onsets true_onsets)) in
  let fp := Z.of_nat (length (diff pred_onsets true_onsets)) in
  let fn := Z.of_nat (length (diff true_onsets pred_onsets)) in
  precision <- (if (0 <? tp + fp)%Z then Agreement.truediv tp (tp + fp)
                else Ok 0) ;;
  recall <- (if (0 <? tp + fn)%Z then Agreement.truediv tp (tp + fn)
             else Ok 0) ;;
  f1 <- (if Qltb 0 (precision + recall)
         then fdiv (2 * precision * recall) (precision + recall)
         else Ok 0) ;;
  Ok {| onset_precision := precision;
        onset_recall := recall;
        onset_f1 := f1;
        true_positives := tp;
        false_positives := fp;
        false_negatives := fn |}.

(** The values of lines 78-79 and of line 80, when nothing raises. *)
Definition ratio (tp other : Z) : Q :=
  if (0 <? tp + other)%Z then inject_Z tp / inject_Z (tp + other) else 0.

Definition harmonic (precision recall : Q) : Q :=
  if Qltb 0 (precision + recall)
  then 2 * precision * recall / (precision + recall)
  else 0.

End Evaluation.

(** The pairs of entries of a list with the first entry before the
    second, each pair of positions once, in the order in which two nested
    loops over the list reach them. *)
Fixpoint pairs (A : Type) (l : list A) : list (A * A) :=
  match l with
  | [] => []
  | x :: l' => map (pair x) l' ++ pairs l'
  end.

(** ** run_comparison.py

    Dicts are association lists in insertion order; a call that raises
    is [None]. *)

Module Comparison.
Import Numpy.

(** [np.max(a)]; [None] on an empty array. *)
Definition np_max (a : list Q) : option Q :=
  match a with
  | [] => None
  | x :: a' => Some (fold_left Qmax a' x)
  end.

(** [np.where(a > threshold)[0]] *)
Definition where_gt (a : list Q) (threshold : Q) : list nat :=
  filter (fun i => Qltb threshold (at1 a i)) (seq 0 (length a)).

(** Lines 109 and 111: the bins the inner loop runs over. *)
Definition spectral_peaks (spectrum : list Q) : option (list nat) :=
  match np_max spectrum with
  | None => None
  | Some top => Some (firstn 5 (where_gt spectrum (top * (3 # 10))))
  end.

(** [librosa.frames_to_time(onset_frame, sr=sr)] at the sample rate
    22050 of line 93 and librosa's hop length 512: the sample index
    [onset_frame * 512] divided by [float(sr)], one float division. *)
Definition onset_time_of (onset_frame : Z) : Q :=
  Float.round64 (Transcriber.frames_to_time Transcriber.default onset_frame).

(** Lines 112-121; the sum of line 118 is a float. *)
Definition spectral_note (onset_frame : Z) (peak : nat) : note :=
  let onset_time := onset_time_of onset_frame in
  {| pitch_midi := 21 + Z.of_nat peak;
     onset_time_s := onset_time;
     offset_time_s := Float.fadd onset_time (5 # 10);
     velocity := 64;
     confidence := 5 # 10 |}.

(** Lines 104-121 of [run_spectral_analysis], on the magnitudes [C]. *)
Fixpoint spectral_loop (C : ndarray2) (onset_frames : list Z)
  (notes : list note) : option (list note) :=
  match onset_frames with
  | [] => Some notes
  | onset_frame :: rest =>
      if (onset_frame <? Z.of_nat (shape1 C))%Z then
        match column C onset_frame with
        | Raise _ => None
        | Ok spectrum =>
            match spectral_peaks spectrum with
            | None => None
            | Some peaks =>
                spectral_loop C rest
                  (notes ++ map (spectral_note onset_frame) peaks)
            end
        end
      else spectral_loop C rest notes
  end.

Definition run_spectral_analysis (C : ndarray2) (onset_frames : list Z)
  : option (list note) :=
  spectral_loop C onset_frames [].

(** What the notes [group] emitted for one onset frame are: none for a
    frame at or past the end of the array, at most five otherwise, by
    ascending pitch, all at the frame's float time and half a second long
    up to the rounding of the float sum. *)
Definition spectral_group (C : ndarray2) (onset_frame : Z)
  (group : list note) : Prop :=
  ((Z.of_nat (shape1 C) <= onset_frame)%Z -> group = [])
  /\ (length group <= 5)%nat
  /\ StronglySorted Z.lt (map pitch_midi group)
  /\ Forall (fun n =>
               (21 <= pitch_midi n < 21 + Z.of_nat (shape0 C))%Z
               /\ onset_time_s n = onset_time_of onset_frame
               /\ offset_time_s n = Float.fadd (onset_time_s n) (5 # 10)
               /\ velocity n = 64%Z /\ confidence n = 5 # 10
               /\ onset_time_s n <= offset_time_s n
               /\ ((0 <= onset_frame)%Z ->
                   Qabs (offset_time_s n - (onset_time_s n + (5 # 10)))
                   <= (onset_time_s n + (5 # 10)) * 2 ^ (-53))) group.

(** A row of the frame [calculate_agreement] returns. *)
Record agreement_row : Type := mk_agreement_row {
  sample : String.string;
  model1 : String.string;
  model2 : String.string;
  agreement : Q;
  matches : Z;
  total : Z
}.

(** [models[name]]; [None] is [KeyError]. *)
Fixpoint lookup (models : list (String.string * list note))
  (name : String.string) : option (list note) :=
  match models with
  | [] => None
  | (key, notes) :: models' =>
      if String.eqb key name then Some notes else lookup models' name
  end.

(** Lines 207-229 of [calculate_agreement]; the match loop of lines
    211-217 is that of [compare_models.py:185-191]. *)
Definition pair_row (sample_name : String.string)
  (models : list (String.string * list note))
  (name1 name2 : String.string) : option agreement_row :=
  match lookup models name1, lookup models name2 with
  | Some notes1, Some notes2 =>
      let matches := Agreement.count_matches notes1 notes2 in
      let total := Z.max (Agreement.len notes1) (Agreement.len notes2) in
      match (if (0 <? total)%Z then Agreement.truediv matches total
             else Ok 0) with
      | Ok agreement =>
          Some {| sample := sample_name; model1 := name1; model2 := name2;
                  agreement := agreement; matches := matches;
                  total := total |}
      | Raise _ => None
      end
  | _, _ => None
  end.

(** [for model2 in model_names[i+1:]] *)
Fixpoint inner_rows (sample_name : String.string)
  (models : list (String.string * list note)) (name1 : String.string)
  (later : list String.string) (rows : list agreement_row)
  : option (list agreement_row) :=
  match later with
  | [] => Some rows
  | name2 :: later' =>
      match pair_row sample_name models name1 name2 with
      | None => None
      | Some row => inner_rows sample_name models name1 later' (rows ++ [row])
      end
  end.

(** [for i, model1 in enumerate(model_names)] *)
Fixpoint outer_rows (sample_name : String.string)
  (models : list (String.string * list note))
  (model_names : list String.string) (rows : list agreement_row)
  : option (list agreement_row) :=
  match model_names with
  | [] => Some rows
  | name1 :: later =>
      match inner_rows sample_name models name1 later rows with
      | None => None
      | Some rows' => outer_rows sample_name models later rows'
      end
  end.

(** [for sample_name, models in all_outputs.items()] *)
Fixpoint samples_loop
  (all_outputs : list (String.string * list (String.string * list note)))
  (rows : list agreement_row) : option (list agreement_row) :=
  match all_outputs with
  | [] => Some rows
  | (sample_name, models) :: rest =>
      match outer_rows sample_name models (map fst models) rows with
      | None => None
      | Some rows' => samples_loop rest rows'
      end
  end.

Definition calculate_agreement
  (all_outputs : list (String.string * list (String.string * list note)))
  : option (list agreement_row) :=
  samples_loop all_outputs [].

(** The row of lines 222-229 for two entries of [models]. *)
Definition row_for (sample_name : String.string)
  (entry1 entry2 : String.string * list note) : agreement_row :=
  let matches := Agreement.count_matches (snd entry1) (snd entry2) in
  let total :=
    Z.max (Agreement.len (snd entry1)) (Agreement.len (snd entry2)) in
  {| sample := sample_name;
     model1 := fst entry1;
     model2 := fst entry2;
     agreement :=
       if (0 <? total)%Z then inject_Z matches / inject_Z total else 0;
     matches := matches;
     total := total |}.

(** The table of a sample: one row for each pair of its models. *)
Definition sample_table (sample_name : String.string)
  (models : list (String.string * list note)) : list agreement_row :=
  map (fun p => row_for sample_name (fst p) (snd p)) (pairs models).

(** The whole table, sample after sample. *)
Definition table
  (all_outputs : list (String.string * list (String.string * list note)))
  : list agreement_row :=
  flat_map (fun entry => sample_table (fst entry) (snd entry)) all_outputs.

(** What a row of [calculate_agreement] records of the two note lists it
    compares. *)
Definition row_of (sample_name : String.string)
  (models : list (String.string * list note)) (row : agreement_row) : Prop :=
  sample row = sample_name
  /\ exists notes1 notes2,
       lookup models (model1 row) = Some notes1
       /\ lookup models (model2 row) = Some notes2
       /\ matches row = Agreement.count_matches notes1 notes2
       /\ total row = Z.max (Agreement.len notes1) (Agreement.len notes2)
       /\ Agreement.agreement notes1 notes2 = Ok (agreement row).

End Comparison.

(** ** compare_models.py: the table of analyze_model_agreement

    The output files are a function from a sample and a model name to
    the ["notes"] of [outputs/<model>/<sample>.json], [None] when the
    file does not exist. *)

Import String.StringSyntax.
Delimit Scope string_scope with string.

Module Report.

(** Lines 158-159. *)
Definition samples : list String.string :=
  ["sample"; "live_piano"; "youtube_piano"]%string.

Definition models : list String.string :=
  ["basic_pitch"; "crepe_onset"; "piano_transformer"]%string.

(** The dict appended at lines 195-201. *)
Record report_row : Type := mk_report_row {
  sample : String.string;
  model_pair : String.string;
  agreement : Q;
  matching_notes : Z;
  total_notes_avg : Q
}.

(** Lines 165-170: the dict [model_outputs] of one sample. *)
Definition model_outputs (load : String.string -> option (list note))
  : list (String.string * list note) :=
  flat_map
    (fun model =>
       match load model with
       | Some notes => [(model, notes)]
       | None => []
       end)
    models.

(** Lines 178-201: the body of the two loops over [models]. *)
Definition pair_step (sample_name : String.string)
  (outputs : list (String.string * list note))
  (model1 model2 : String.string) (rows : list report_row)
  : result (list report_row) :=
  if negb (String.ltb model1 model2) then Ok rows
  else
    match Comparison.lookup outputs model1, Comparison.lookup outputs model2
    with
    | Some notes1, Some notes2 =>
        let matches := Agreement.count_matches notes1 notes2 in
        agreement <- Agreement.agreement notes1 notes2 ;;
        Ok (rows
            ++ [{| sample := sample_name;
                   model_pair :=
                     String.append model1 (String.append "-" model2);
                   agreement := agreement;
                   matching_notes := matches;
                   total_notes_avg :=
                     inject_Z (Agreement.len notes1 + Agreement.len notes2)
                     / 2 |}])
    | _, _ => Ok rows
    end.

(** [for model2 in models] *)
Fixpoint inner_loop (sample_name : String.string)
  (outputs : list (String.string * list note)) (model1 : String.string)
  (todo : list String.string) (rows : list report_row)
  : result (list report_row) :=
  match todo with
  | [] => Ok rows
  | model2 :: todo' =>
      rows' <- pair_step sample_name outputs model1 model2 rows ;;
      inner_loop sample_name outputs model1 todo' rows'
  end.

(** [for model1 in models] *)
Fixpoint outer_loop (sample_name : String.string)
  (outputs : list (String.string * list note))
  (todo : list String.string) (rows : list report_row)
  : result (list report_row) :=
  match todo with
  | [] => Ok rows
  | model1 :: todo' =>
      rows' <- inner_loop sample_name outputs model1 models rows ;;
      outer_loop sample_name outputs todo' rows'
  end.

(** Lines 163-201: one sample. *)
Definition sample_step
  (files : String.string -> String.string -> option (list note))
  (sample_name : String.string) (rows : list report_row)
  : result (list report_row) :=
  let outputs := model_outputs (files sample_name) in
  if (length outputs <? 2)%nat then Ok rows
  else outer_loop sample_name outputs models rows.

(** [for sample in samples] *)
Fixpoint samples_loop
  (files : String.string -> String.string -> option (list note))
  (todo : list String.string) (rows : list report_row)
  : result (list report_row) :=
  match todo with
  | [] => Ok rows
  | sample_name :: todo' =>
      rows' <- sample_step files sample_name rows ;;
      samples_loop files todo' rows'
  end.

Definition analyze_model_agreement
  (files : String.string -> String.string -> option (list note))
  : result (list report_row) :=
  samples_loop files samples [].

(** The row of lines 195-201 for two entries of [model_outputs]. *)
Definition row_for (sample_name : String.string)
  (entry1 entry2 : String.string * list note) : report_row :=
  let notes1 := snd entry1 in
  let notes2 := snd entry2 in
  {| sample := sample_name;
     model_pair := String.append (fst entry1) (String.append "-" (fst entry2));
     agreement :=
       if Agreement.truthy notes1 || Agreement.truthy notes2
       then inject_Z (Agreement.count_matches notes1 notes2)
            / inject_Z (Z.max (Agreement.len notes1) (Agreement.len notes2))
       else 0;
     matching_notes := Agreement.count_matches notes1 notes2;
     total_notes_avg :=
       inject_Z (Agreement.len notes1 + Agreement.len notes2) / 2 |}.

(** The table of a sample: one row for each pair of the model outputs
    found. *)
Definition sample_table
  (files : String.string -> String.string -> option (list note))
  (sample_name : String.string) : list report_row :=
  map (fun p => row_for sample_name (fst p) (snd p))
      (pairs (model_outputs (files sample_name))).

(** The whole table, sample after sample. *)
Definition table
  (files : String.string -> String.string -> option (list note))
  : list report_row :=
  flat_map (sample_table files) samples.

(** What a row records. *)
Definition row_of
  (files : String.string -> String.string -> option (list note))
  (row : report_row) : Prop :=
  exists model1 model2 notes1 notes2,
    In (sample row) samples
    /\ In model1 models /\ In model2 models
    /\ String.ltb model1 model2 = true
    /\ files (sample row) model1 = Some notes1
    /\ files (sample row) model2 = Some notes2
    /\ model_pair row = String.append model1 (String.append "-" model2)
    /\ matching_notes row = Agreement.count_matches notes1 notes2
    /\ Agreement.agreement notes1 notes2 = Ok (agreement row)
    /\ total_notes_avg row
       = inject_Z (Agreement.len notes1 + Agreement.len notes2) / 2.

End Report.

(** * wrappers/base_wrapper.py: the standard note format *)

Module Standard.

(** The value stored under a key of a note dict: the wrappers store Python
    ints and floats under the keys read here. *)
Inductive pyval : Type :=
| PyInt (z : Z)
| PyFloat (x : Q).

(** [float(v)] *)
Definition float (v : pyval) : Q :=
  match v with
  | PyInt z => inject_Z z
  | PyFloat x => x
  end.

(** [int(v)]: a float is truncated towards zero. *)
Definition int (v : pyval) : Z :=
  match v with
  | PyInt z => z
  | PyFloat x => Transcriber.py_int x
  end.

(** A note dict, with string keys. *)
Definition pydict : Type := list (String.string * pyval).

(** [d.get(key, default)] *)
Fixpoint get (d : pydict) (key : String.string) (default : pyval) : pyval :=
  match d with
  | [] => default
  | (k, v) :: d' => if String.eqb k key then v else get d' key default
  end.

(** The dict literal the three wrappers append for a note
    (crepe_onset_wrapper.py lines 70-76, basic_pitch_wrapper.py lines 49-55,
    piano_transformer_wrapper.py lines 68-74). *)
Definition note_dict (n : note) : pydict :=
  [("pitch_midi", PyInt (pitch_midi n));
   ("onset_time_s", PyFloat (onset_time_s n));
   ("offset_time_s", PyFloat (offset_time_s n));
   ("velocity", PyInt (velocity n));
   ("confidence", PyFloat (confidence n))]%string.

(** The dict of lines 41-49. *)
Record standard_note : Type := mk_standard_note {
  id : String.string;
  pitch_midi : pyval;
  onset_time_s : Q;
  offset_time_s : Q;
  velocity : Z;
  confidence : Q;
  model_provenance : list String.string
}.

(** [str(i)] of an index. *)
Definition str (i : nat) : String.string :=
  DecimalString.NilEmpty.string_of_uint (Nat.to_uint i).

(** Lines 41-49: the dict built for [note] at index [i]. *)
Definition standard_note_of (model_name : String.string) (i : nat)
  (d : pydict) : standard_note :=
  {| id := String.append model_name (String.append "_"%string (str i));
     pitch_midi :=
       get d "pitch_midi"%string (get d "pitch"%string (PyInt 0));
     onset_time_s :=
       float (get d "onset_time_s"%string (get d "start"%string (PyInt 0)));
     offset_time_s :=
       float (get d "offset_time_s"%string (get d "end"%string (PyInt 0)));
     velocity := int (get d "velocity"%string (PyInt 64));
     confidence := float (get d "confidence"%string (PyFloat (1 # 2)));
     model_provenance := [model_name] |}.

(** [enumerate(l, start)] *)
Definition enumerate (A : Type) (l : list A) (start : nat)
  : list (nat * A) :=
  combine (seq start (length l)) l.

(** The comprehension of lines 40-51 with the index starting at [start]. *)
Definition standard_from (model_name : String.string) (start : nat)
  (notes : list pydict) : list standard_note :=
  map (fun p => standard_note_of model_name (fst p) (snd p))
      (enumerate notes start).

(** Lines 40-51: the list under ["notes"] of [to_standard_format]. *)
Definition to_standard_format (model_name : String.string)
  (notes : list pydict) : list standard_note :=
  standard_from model_name 0 notes.

(** A standard note read back as a note dict (the keys holding numbers). *)
Definition standard_dict (s : standard_note) : pydict :=
  [("pitch_midi", pitch_midi s);
   ("onset_time_s", PyFloat (onset_time_s s));
   ("offset_time_s", PyFloat (offset_time_s s));
   ("velocity", PyInt (velocity s));
   ("confidence", PyFloat (confidence s))]%string.

End Standard.

(** A standard note carries the five fields of a wrapper's note. *)
Definition carries (n : note) (s : Standard.standard_note) : Prop :=
  Standard.pitch_midi s = Standard.PyInt (pitch_midi n)
  /\ Standard.onset_time_s s = onset_time_s n
  /\ Standard.offset_time_s s = offset_time_s n
  /\ Standard.velocity s = velocity n
  /\ Standard.confidence s = confidence n.

(** * Properties *)

(** ** Comparisons on floats as rationals *)

Lemma Qltb_lt (a b : Q) : Qltb a b = true <-> a < b.
Proof.
  unfold Qltb. rewrite negb_true_iff.
  split; intros H.
  - apply Qnot_le_lt. intros Hle. apply Qle_bool_iff in Hle. congruence.
  - destruct (Qle_bool b a) eqn:E; [|reflexivity].
    apply Qle_bool_iff in E. exfalso. apply (Qlt_not_le _ _ H E).
Qed.

Lemma Qltb_ge (a b : Q) : Qltb a b = false <-> b <= a.
Proof.
  unfold Qltb. rewrite negb_false_iff. apply Qle_bool_iff.
Qed.

Lemma Qle_bool_gt (a b : Q) : Qle_bool a b = false <-> b < a.
Proof.
  rewrite <- Qltb_lt. unfold Qltb. rewrite negb_true_iff. reflexivity.
Qed.

(** ** Rounding to the nearest double *)

Section FloatFacts.
Import Float.

Lemma two_pos (k : Z) : 0 < 2 ^ k.
Proof. apply Qpower_0_lt. reflexivity. Qed.

Lemma two_plus (a b : Z) : 2 ^ (a + b) == 2 ^ a * 2 ^ b.
Proof. apply Qpower_plus. discriminate. Qed.

Lemma two_succ (k : Z) : 2 ^ (k + 1) == 2 * 2 ^ k.
Proof. rewrite two_plus. change (2 ^ 1) with 2. ring. Qed.

Lemma two_le (a b : Z) : (a <= b)%Z -> 2 ^ a <= 2 ^ b.
Proof. intros H. apply Qpower_le_compat_l; [exact H|discriminate]. Qed.

Lemma rint_cases (x : Q) :
  (rint x = Qfloor x /\ x - inject_Z (Qfloor x) <= 1 # 2)
  \/ (rint x = (Qfloor x + 1)%Z /\ 1 # 2 <= x - inject_Z (Qfloor x)).
Proof.
  unfold rint.
  destruct (Qcompare (x - inject_Z (Qfloor x)) (1 # 2)) eqn:E.
  - apply Qeq_alt in E.
    destruct (Z.even (Qfloor x)); [left|right]; split; try reflexivity;
      rewrite E; apply Qle_refl.
  - apply Qlt_alt in E. left. split; [reflexivity|now apply Qlt_le_weak].
  - apply Qgt_alt in E. right. split; [reflexivity|now apply Qlt_le_weak].
Qed.

Lemma rint_comp (x y : Q) : x == y -> rint x = rint y.
Proof.
  intros H. unfold rint. rewrite (Qfloor_comp _ _ H).
  assert (E : x - inject_Z (Qfloor y) == y - inject_Z (Qfloor y))
    by (rewrite H; reflexivity).
  rewrite (Qcompare_comp _ _ E _ _ (Qeq_refl (1 # 2))). reflexivity.
Qed.

Lemma rint_near (x : Q) : Qabs (inject_Z (rint x) - x) <= 1 # 2.
Proof.
  pose proof (Qfloor_le x) as Hlo. pose proof (Qlt_floor x) as Hhi.
  rewrite inject_Z_plus in Hhi. change (inject_Z 1) with 1 in Hhi.
  apply Qabs_Qle_condition.
  destruct (rint_cases x) as [[-> H]|[-> H]];
    [|rewrite inject_Z_plus; change (inject_Z 1) with 1];
    set (low := inject_Z (Qfloor x)) in *; split; lra.
Qed.

Lemma rint_Z (z : Z) : rint (inject_Z z) = z.
Proof.
  unfold rint. rewrite Qfloor_Z.
  replace (Qcompare (inject_Z z - inject_Z z) (1 # 2)) with Lt; [reflexivity|].
  symmetry. apply Qlt_alt. unfold Qminus. rewrite Qplus_opp_r. reflexivity.
Qed.

Lemma rint_mono (x y : Q) : x <= y -> (rint x <= rint y)%Z.
Proof.
  intros Hxy.
  destruct (Qle_lt_or_eq _ _ Hxy) as [Hlt|Heq];
    [|rewrite (rint_comp Heq); lia].
  pose proof (rint_near x) as Hx. pose proof (rint_near y) as Hy.
  apply Qabs_Qle_condition in Hx, Hy.
  destruct (Z_le_gt_dec (rint x) (rint y)) as [H|H]; [exact H|exfalso].
  assert (Hz : (rint y + 1 <= rint x)%Z) by lia.
  rewrite Zle_Qle in Hz. rewrite inject_Z_plus in Hz.
  change (inject_Z 1) with 1 in Hz.
  set (rx := inject_Z (rint x)) in *. set (ry := inject_Z (rint y)) in *.
  lra.
Qed.

Lemma inject_two_pow (a : Z) : (0 <= a)%Z -> inject_Z (2 ^ a) == 2 ^ a.
Proof. intros H. now rewrite Zpower_Qpower. Qed.

(** [ilog2] is the binary logarithm rounded down. *)
Lemma ilog2_spec (x : Q) : 0 < x -> 2 ^ ilog2 x <= x < 2 ^ (ilog2 x + 1).
Proof.
  intros Hx. unfold ilog2.
  destruct x as [n d]. cbn [Qnum Qden].
  assert (Hn : (0 < n)%Z) by (unfold Qlt in Hx; cbn in Hx; lia).
  pose proof (Z.log2_spec n Hn) as Ha.
  pose proof (Z.log2_spec (Z.pos d) (Pos2Z.is_pos d)) as Hb.
  pose proof (Z.log2_nonneg n) as Ha0.
  pose proof (Z.log2_nonneg (Z.pos d)) as Hb0.
  set (a := Z.log2 n) in *. set (b := Z.log2 (Z.pos d)) in *.
  rewrite <- !Z.add_1_r in Ha, Hb.
  assert (HA : 2 ^ a <= inject_Z n < 2 * 2 ^ a).
  { rewrite <- two_succ, <- !inject_two_pow by lia.
    rewrite <- Zle_Qle, <- Zlt_Qlt. exact Ha. }
  assert (HB : 2 ^ b <= inject_Z (Z.pos d) < 2 * 2 ^ b).
  { rewrite <- two_succ, <- !inject_two_pow by lia.
    rewrite <- Zle_Qle, <- Zlt_Qlt. exact Hb. }
  assert (HP : 2 ^ (a - b) * 2 ^ b == 2 ^ a).
  { rewrite <- two_plus. now replace (a - b + b)%Z with a by lia. }
  assert (Hxd : (n # d) * inject_Z (Z.pos d) == inject_Z n).
  { rewrite (Qmake_Qdiv n d). field. discriminate. }
  pose proof (two_pos a) as HA0. pose proof (two_pos b) as HB0.
  pose proof (two_pos (a - b)) as HP0.
  set (x := n # d) in *.
  set (N := inject_Z n) in *. set (D := inject_Z (Z.pos d)) in *.
  set (A := 2 ^ a) in *. set (B := 2 ^ b) in *.
  destruct (Qle_bool (2 ^ (a - b)) x) eqn:E.
  - apply Qle_bool_iff in E. split; [exact E|].
    rewrite two_succ. set (P := 2 ^ (a - b)) in *.
    apply Qnot_le_lt. intros Hc. nra.
  - assert (E' : x < 2 ^ (a - b)).
    { apply Qnot_le_lt. intros Hc. apply Qle_bool_iff in Hc. congruence. }
    replace (a - b - 1 + 1)%Z with (a - b)%Z by lia.
    split; [|exact E'].
    assert (HQ : 2 * 2 ^ (a - b - 1) == 2 ^ (a - b)).
    { rewrite <- two_succ.
      now replace (a - b - 1 + 1)%Z with (a - b)%Z by lia. }
    pose proof (two_pos (a - b - 1)) as HQ0.
    set (P := 2 ^ (a - b)) in *. set (R := 2 ^ (a - b - 1)) in *.
    apply Qnot_lt_le. intros Hc. nra.
Qed.

Lemma ilog2_mono (x y : Q) : 0 < x -> x <= y -> (ilog2 x <= ilog2 y)%Z.
Proof.
  intros Hx Hxy.
  assert (Hy : 0 < y) by lra.
  destruct (ilog2_spec Hx) as [Hlo _]. destruct (ilog2_spec Hy) as [_ Hhi].
  assert (H : 2 ^ ilog2 x < 2 ^ (ilog2 y + 1)) by lra.
  apply Qpower_lt_compat_l_inv in H; [lia|reflexivity].
Qed.

Lemma exponent_mono (x y : Q) :
  0 < x -> x <= y -> (exponent x <= exponent y)%Z.
Proof.
  intros Hx Hxy. pose proof (ilog2_mono Hx Hxy). unfold exponent. lia.
Qed.

Lemma scaled_back (x : Q) (e : Z) : x / 2 ^ e * 2 ^ e == x.
Proof. field. pose proof (two_pos e). lra. Qed.

Lemma round_pos_error (x : Q) :
  Qabs (round_pos x - x) <= 2 ^ exponent x * (1 # 2).
Proof.
  unfold round_pos. set (e := exponent x). set (t := x / 2 ^ e).
  assert (E : inject_Z (rint t) * 2 ^ e - x
              == (inject_Z (rint t) - t) * 2 ^ e).
  { unfold t. pose proof (scaled_back x e) as Hs. set (r := inject_Z _).
    rewrite <- Hs at 1. ring. }
  rewrite E, Qabs_Qmult, (Qabs_pos (2 ^ e))
    by (apply Qlt_le_weak, two_pos).
  rewrite (Qmult_comm (2 ^ e)).
  apply Qmult_le_compat_r; [apply rint_near|apply Qlt_le_weak, two_pos].
Qed.

Lemma round_pos_nonneg (x : Q) : 0 <= x -> 0 <= round_pos x.
Proof.
  intros Hx. unfold round_pos. set (e := exponent x).
  pose proof (two_pos e) as He.
  assert (Ht : 0 <= x / 2 ^ e).
  { apply Qle_shift_div_l; [exact He|]. now rewrite Qmult_0_l. }
  apply rint_mono in Ht. change 0 with (inject_Z 0) in Ht at 1.
  rewrite rint_Z in Ht. rewrite Zle_Qle in Ht.
  apply Qmult_le_0_compat; [exact Ht|now apply Qlt_le_weak].
Qed.

Lemma round_pos_mono (x y : Q) :
  0 < x -> x <= y -> round_pos x <= round_pos y.
Proof.
  intros Hx Hxy. assert (Hy : 0 < y) by lra.
  pose proof (exponent_mono Hx Hxy) as He.
  unfold round_pos.
  pose proof (two_pos (exponent x)) as Hpx.
  pose proof (two_pos (exponent y)) as Hpy.
  destruct (Z.eq_dec (exponent x) (exponent y)) as [E|E].
  - rewrite E. apply Qmult_le_compat_r; [|now apply Qlt_le_weak].
    rewrite <- Zle_Qle. apply rint_mono.
    apply Qmult_le_r with (z := 2 ^ exponent y); [exact Hpy|].
    rewrite !scaled_back. exact Hxy.
  - assert (Hlt : (exponent x + 1 <= exponent y)%Z) by lia.
    apply Qle_trans with (2 ^ 53 * 2 ^ exponent x).
    + apply Qmult_le_compat_r; [|now apply Qlt_le_weak].
      rewrite <- (inject_two_pow (a := 53)) by lia.
      rewrite <- Zle_Qle. rewrite <- (rint_Z (2 ^ 53)).
      apply rint_mono. rewrite inject_two_pow by lia.
      apply Qle_shift_div_r; [exact Hpx|]. rewrite <- two_plus.
      destruct (ilog2_spec Hx) as [_ Hhi].
      apply Qlt_le_weak. eapply Qlt_le_trans; [exact Hhi|].
      apply two_le. unfold exponent. lia.
    + apply Qle_trans with (2 ^ 52 * 2 ^ exponent y).
      * rewrite <- !two_plus. apply two_le. lia.
      * apply Qmult_le_compat_r; [|now apply Qlt_le_weak].
        rewrite <- (inject_two_pow (a := 52)) by lia.
        rewrite <- Zle_Qle. rewrite <- (rint_Z (2 ^ 52)) at 1.
        apply rint_mono. rewrite inject_two_pow by lia.
        apply Qle_shift_div_l; [exact Hpy|]. rewrite <- two_plus.
        destruct (ilog2_spec Hy) as [Hlo _].
        eapply Qle_trans; [|exact Hlo].
        apply two_le. unfold exponent, emin in *. lia.
Qed.

Lemma round64_cases (x : Q) :
  (x == 0 /\ round64 x = 0)
  \/ (0 < x /\ round64 x = round_pos x /\ Qabs x = x)
  \/ (x < 0 /\ round64 x = - round_pos (- x) /\ Qabs x = - x).
Proof.
  destruct x as [[|p|p] d]; [left|right; left|right; right];
    repeat split; reflexivity.
Qed.

Lemma round_pos_comp (x y : Q) :
  0 < x -> x == y -> round_pos x = round_pos y.
Proof.
  intros Hx E. assert (Hy : 0 < y) by now rewrite <- E.
  assert (Hxy : x <= y) by (rewrite E; apply Qle_refl).
  assert (Hyx : y <= x) by (rewrite E; apply Qle_refl).
  pose proof (ilog2_mono Hx Hxy). pose proof (ilog2_mono Hy Hyx).
  assert (Ee : exponent x = exponent y) by (unfold exponent; lia).
  unfold round_pos. rewrite Ee. f_equal. f_equal.
  apply rint_comp. now rewrite E.
Qed.

(** The rounding depends on the value only, not on the fraction that
    denotes it. *)
Lemma round64_comp (x y : Q) : x == y -> round64 x = round64 y.
Proof.
  intros E.
  destruct (round64_cases x) as [[Hx ->]|[(Hx & -> & _)|(Hx & -> & _)]];
    destruct (round64_cases y) as [[Hy ->]|[(Hy & -> & _)|(Hy & -> & _)]];
    try reflexivity; try (exfalso; lra).
  - now apply round_pos_comp.
  - f_equal. apply round_pos_comp; lra.
Qed.

Lemma round64_nonneg (x : Q) : 0 <= x -> 0 <= round64 x.
Proof.
  intros H.
  destruct (round64_cases x) as [[Hx ->]|[(Hx & -> & _)|(Hx & -> & _)]].
  - apply Qle_refl.
  - now apply round_pos_nonneg.
  - exfalso. lra.
Qed.

(** Rounding is monotone. *)
Lemma round64_mono (x y : Q) : x <= y -> round64 x <= round64 y.
Proof.
  intros H.
  destruct (round64_cases x) as [[Hx ->]|[(Hx & -> & _)|(Hx & -> & _)]].
  - apply round64_nonneg. lra.
  - destruct (round64_cases y) as [[Hy ->]|[(Hy & -> & _)|(Hy & -> & _)]];
      try (exfalso; lra).
    now apply round_pos_mono.
  - assert (Hn : 0 <= round_pos (- x)) by (apply round_pos_nonneg; lra).
    destruct (round64_cases y) as [[Hy ->]|[(Hy & -> & _)|(Hy & -> & _)]].
    + lra.
    + assert (0 <= round_pos y) by (apply round_pos_nonneg; lra). lra.
    + assert (round_pos (- y) <= round_pos (- x))
        by (apply round_pos_mono; lra).
      lra.
Qed.

(** The rounding error is at most half a unit in the last place. *)
Lemma round64_error (x : Q) : Qabs (round64 x - x) <= ulp x * (1 # 2).
Proof.
  unfold ulp.
  destruct (round64_cases x) as [[Hx ->]|[(Hx & -> & ->)|(Hx & -> & ->)]].
  - setoid_replace (0 - x) with 0 by (rewrite Hx; ring).
    apply Qmult_le_0_compat; [apply Qlt_le_weak, two_pos|discriminate].
  - apply round_pos_error.
  - setoid_replace (- round_pos (- x) - x) with (- (round_pos (- x) - - x))
      by ring.
    rewrite Qabs_opp. apply round_pos_error.
Qed.

Lemma ulp_normal (x : Q) :
  2 ^ (-1022) <= Qabs x -> ulp x <= Qabs x * 2 ^ (-52).
Proof.
  intros H. unfold ulp. set (a := Qabs x) in *.
  assert (Ha : 0 < a) by (pose proof (two_pos (-1022)); lra).
  destruct (ilog2_spec Ha) as [Hlo Hhi].
  assert (Hk : 2 ^ (-1022) < 2 ^ (ilog2 a + 1)) by lra.
  apply Qpower_lt_compat_l_inv in Hk; [|reflexivity].
  unfold exponent, emin. rewrite Z.max_l by lia.
  replace (ilog2 a - 52)%Z with (ilog2 a + -52)%Z by lia.
  rewrite two_plus. apply Qmult_le_compat_r; [exact Hlo|].
  apply Qlt_le_weak, two_pos.
Qed.

(** In the normal range the relative error is at most [2^-53]. *)
Lemma round64_relative (x : Q) :
  2 ^ (-1022) <= Qabs x -> Qabs (round64 x - x) <= Qabs x * 2 ^ (-53).
Proof.
  intros H. eapply Qle_trans; [apply round64_error|].
  apply ulp_normal in H.
  setoid_replace (Qabs x * 2 ^ (-53)) with (Qabs x * 2 ^ (-52) * (1 # 2)).
  - apply Qmult_le_compat_r; [exact H|discriminate].
  - replace (-53)%Z with (-52 + -1)%Z by lia. rewrite two_plus.
    change (2 ^ (-1)) with (1 # 2). ring.
Qed.

Lemma rint_scaled_bound (x : Q) :
  0 < x -> (0 <= rint (x / 2 ^ exponent x) <= 2 ^ 53)%Z.
Proof.
  intros Hx. pose proof (two_pos (exponent x)) as Hp. split.
  - rewrite <- (rint_Z 0). apply rint_mono.
    apply Qle_shift_div_l; [exact Hp|]. rewrite Qmult_0_l. lra.
  - rewrite <- (rint_Z (2 ^ 53)). apply rint_mono.
    rewrite inject_two_pow by lia.
    apply Qle_shift_div_r; [exact Hp|]. rewrite <- two_plus.
    destruct (ilog2_spec Hx) as [_ Hhi].
    apply Qlt_le_weak. eapply Qlt_le_trans; [exact Hhi|].
    apply two_le. unfold exponent. lia.
Qed.

Lemma round_pos_representable (m e : Z) :
  (0 < m < 2 ^ 53)%Z -> (emin <= e)%Z ->
  round_pos (inject_Z m * 2 ^ e) == inject_Z m * 2 ^ e.
Proof.
  intros Hm He. set (x := inject_Z m * 2 ^ e).
  pose proof (two_pos e) as Hpe.
  assert (Hm0 : 0 < inject_Z m) by (rewrite <- (Zlt_Qlt 0); lia).
  assert (Hx : 0 < x) by (unfold x; nra).
  assert (Hm1 : inject_Z m < 2 ^ 53).
  { rewrite <- (inject_two_pow (a := 53)) by lia. rewrite <- Zlt_Qlt. lia. }
  destruct (ilog2_spec Hx) as [Hlo _].
  assert (Hk : 2 ^ ilog2 x < 2 ^ (53 + e)).
  { rewrite two_plus. eapply Qle_lt_trans; [exact Hlo|]. unfold x. nra. }
  apply Qpower_lt_compat_l_inv in Hk; [|reflexivity].
  unfold round_pos. set (e' := exponent x).
  assert (He' : (e' <= e)%Z) by (unfold e', exponent; lia).
  pose proof (two_pos e') as Hpe'.
  assert (Hsplit : 2 ^ e == 2 ^ (e - e') * 2 ^ e').
  { rewrite <- two_plus. now replace (e - e' + e')%Z with e by lia. }
  assert (Ht : x / 2 ^ e' == inject_Z (m * 2 ^ (e - e'))).
  { rewrite inject_Z_mult, inject_two_pow by lia. unfold x.
    rewrite Hsplit. field. lra. }
  rewrite (rint_comp Ht), rint_Z.
  rewrite inject_Z_mult, inject_two_pow by lia. unfold x.
  rewrite Hsplit. ring.
Qed.

(** A rounded value is a double: rounding it again changes nothing. *)
Lemma round64_idempotent (x : Q) : round64 (round64 x) == round64 x.
Proof.
  assert (Hpos : forall y, 0 < y -> round64 (round_pos y) == round_pos y).
  { intros y Hy.
    destruct (round64_cases (round_pos y))
      as [[Hr ->]|[(Hr & -> & _)|(Hr & _)]].
    - now rewrite Hr.
    - pose proof (rint_scaled_bound Hy) as [Hlo Hhi].
      assert (Hemin : (emin <= exponent y)%Z) by (unfold exponent; lia).
      unfold round_pos at 2 3. unfold round_pos in Hr.
      set (e := exponent y) in *. set (M := rint (y / 2 ^ e)) in *.
      pose proof (two_pos e) as Hpe.
      assert (HM : (0 < M)%Z).
      { destruct (Z.eq_dec M 0) as [E|E]; [|lia].
        rewrite E in Hr. exfalso. change (inject_Z 0) with 0 in Hr. lra. }
      destruct (Z.eq_dec M (2 ^ 53)) as [E|E].
      + assert (E2 : inject_Z M * 2 ^ e == inject_Z (2 ^ 52) * 2 ^ (e + 1)).
        { rewrite E, two_succ, !inject_two_pow by lia.
          replace 53%Z with (52 + 1)%Z by lia. rewrite two_succ. ring. }
        assert (Hgt : 0 < inject_Z M * 2 ^ e).
        { apply Qmult_lt_0_compat; [|exact Hpe].
          rewrite <- (Zlt_Qlt 0). exact HM. }
        rewrite (round_pos_comp Hgt E2), E2.
        apply round_pos_representable; lia.
      + apply round_pos_representable; lia.
    - exfalso. pose proof (round_pos_nonneg (x := y)). lra. }
  destruct (round64_cases x) as [[Hx ->]|[(Hx & -> & _)|(Hx & -> & _)]].
  - reflexivity.
  - now apply Hpos.
  - assert (Hn : 0 < - x) by lra. specialize (Hpos _ Hn).
    set (r := round_pos (- x)) in *.
    destruct (round64_cases r) as [[Hr E]|[(Hr & E & _)|(Hr & _)]].
    + rewrite (round64_comp (y := 0)) by (rewrite Hr; reflexivity).
      rewrite Hr. reflexivity.
    + destruct (round64_cases (- r)) as [[Hr' _]|[(Hr' & _)|(Hr' & -> & _)]];
        try (exfalso; lra).
      rewrite <- Hpos at 2. rewrite E.
      apply Qopp_comp.
      rewrite (round_pos_comp (y := r)); [reflexivity|lra|ring].
    + exfalso. pose proof (round_pos_nonneg (x := - x)). fold r in H. lra.
Qed.

End FloatFacts.

Lemma fsub_diag (x : Q) : Float.fsub x x = 0.
Proof.
  unfold Float.fsub. rewrite (@round64_comp (x - x) 0) by ring. reflexivity.
Qed.

(** ** The match count of [analyze_model_agreement] *)

Section AgreementFacts.
Import Agreement.

Lemma is_match_spec n1 n2 : is_match n1 n2 = true <-> tolerant n1 n2.
Proof.
  unfold is_match, tolerant.
  rewrite andb_true_iff, Z.leb_le, Qle_bool_iff. reflexivity.
Qed.

Lemma is_match_false n1 n2 : is_match n1 n2 = false <-> ~ tolerant n1 n2.
Proof.
  rewrite <- is_match_spec. destruct (is_match n1 n2); split; congruence.
Qed.

(** The bound is the one of the floats: the onsets [0.0] and [0.05] are
    within it, the onsets [1.0] and [1.05] are not, their float
    difference being above the float [0.05]. *)
Lemma is_match_float_bound :
  is_match (triple 60 0 1) (triple 60 (5 # 100) 1) = true
  /\ is_match (triple 60 1 1) (triple 60 (105 # 100) 1) = false
  /\ Float.double (5 # 100) == 3602879701896397 # 72057594037927936
  /\ Float.fsub (Float.double (105 # 100)) 1
     == 225179981368525 # 4503599627370496.
Proof. repeat split; vm_compute; reflexivity. Qed.

(** The float test against the real difference of the onsets: a
    difference of at most 0.05 passes, and a difference that passes is
    below the float [0.05] plus one unit in its last place. *)
Lemma fsub_tolerance (x y : Q) :
  (Qabs (x - y) <= 5 # 100 ->
   Qabs (Float.fsub x y) <= Float.double (5 # 100))
  /\ (Qabs (Float.fsub x y) <= Float.double (5 # 100) ->
      Qabs (x - y) < Float.double (5 # 100) + 2 ^ (-57)).
Proof.
  unfold Float.fsub, Float.double. set (d := x - y).
  set (c := Float.round64 (5 # 100)).
  assert (Hc : c == 3602879701896397 # 72057594037927936)
    by (vm_compute; reflexivity).
  assert (Hu : 2 ^ (-57) == 1 # 144115188075855872)
    by (vm_compute; reflexivity).
  split.
  - intros H. apply Qabs_Qle_condition in H. destruct H as [Hlo Hhi].
    apply round64_mono in Hlo, Hhi. fold c in Hhi.
    assert (E : Float.round64 (- (5 # 100)) = - c)
      by (vm_compute; reflexivity).
    rewrite E in Hlo. apply Qabs_Qle_condition. split; assumption.
  - intros H. apply Qabs_Qle_condition in H. destruct H as [Hlo Hhi].
    set (c1 := c + 2 ^ (-57)).
    assert (E1 : Float.round64 c1 == c1) by (vm_compute; reflexivity).
    assert (E2 : Float.round64 (- c1) == - c1) by (vm_compute; reflexivity).
    assert (Hgt : c < c1) by (unfold c1; rewrite Hu; lra).
    apply Qnot_le_lt. intros Hge.
    destruct (Qlt_le_dec d 0) as [Hd|Hd].
    + rewrite Qabs_neg in Hge by lra.
      assert (Hm : d <= - c1) by lra.
      apply round64_mono in Hm. lra.
    + rewrite Qabs_pos in Hge by lra.
      apply round64_mono in Hge. lra.
Qed.

Lemma inner_loop_existsb n1 notes2 m :
  inner_loop n1 notes2 m
  = (if existsb (is_match n1) notes2 then m + 1 else m)%Z.
Proof.
  induction notes2 as [|n2 rest IH]; simpl; [reflexivity|].
  destruct (is_match n1 n2); simpl; [reflexivity|exact IH].
Qed.

Lemma inner_loop_first_fit n1 notes2 m :
  inner_loop n1 notes2 m
  = match first_fit n1 notes2 with Some _ => (m + 1)%Z | None => m end.
Proof.
  induction notes2 as [|n2 rest IH]; simpl; [reflexivity|].
  destruct (is_match n1 n2); [reflexivity|exact IH].
Qed.

Lemma fold_count notes2 notes1 m :
  fold_left (fun matches n1 => inner_loop n1 notes2 matches) notes1 m
  = (m + Z.of_nat
           (length (filter (fun n1 => existsb (is_match n1) notes2) notes1)))%Z.
Proof.
  revert m; induction notes1 as [|n1 rest IH]; intros m; simpl.
  - lia.
  - rewrite IH, inner_loop_existsb.
    destruct (existsb (is_match n1) notes2); simpl length; lia.
Qed.

Lemma count_matches_filter notes1 notes2 :
  count_matches notes1 notes2
  = Z.of_nat
      (length (filter (fun n1 => existsb (is_match n1) notes2) notes1)).
Proof. unfold count_matches. rewrite fold_count. lia. Qed.

Lemma first_fit_first n1 notes2 n2 :
  first_fit n1 notes2 = Some n2 <->
  exists before after,
    notes2 = before ++ n2 :: after
    /\ tolerant n1 n2
    /\ Forall (fun x => ~ tolerant n1 x) before.
Proof.
  induction notes2 as [|x rest IH]; simpl.
  - split; [discriminate|].
    intros (before & after & E & _); destruct before; discriminate.
  - destruct (is_match n1 x) eqn:Hx.
    + split.
      * intros [= <-]. exists [], rest.
        split; [reflexivity|split; [now apply is_match_spec|constructor]].
      * intros (before & after & E & Hm & Hb).
        destruct before as [|y before]; simpl in E; injection E as -> ->.
        -- reflexivity.
        -- apply is_match_spec in Hx. inversion Hb; contradiction.
    + rewrite IH. split.
      * intros (before & after & -> & Hm & Hb).
        exists (x :: before), after.
        split; [reflexivity|split; [assumption|]].
        constructor; [now apply is_match_false|assumption].
      * intros (before & after & E & Hm & Hb).
        destruct before as [|y before]; simpl in E; injection E as -> ->.
        -- apply is_match_false in Hx. contradiction.
        -- exists before, after. inversion Hb; auto.
Qed.

Lemma count_matches_bounds notes1 notes2 :
  (0 <= count_matches notes1 notes2 <= len notes1)%Z.
Proof.
  rewrite count_matches_filter. unfold len.
  pose proof (filter_length_le
                (fun n1 => existsb (is_match n1) notes2) notes1).
  lia.
Qed.

Lemma counted_iff_partner n1 notes2 m :
  inner_loop n1 notes2 m = (m + 1)%Z
  <-> exists n2, In n2 notes2 /\ tolerant n1 n2.
Proof.
  rewrite inner_loop_existsb.
  destruct (existsb (is_match n1) notes2) eqn:E.
  - apply existsb_exists in E. destruct E as (n2 & Hin & Hm).
    split; [|reflexivity]. intros _. exists n2.
    split; [assumption|now apply is_match_spec].
  - split; [lia|]. intros (n2 & Hin & Ht). exfalso.
    assert (existsb (is_match n1) notes2 = true) by
      (apply existsb_exists; exists n2; split;
       [assumption|now apply is_match_spec]).
    congruence.
Qed.

Lemma agreement_value notes1 notes2 :
  agreement notes1 notes2
  = Ok (if truthy notes1 || truthy notes2
        then inject_Z (count_matches notes1 notes2)
             / inject_Z (Z.max (len notes1) (len notes2))
        else 0).
Proof.
  unfold agreement, truediv, len.
  destruct notes1 as [|a notes1], notes2 as [|b notes2]; simpl truthy;
    simpl orb; cbv iota; try reflexivity;
    match goal with
    | |- context [(?d =? 0)%Z] =>
        destruct (Z.eqb_spec d 0) as [E|E]; [simpl length in E; lia|]
    end; reflexivity.
Qed.

End AgreementFacts.

(** ** Lists *)

Lemma sorted_weaken {A : Type} (R R' : A -> A -> Prop) (l : list A) :
  (forall a b, R a b -> R' a b) -> StronglySorted R l -> StronglySorted R' l.
Proof.
  intros HR. induction 1 as [|a l Hs IH Hall]; constructor; [assumption|].
  eapply Forall_impl; [|exact Hall]. auto.
Qed.

(** ** Peak picking *)

Section ScipyFacts.
Import Numpy Scipy.

Lemma mask_select_nil {A : Type} (keep : list bool) :
  mask_select keep (@nil A) = [].
Proof. destruct keep as [|[] ?]; reflexivity. Qed.

Lemma mask_select_In {A : Type} (keep : list bool) (a : list A) (v : A) :
  In v (mask_select keep a) -> In v a.
Proof.
  revert keep; induction a as [|w a IH]; intros keep H.
  - rewrite mask_select_nil in H. contradiction.
  - destruct keep as [|[] keep]; simpl in H.
    + contradiction.
    + destruct H as [->|H]; [now left|right; eauto].
    + right; eauto.
Qed.

Lemma mask_select_Forall {A : Type} (P : A -> Prop) keep (a : list A) :
  Forall P a -> Forall P (mask_select keep a).
Proof.
  rewrite !Forall_forall. intros H v Hv. eauto using mask_select_In.
Qed.

Lemma mask_select_sorted {A : Type} (R : A -> A -> Prop) keep (a : list A) :
  StronglySorted R a -> StronglySorted R (mask_select keep a).
Proof.
  intros H; revert keep; induction H as [|w a Hs IH Hall]; intros keep.
  - rewrite mask_select_nil. constructor.
  - destruct keep as [|[] keep]; simpl.
    + constructor.
    + constructor; [apply IH|now apply mask_select_Forall].
    + apply IH.
Qed.

Lemma mask_select_map {A B : Type} (f : A -> B) keep (a : list A) :
  mask_select keep (map f a) = map f (mask_select keep a).
Proof.
  revert keep; induction a as [|w a IH]; intros keep.
  - simpl. now rewrite !mask_select_nil.
  - destruct keep as [|[] keep]; simpl; [reflexivity| |]; now rewrite IH.
Qed.

Lemma mask_select_holds {A : Type} (f : A -> bool) (a : list A) :
  Forall (fun v => f v = true) (mask_select (map f a) a).
Proof.
  induction a as [|w a IH]; simpl; [constructor|].
  destruct (f w) eqn:E; [constructor|]; assumption.
Qed.

Lemma mask_select_none {A : Type} (f : A -> bool) (a : list A) :
  Forall (fun v => f v = false) a -> mask_select (map f a) a = [].
Proof.
  induction 1 as [|w a Hw _ IH]; simpl; [reflexivity|].
  now rewrite Hw.
Qed.

Lemma look_ahead_bounds x i i_max fuel j :
  (j <= look_ahead x i i_max fuel j)%nat
  /\ ((j <= i_max)%nat -> (look_ahead x i i_max fuel j <= i_max)%nat).
Proof.
  revert j; induction fuel as [|fuel IH]; intros j; simpl.
  - split; auto.
  - destruct (Nat.ltb_spec j i_max) as [Hlt|Hge]; simpl.
    + destruct (Qeq_bool (at1 x j) (at1 x i)).
      * destruct (IH (S j)) as [H1 H2]. split; [lia|]. intros _. apply H2. lia.
      * split; auto.
    + split; auto.
Qed.

Lemma look_ahead_fuel x i i_max f1 f2 j :
  (i_max - j <= f1)%nat -> (i_max - j <= f2)%nat ->
  look_ahead x i i_max f1 j = look_ahead x i i_max f2 j.
Proof.
  revert f2 j; induction f1 as [|f1 IH]; intros f2 j H1 H2.
  - destruct f2 as [|f2]; simpl; [reflexivity|].
    destruct (Nat.ltb_spec j i_max); [lia|reflexivity].
  - destruct f2 as [|f2]; simpl.
    + destruct (Nat.ltb_spec j i_max); [lia|reflexivity].
    + destruct (Nat.ltb_spec j i_max); simpl; [|reflexivity].
      destruct (Qeq_bool (at1 x j) (at1 x i)); [apply IH; lia|reflexivity].
Qed.

(** Every iteration of the outer loop moves [i] forward, so [i_max - i]
    iterations suffice: the fuel given by [local_maxima_1d] never runs
    out. *)
Lemma maxima_loop_fuel x i_max f1 f2 i :
  (i_max - i <= f1)%nat -> (i_max - i <= f2)%nat ->
  maxima_loop x i_max f1 i = maxima_loop x i_max f2 i.
Proof.
  revert f2 i; induction f1 as [|f1 IH]; intros f2 i H1 H2.
  - destruct f2 as [|f2]; cbn [maxima_loop]; [reflexivity|].
    destruct (Nat.ltb_spec i i_max); [lia|reflexivity].
  - destruct f2 as [|f2]; cbn [maxima_loop].
    + destruct (Nat.ltb_spec i i_max); [lia|reflexivity].
    + destruct (Nat.ltb_spec i i_max) as [Hlt|Hge]; [|reflexivity].
      destruct (Qltb (at1 x (i - 1)) (at1 x i)); [|apply IH; lia].
      pose proof (look_ahead_bounds x i i_max (i_max - S i) (S i)) as [Hlo Hhi].
      destruct (Qltb _ (at1 x i)); [f_equal|]; apply IH; lia.
Qed.

Lemma maxima_loop_sorted x i_max fuel i :
  StronglySorted two_apart (maxima_loop x i_max fuel i)
  /\ Forall (fun p => (i <= p < i_max)%nat) (maxima_loop x i_max fuel i).
Proof.
  revert i; induction fuel as [|fuel IH]; intros i; cbn [maxima_loop].
  - split; constructor.
  - destruct (Nat.ltb_spec i i_max) as [Hlt|Hge]; [|split; constructor].
    assert (Hnext : StronglySorted two_apart (maxima_loop x i_max fuel (S i))
                    /\ Forall (fun p => (i <= p < i_max)%nat)
                         (maxima_loop x i_max fuel (S i))).
    { destruct (IH (S i)) as [Hs Hf]. split; [assumption|].
      eapply Forall_impl; [|exact Hf]. simpl; intros; lia. }
    destruct (Qltb (at1 x (i - 1)) (at1 x i)); [|exact Hnext].
    pose proof (look_ahead_bounds x i i_max (i_max - S i) (S i)) as [Hlo Hhi].
    set (i_ahead := look_ahead x i i_max (i_max - S i) (S i)) in *.
    destruct (Qltb (at1 x i_ahead) (at1 x i)); [|exact Hnext].
    destruct (IH (S i_ahead)) as [Hs Hf].
    assert (Hmid : (i <= (i + (i_ahead - 1)) / 2 <= i_ahead - 1)%nat).
    { split.
      - apply Nat.div_le_lower_bound; lia.
      - apply Nat.Div0.div_le_upper_bound; lia. }
    specialize (Hhi ltac:(lia)).
    split.
    + constructor; [assumption|].
      eapply Forall_impl; [|exact Hf]. unfold two_apart; intros; lia.
    + constructor; [lia|].
      eapply Forall_impl; [|exact Hf]. cbv beta; intros; lia.
Qed.

Lemma local_maxima_apart x :
  StronglySorted two_apart (local_maxima_1d x)
  /\ Forall (fun p => (1 <= p < length x - 1)%nat) (local_maxima_1d x).
Proof. apply maxima_loop_sorted. Qed.

Lemma local_maxima_sorted x :
  StronglySorted lt (local_maxima_1d x)
  /\ Forall (fun p => (1 <= p < length x - 1)%nat) (local_maxima_1d x).
Proof.
  destruct (local_maxima_apart x) as [Hs Hr]. split; [|exact Hr].
  eapply sorted_weaken; [|exact Hs]. unfold two_apart. intros; lia.
Qed.

Lemma find_peaks_facts x height distance :
  let (peaks, peak_heights) := find_peaks x height distance in
  StronglySorted lt peaks
  /\ Forall (fun p => (1 <= p < length x - 1)%nat) peaks
  /\ Forall (fun p => height <= at1 x p) peaks
  /\ peak_heights = map (at1 x) peaks.
Proof.
  unfold find_peaks.
  destruct (local_maxima_sorted x) as [Hs Hr].
  set (pk := local_maxima_1d x) in *.
  set (keep := map (Qle_bool height) (map (at1 x) pk)).
  set (keep' := select_by_peak_distance _ _ _).
  repeat split.
  - now do 2 apply mask_select_sorted.
  - now do 2 apply mask_select_Forall.
  - apply mask_select_Forall. subst keep. rewrite map_map.
    eapply Forall_impl;
      [|exact (mask_select_holds (fun p => Qle_bool height (at1 x p)) pk)].
    simpl. intros p Hp. now apply Qle_bool_iff.
  - now rewrite !mask_select_map.
Qed.

Lemma find_peaks_silence x height distance :
  (forall i, (i < length x)%nat -> at1 x i < height) ->
  find_peaks x height distance = ([], []).
Proof.
  intros Hlow. unfold find_peaks.
  destruct (local_maxima_sorted x) as [_ Hr].
  set (pk := local_maxima_1d x) in *.
  assert (E : mask_select (map (Qle_bool height) (map (at1 x) pk)) pk = []).
  { rewrite map_map.
    apply (mask_select_none (fun p => Qle_bool height (at1 x p))).
    eapply Forall_impl; [|exact Hr]. simpl. intros p Hp.
    apply Qle_bool_gt. apply Hlow. lia. }
  rewrite mask_select_map, E. now rewrite !mask_select_nil.
Qed.

(** *** [distance=2] removes nothing

    Two local maxima are never adjacent, so with [distance=2], the value
    used at line 60, every peak is kept, whatever the order in which
    [argsort] lists peaks of equal height. *)

Lemma nth_two_apart peaks :
  StronglySorted two_apart peaks ->
  forall k j, (k < j < length peaks)%nat ->
              (nth k peaks O + 2 <= nth j peaks O)%nat.
Proof.
  induction 1 as [|p peaks Hs IH Hall]; intros k j Hkj; simpl in Hkj;
    [lia|].
  destruct j as [|j]; [lia|]. destruct k as [|k]; simpl.
  - rewrite Forall_forall in Hall. apply Hall. apply nth_In. lia.
  - apply IH. lia.
Qed.

Lemma suppress_left_apart peaks j keep :
  StronglySorted two_apart peaks -> (j < length peaks)%nat ->
  suppress_left peaks 2 (nth j peaks O) j keep = keep.
Proof.
  intros Hs Hj. destruct j as [|k]; [reflexivity|]. cbn [suppress_left].
  pose proof (nth_two_apart Hs (k := k) (j := S k)) as H.
  destruct (Nat.ltb_spec (nth (S k) peaks O - nth k peaks O) 2);
    [lia|reflexivity].
Qed.

Lemma suppress_right_apart peaks j fuel keep :
  StronglySorted two_apart peaks ->
  suppress_right peaks 2 (nth j peaks O) fuel (S j) keep = keep.
Proof.
  intros Hs. destruct fuel as [|fuel]; [reflexivity|]. cbn [suppress_right].
  destruct (Nat.ltb_spec (S j) (length peaks)) as [Hlt|]; [|reflexivity].
  pose proof (nth_two_apart Hs (k := j) (j := S j)) as H.
  destruct (Nat.ltb_spec (nth (S j) peaks O - nth j peaks O) 2);
    [lia|reflexivity].
Qed.

Lemma argsort_insert_In priority j order k :
  In k (argsort_insert priority j order) -> k = j \/ In k order.
Proof.
  induction order as [|o order IH]; simpl.
  - intros [<-|[]]. now left.
  - destruct (Qle_bool (at1 priority j) (at1 priority o)); simpl.
    + intros [<-|H]; [now left|now right].
    + intros [<-|H]; [right; now left|].
      destruct (IH H) as [->|H']; [now left|right; now right].
Qed.

Lemma argsort_range priority k :
  In k (argsort priority) -> (k < length priority)%nat.
Proof.
  unfold argsort.
  assert (G : forall l, In k (fold_right (argsort_insert priority) [] l) ->
                        In k l).
  { induction l as [|j l IH]; simpl; [tauto|].
    intros H. apply argsort_insert_In in H. destruct H as [->|H]; auto. }
  intros H. apply G, in_seq in H. lia.
Qed.

Lemma select_by_peak_distance_apart peaks priority :
  StronglySorted two_apart peaks -> length priority = length peaks ->
  select_by_peak_distance peaks priority 2 = repeat true (length peaks).
Proof.
  intros Hs Hlen. unfold select_by_peak_distance.
  assert (Hrange : Forall (fun j => (j < length peaks)%nat)
                     (rev (argsort priority))).
  { apply Forall_forall. intros j Hj. apply in_rev, argsort_range in Hj. lia. }
  generalize (repeat true (length peaks)) as keep.
  induction Hrange as [|j order Hj _ IH]; intros keep; [reflexivity|].
  cbn [fold_left]. rewrite IH.
  destruct (nth j keep false); [|reflexivity].
  now rewrite suppress_left_apart, suppress_right_apart.
Qed.

Lemma mask_select_all {A : Type} (a : list A) :
  mask_select (repeat true (length a)) a = a.
Proof. induction a as [|v a IH]; simpl; [reflexivity|now rewrite IH]. Qed.

Lemma mask_select_filter {A : Type} (f : A -> bool) (a : list A) :
  mask_select (map f a) a = filter f a.
Proof.
  induction a as [|v a IH]; simpl; [reflexivity|].
  destruct (f v); now rewrite IH.
Qed.

(** The call of line 58: the local maxima of at least -40 dB, in the
    order of their bins, with their magnitudes. *)
Lemma find_peaks_distance_two x height :
  let peaks :=
    filter (fun p => Qle_bool height (at1 x p)) (local_maxima_1d x) in
  find_peaks x height 2 = (peaks, map (at1 x) peaks).
Proof.
  intros peaks. unfold find_peaks.
  rewrite (map_map (at1 x) (Qle_bool height)).
  rewrite (mask_select_filter (fun p => Qle_bool height (at1 x p))).
  fold peaks.
  rewrite select_by_peak_distance_apart.
  - rewrite mask_select_all, mask_select_map.
    rewrite (mask_select_filter (fun p => Qle_bool height (at1 x p))).
    fold peaks. f_equal.
    rewrite <- (length_map (at1 x) peaks). apply mask_select_all.
  - subst peaks. rewrite <- mask_select_filter.
    apply mask_select_sorted, local_maxima_apart.
  - apply length_map.
Qed.

End ScipyFacts.

(** ** Array indexing, ranges and the decay scan *)

Section IndexFacts.
Import Numpy Transcriber.

Lemma norm_index_ok n i :
  (- Z.of_nat n <= i < Z.of_nat n)%Z ->
  exists k, norm_index n i = Ok k /\ (k < n)%nat.
Proof.
  intros H. unfold norm_index.
  destruct (Z.leb_spec 0 i); destruct (Z.ltb_spec i (Z.of_nat n)); simpl;
    try lia.
  - eexists; split; [reflexivity|lia].
  - destruct (Z.leb_spec (- Z.of_nat n) i); destruct (Z.ltb_spec i 0); simpl;
      try lia.
    eexists; split; [reflexivity|lia].
Qed.

Lemma norm_index_raise n i :
  (i < - Z.of_nat n)%Z -> @norm_index n i = Raise IndexError.
Proof.
  intros H. unfold norm_index.
  destruct (Z.leb_spec 0 i); destruct (Z.ltb_spec i (Z.of_nat n)); simpl;
    try lia;
    destruct (Z.leb_spec (- Z.of_nat n) i); destruct (Z.ltb_spec i 0); simpl;
    try lia; reflexivity.
Qed.

Lemma getitem_ok C p j :
  (p < shape0 C)%nat ->
  (- Z.of_nat (shape1 C) <= j < Z.of_nat (shape1 C))%Z ->
  exists v, getitem C (Z.of_nat p) j = Ok v.
Proof.
  intros Hp Hj. unfold getitem.
  destruct (@norm_index_ok (shape0 C) (Z.of_nat p)) as (p' & -> & _); [lia|].
  destruct (@norm_index_ok (shape1 C) j) as (j' & -> & _); [lia|].
  simpl. eauto.
Qed.

Lemma py_range_nil a b : (b <= a)%Z -> py_range a b = [].
Proof.
  intros H. unfold py_range. replace (Z.to_nat (b - a)) with O by lia.
  reflexivity.
Qed.

Lemma py_range_cons a b :
  (a < b)%Z -> py_range a b = a :: py_range (a + 1) b.
Proof.
  intros H. unfold py_range.
  replace (Z.to_nat (b - a)) with (S (Z.to_nat (b - (a + 1)))) by lia.
  simpl. f_equal; [f_equal; lia|].
  rewrite <- seq_shift, map_map. apply map_ext. intros k. lia.
Qed.

Lemma decay_scan_range C p d off n :
  forall a b, Z.to_nat (b - a) = n ->
  decay_scan C p (py_range a b) d = Ok off ->
  (off = d /\ forall k, (a <= k < b)%Z -> sustained C p k)
  \/ ((a <= off < b)%Z /\ decayed C p off
      /\ forall k, (a <= k < off)%Z -> sustained C p k).
Proof.
  induction n as [|n IH]; intros a b Hn.
  - rewrite py_range_nil by lia. simpl. intros [= <-].
    left. split; [reflexivity|]. intros; lia.
  - rewrite py_range_cons by lia. simpl.
    destruct (getitem C (Z.of_nat p) a) as [v|e] eqn:Ev; simpl; [|discriminate].
    destruct (Qltb v (-50)) eqn:Hv.
    + intros [= <-]. right. split; [lia|]. split.
      * exists v. split; [assumption|now apply Qltb_lt].
      * intros; lia.
    + intros H. apply IH in H; [|lia].
      assert (Ha : sustained C p a)
        by (exists v; split; [assumption|now apply Qltb_ge]).
      destruct H as [[-> Hall]|(Hr & Hd & Hall)].
      * left. split; [reflexivity|]. intros k Hk.
        destruct (Z.eq_dec k a) as [->|]; [assumption|apply Hall; lia].
      * right. split; [lia|]. split; [assumption|]. intros k Hk.
        destruct (Z.eq_dec k a) as [->|]; [assumption|apply Hall; lia].
Qed.

Lemma decay_scan_total C p d window :
  (p < shape0 C)%nat ->
  Forall (fun j => (- Z.of_nat (shape1 C) <= j < Z.of_nat (shape1 C))%Z)
    window ->
  exists off, decay_scan C p window d = Ok off.
Proof.
  intros Hp. induction 1 as [|j window Hj _ IH]; simpl; [eauto|].
  destruct (getitem_ok C Hp Hj) as (v & ->). simpl.
  destruct (Qltb v (-50)); eauto.
Qed.

Lemma py_range_In a b k : In k (py_range a b) <-> (a <= k < b)%Z.
Proof.
  unfold py_range. rewrite in_map_iff. split.
  - intros (i & <- & Hi). apply in_seq in Hi. lia.
  - intros H. exists (Z.to_nat (k - a)). split; [lia|]. apply in_seq. lia.
Qed.

End IndexFacts.

(** ** Frames and times *)

Section FrameFacts.
Import Numpy Transcriber.
Variable cfg : config.

(** [int(self.frame_rate * 0.5)] and [int(self.frame_rate * 2)]. *)
Let half : Z := py_int (frame_rate cfg * (1 # 2)).
Let two : Z := py_int (frame_rate cfg * 2).

Lemma frames_to_time_lt a b :
  frames_to_time cfg a < frames_to_time cfg b <-> (a < b)%Z.
Proof.
  unfold frames_to_time, Qlt; cbn [Qnum Qden].
  rewrite <- !Z.mul_assoc. symmetry. apply Z.mul_lt_mono_pos_r. lia.
Qed.

Lemma frames_to_time_le a b :
  frames_to_time cfg a <= frames_to_time cfg b <-> (a <= b)%Z.
Proof.
  unfold frames_to_time, Qle; cbn [Qnum Qden].
  rewrite <- !Z.mul_assoc. symmetry. apply Z.mul_le_mono_pos_r. lia.
Qed.

Lemma frames_to_time_inj a b :
  frames_to_time cfg a == frames_to_time cfg b -> a = b.
Proof.
  unfold frames_to_time, Qeq; cbn [Qnum Qden].
  rewrite <- !Z.mul_assoc. intros H. apply Z.mul_cancel_r in H; [assumption|lia].
Qed.

Lemma half_nonneg : (0 <= half)%Z.
Proof.
  subst half. unfold py_int.
  destruct (Qle_bool 0 (frame_rate cfg * (1 # 2))) eqn:E.
  - apply Qle_bool_iff in E. apply (Qfloor_resp_le 0) in E. exact E.
  - apply Qle_bool_gt in E. exfalso.
    unfold frame_rate, Qlt in E; simpl in E. lia.
Qed.

(** The offset frame of lines 70-76: the first frame of the scan window
    below -50 dB, and the half-second default when there is none. *)
Lemma estimate_offset_cases C p f off :
  estimate_offset cfg C p f = Ok off ->
  let stop := Z.min (f + two) (Z.of_nat (shape1 C)) in
  (off = (f + half)%Z /\ forall k, (f + 1 <= k < stop)%Z -> sustained C p k)
  \/ ((f + 1 <= off < stop)%Z /\ decayed C p off
      /\ forall k, (f + 1 <= k < off)%Z -> sustained C p k).
Proof.
  unfold estimate_offset. intros H.
  eapply decay_scan_range in H; [exact H|reflexivity].
Qed.

Lemma estimate_offset_after C p f off :
  estimate_offset cfg C p f = Ok off ->
  (f <= off)%Z /\ ((1 <= half)%Z -> (f < off)%Z).
Proof.
  intros H. apply estimate_offset_cases in H. pose proof half_nonneg.
  destruct H as [[-> _]|(Hr & _)]; lia.
Qed.

Lemma estimate_offset_total C p f :
  (p < shape0 C)%nat -> (- Z.of_nat (shape1 C) <= f)%Z ->
  exists off, estimate_offset cfg C p f = Ok off.
Proof.
  intros Hp Hf. unfold estimate_offset. apply decay_scan_total; [assumption|].
  apply Forall_forall. intros k Hk. apply py_range_In in Hk. lia.
Qed.

End FrameFacts.

(** ** The candidate notes of one onset frame and of a recording *)

Lemma bind_Ok_inv {A B : Type} (r : result A) (k : A -> result B) (b : B) :
  bind r k = Ok b -> exists a, r = Ok a /\ k a = Ok b.
Proof. destruct r as [a|e]; simpl; [eauto|discriminate]. Qed.

Section CandidateFacts.
Import Numpy Transcriber.
Variable cfg : config.
Variable C_db : ndarray2.

Let half : Z := py_int (frame_rate cfg * (1 # 2)).
Let n_frames : Z := Z.of_nat (shape1 C_db).

Let run_at : Z -> result (list note) := Transcriber.run_at cfg C_db.

Lemma run_at_eq f : onset_body cfg C_db f [] = run_at f.
Proof. reflexivity. Qed.

Lemma peaks_loop_acc peaks heights f todo notes :
  peaks_loop cfg C_db peaks heights f todo notes
  = (run <- peaks_loop cfg C_db peaks heights f todo [] ;; Ok (notes ++ run)).
Proof.
  revert notes; induction todo as [|p todo IH]; intros notes; simpl.
  - now rewrite app_nil_r.
  - destruct (note_of_peak cfg C_db peaks heights f p) as [n|e]; simpl;
      [|reflexivity].
    rewrite (IH (notes ++ [n])), (IH [n]).
    destruct (peaks_loop cfg C_db peaks heights f todo []) as [run|e]; simpl;
      [|reflexivity].
    now rewrite <- app_assoc.
Qed.

Lemma peaks_loop_run peaks heights f todo run :
  peaks_loop cfg C_db peaks heights f todo [] = Ok run ->
  Forall2 (fun p n => note_of_peak cfg C_db peaks heights f p = Ok n) todo run.
Proof.
  revert run; induction todo as [|p todo IH]; intros run; simpl.
  - intros [= <-]. constructor.
  - intros H. apply bind_Ok_inv in H. destruct H as (n & Hn & H).
    rewrite peaks_loop_acc in H. apply bind_Ok_inv in H.
    destruct H as (run' & Hrun & [= <-]). constructor; auto.
Qed.

Lemma onset_body_acc f notes :
  onset_body cfg C_db f notes = (run <- run_at f ;; Ok (notes ++ run)).
Proof.
  unfold run_at, Transcriber.run_at, onset_body.
  destruct (f <? Z.of_nat (shape1 C_db))%Z; simpl;
    [|now rewrite app_nil_r].
  destruct (column C_db f) as [spectrum|e]; simpl; [|reflexivity].
  destruct (Scipy.find_peaks spectrum (-40) 2) as [peaks heights].
  apply peaks_loop_acc.
Qed.

Lemma onsets_loop_acc fs notes :
  onsets_loop cfg C_db fs notes
  = (rest <- candidates cfg C_db fs ;; Ok (notes ++ rest)).
Proof.
  unfold candidates. revert notes; induction fs as [|f fs IH]; intros notes;
    simpl.
  - now rewrite app_nil_r.
  - rewrite (onset_body_acc f notes), run_at_eq.
    destruct (run_at f) as [run|e]; simpl; [|reflexivity].
    rewrite (IH (notes ++ run)), (IH run).
    destruct (onsets_loop cfg C_db fs []) as [rest|e]; simpl; [|reflexivity].
    now rewrite <- app_assoc.
Qed.

Lemma candidates_cons f fs :
  candidates cfg C_db (f :: fs)
  = (run <- run_at f ;; rest <- candidates cfg C_db fs ;; Ok (run ++ rest)).
Proof.
  unfold candidates at 1. simpl. rewrite run_at_eq.
  destruct (run_at f) as [run|e]; simpl; [|reflexivity].
  apply onsets_loop_acc.
Qed.

Lemma candidates_runs fs notes :
  candidates cfg C_db fs = Ok notes ->
  exists runs,
    Forall2 (fun f run => run_at f = Ok run) fs runs /\ notes = concat runs.
Proof.
  revert notes; induction fs as [|f fs IH]; intros notes.
  - intros [= <-]. exists []. split; [constructor|reflexivity].
  - rewrite candidates_cons. intros H.
    apply bind_Ok_inv in H. destruct H as (run & Hrun & H).
    apply bind_Ok_inv in H. destruct H as (rest & Hrest & [= <-]).
    destruct (IH _ Hrest) as (runs & Hruns & ->).
    exists (run :: runs). split; [constructor; assumption|reflexivity].
Qed.

Lemma note_of_peak_fields peaks heights f p n :
  note_of_peak cfg C_db peaks heights f p = Ok n ->
  pitch_midi n = (21 + Z.of_nat p)%Z
  /\ onset_time_s n = frames_to_time cfg f
  /\ exists off,
       estimate_offset cfg C_db p f = Ok off
       /\ offset_time_s n = frames_to_time cfg off.
Proof.
  unfold note_of_peak. intros H. apply bind_Ok_inv in H.
  destruct H as (off & Hoff & [= <-]). simpl. eauto.
Qed.

(** [f] is skipped by the guard of line 53. *)
Lemma run_at_skipped f : (n_frames <= f)%Z -> run_at f = Ok [].
Proof.
  intros H. unfold run_at, Transcriber.run_at, n_frames in *. unfold onset_body.
  destruct (Z.ltb_spec f (Z.of_nat (shape1 C_db))); [lia|reflexivity].
Qed.

Lemma run_at_raise f : (f < - n_frames)%Z -> run_at f = Raise IndexError.
Proof.
  intros H. unfold run_at, Transcriber.run_at, n_frames in *. unfold onset_body.
  destruct (Z.ltb_spec f (Z.of_nat (shape1 C_db))); [|lia].
  unfold column. now rewrite norm_index_raise.
Qed.

Lemma peaks_loop_total peaks heights f todo :
  Forall (fun p => (p < shape0 C_db)%nat) todo -> (- n_frames <= f)%Z ->
  exists run, peaks_loop cfg C_db peaks heights f todo [] = Ok run.
Proof.
  intros Htodo Hf. induction Htodo as [|p todo Hp _ IH]; simpl; [eauto|].
  unfold note_of_peak.
  destruct (@estimate_offset_total cfg C_db p f Hp Hf) as (off & ->). simpl.
  rewrite peaks_loop_acc. destruct IH as (run & ->). simpl. eauto.
Qed.

Lemma run_at_total f : (- n_frames <= f)%Z -> exists run, run_at f = Ok run.
Proof.
  intros Hf. destruct (Z.le_gt_cases n_frames f) as [Hge|Hlt].
  - rewrite run_at_skipped by assumption. eauto.
  - unfold run_at, Transcriber.run_at, n_frames in *. unfold onset_body.
    destruct (Z.ltb_spec f (Z.of_nat (shape1 C_db))); [|lia].
    unfold column.
    destruct (@norm_index_ok (shape1 C_db) f) as (j & -> & Hj); [lia|].
    cbn [bind].
    set (spectrum := map (fun i => data C_db i j) (seq 0 (shape0 C_db))).
    pose proof (find_peaks_facts spectrum (-40) 2) as Hfacts.
    destruct (Scipy.find_peaks spectrum (-40) 2) as [peaks heights].
    destruct Hfacts as (_ & Hrange & _).
    apply peaks_loop_total; [|assumption].
    eapply Forall_impl; [|exact Hrange]. cbv beta. intros p Hp.
    subst spectrum. rewrite length_map, length_seq in Hp. lia.
Qed.

Lemma candidates_total fs :
  (exists notes, candidates cfg C_db fs = Ok notes)
  <-> Forall (fun f => (- n_frames <= f)%Z) fs.
Proof.
  induction fs as [|f fs IH].
  - split; [constructor|]. intros _. exists []. reflexivity.
  - rewrite candidates_cons. split.
    + intros (notes & H). apply bind_Ok_inv in H. destruct H as (run & Hrun & H).
      apply bind_Ok_inv in H. destruct H as (rest & Hrest & _).
      constructor; [|apply IH; eauto].
      destruct (Z.le_gt_cases (- n_frames) f) as [|Hlt]; [assumption|].
      rewrite run_at_raise in Hrun by assumption. discriminate.
    + intros H. inversion H as [|? ? Hf Hfs]; subst.
      destruct (run_at_total Hf) as (run & ->).
      apply IH in Hfs. destruct Hfs as (rest & ->). simpl. eauto.
Qed.

Lemma candidates_raise fs :
  Exists (fun f => (f < - n_frames)%Z) fs ->
  candidates cfg C_db fs = Raise IndexError.
Proof.
  induction fs as [|f fs IH]; intros H; [inversion H|].
  rewrite candidates_cons.
  destruct (Z.le_gt_cases (- n_frames) f) as [Hf|Hf].
  - destruct (run_at_total Hf) as (run & ->). simpl.
    inversion H as [? ? Hbad|? ? Hbad]; subst; [lia|].
    now rewrite IH.
  - now rewrite run_at_raise.
Qed.

Lemma Forall2_transfer {A B : Type} (R : A -> B -> Prop)
  (P : A -> Prop) (Q : B -> Prop) (l : list A) (l' : list B) :
  (forall a b, R a b -> P a -> Q b) ->
  Forall2 R l l' -> Forall P l -> Forall Q l'.
Proof.
  intros HR H; induction H as [|a b l l' Hab _ IH]; intros HP;
    [constructor|].
  inversion HP; subst. constructor; eauto.
Qed.

Lemma Forall2_sorted {A B : Type} (R : A -> B -> Prop)
  (lt_a : A -> A -> Prop) (lt_b : B -> B -> Prop)
  (l : list A) (l' : list B) :
  (forall a b a' b', R a b -> R a' b' -> lt_a a a' -> lt_b b b') ->
  Forall2 R l l' -> StronglySorted lt_a l -> StronglySorted lt_b l'.
Proof.
  intros HR H; induction H as [|a b l l' Hab Hll IH]; intros Hs;
    [constructor|].
  inversion Hs as [|? ? Hs' Hall]; subst. constructor; [auto|].
  clear IH Hs Hs'. induction Hll as [|a' b' l l' Ha'b' _ IH];
    [constructor|].
  inversion Hall; subst. constructor; eauto.
Qed.

(** The notes of one onset frame: all at the frame's time, one per
    peak in ascending pitch, none ending before it starts. *)
Lemma run_at_facts f run :
  run_at f = Ok run ->
  Forall (fun n =>
            onset_time_s n = frames_to_time cfg f
            /\ onset_time_s n <= offset_time_s n
            /\ ((1 <= half)%Z -> onset_time_s n < offset_time_s n)) run
  /\ StronglySorted pitch_lt run.
Proof.
  unfold run_at, Transcriber.run_at, onset_body.
  destruct (f <? Z.of_nat (shape1 C_db))%Z;
    [|intros [= <-]; split; constructor].
  intros H. apply bind_Ok_inv in H. destruct H as (spectrum & _ & H).
  pose proof (find_peaks_facts spectrum (-40) 2) as Hfacts.
  destruct (Scipy.find_peaks spectrum (-40) 2) as [peaks heights].
  destruct Hfacts as (Hsorted & _).
  apply peaks_loop_run in H. split.
  - eapply Forall2_transfer with (P := fun _ => True); [|exact H|].
    + intros p n Hn _. apply note_of_peak_fields in Hn.
      destruct Hn as (_ & Hon & off & Hoff & Hofft).
      apply estimate_offset_after in Hoff. destruct Hoff as [Hle Hlt].
      rewrite Hon, Hofft. split; [reflexivity|]. split.
      * now apply frames_to_time_le.
      * intros Hh. apply frames_to_time_lt. auto.
    + apply Forall_forall. auto.
  - eapply Forall2_sorted; [|exact H|exact Hsorted].
    intros p n p' n' Hn Hn' Hlt.
    apply note_of_peak_fields in Hn, Hn'.
    destruct Hn as (Hp & _), Hn' as (Hp' & _).
    unfold pitch_lt. rewrite Hp, Hp'. lia.
Qed.

End CandidateFacts.

(** ** The stable sort by onset time *)

Section SortFacts.
Import Transcriber.

Lemma insert_perm n l : Permutation (n :: l) (insert n l).
Proof.
  induction l as [|m l IH]; simpl; [reflexivity|].
  destruct (Qle_bool (onset_time_s n) (onset_time_s m)); [reflexivity|].
  rewrite perm_swap. now apply perm_skip.
Qed.

Lemma sort_by_onset_perm l : Permutation l (sort_by_onset l).
Proof.
  induction l as [|n l IH]; simpl; [reflexivity|].
  rewrite <- insert_perm. now apply perm_skip.
Qed.

Lemma insert_sorted n l :
  StronglySorted onset_le l -> StronglySorted onset_le (insert n l).
Proof.
  induction 1 as [|m l Hs IH Hall]; simpl.
  - repeat constructor.
  - destruct (Qle_bool (onset_time_s n) (onset_time_s m)) eqn:E.
    + apply Qle_bool_iff in E.
      constructor; [now constructor|].
      constructor; [exact E|].
      eapply Forall_impl; [|exact Hall]. unfold onset_le. intros k Hk.
      eapply Qle_trans; eassumption.
    + apply Qle_bool_gt in E. constructor; [assumption|].
      apply (Permutation_Forall (insert_perm n l)).
      constructor; [|assumption]. now apply Qlt_le_weak.
Qed.

Lemma sort_by_onset_sorted l : StronglySorted onset_le (sort_by_onset l).
Proof.
  induction l as [|n l IH]; simpl; [constructor|now apply insert_sorted].
Qed.

(** Stability: the notes of any one onset time come out in the order
    they went in. *)
Lemma insert_stable t n l :
  let at_t := fun m : note => Qeq_bool (onset_time_s m) t in
  filter at_t (insert n l) = filter at_t (n :: l).
Proof.
  intros at_t. induction l as [|m l IH]; [reflexivity|].
  cbn [insert].
  destruct (Qle_bool (onset_time_s n) (onset_time_s m)) eqn:E;
    [reflexivity|].
  apply Qle_bool_gt in E.
  cbn [filter] in *. rewrite IH.
  destruct (at_t n) eqn:En; [|reflexivity].
  destruct (at_t m) eqn:Em; [|reflexivity].
  exfalso. subst at_t. cbv beta in *.
  apply Qeq_bool_iff in En, Em. rewrite En, Em in E.
  now apply Qlt_irrefl in E.
Qed.

Lemma sort_by_onset_stable t l :
  let at_t := fun m : note => Qeq_bool (onset_time_s m) t in
  filter at_t (sort_by_onset l) = filter at_t l.
Proof.
  intros at_t. induction l as [|n l IH]; [reflexivity|].
  cbn [sort_by_onset fold_right].
  fold (sort_by_onset l). subst at_t. rewrite insert_stable.
  cbn [filter]. now rewrite IH.
Qed.

Lemma sort_by_onset_sorted_id l :
  StronglySorted onset_le l -> sort_by_onset l = l.
Proof.
  induction 1 as [|n l Hs IH Hall]; [reflexivity|].
  cbn [sort_by_onset fold_right]. fold (sort_by_onset l). rewrite IH.
  destruct l as [|m l]; [reflexivity|]. simpl.
  inversion Hall as [|? ? Hnm _]; subst. unfold onset_le in Hnm.
  apply Qle_bool_iff in Hnm. now rewrite Hnm.
Qed.

End SortFacts.

(** ** The overlap filter *)

Section FilterFacts.
Import Transcriber.

Lemma overlaps_spec e n :
  overlaps e n = true <->
  pitch_midi e = pitch_midi n
  /\ onset_time_s e <= onset_time_s n /\ onset_time_s n < offset_time_s e.
Proof.
  unfold overlaps.
  rewrite !andb_true_iff, Z.eqb_eq, Qle_bool_iff, Qltb_lt. reflexivity.
Qed.

Lemma overlap_spec kept n :
  overlap kept n = true <->
  exists e, In e kept /\ pitch_midi e = pitch_midi n
            /\ onset_time_s e <= onset_time_s n
            /\ onset_time_s n < offset_time_s e.
Proof.
  induction kept as [|e kept IH]; simpl.
  - split; [discriminate|intros (? & [] & _)].
  - destruct (overlaps e n) eqn:E.
    + split; [intros _|reflexivity].
      exists e. split; [now left|now apply overlaps_spec].
    + rewrite IH. split.
      * intros (e' & Hin & H). exists e'. split; [now right|assumption].
      * intros (e' & [<-|Hin] & H).
        -- apply overlaps_spec in H. congruence.
        -- exists e'. split; assumption.
Qed.

Lemma overlap_app kept more n :
  overlap kept n = true -> overlap (kept ++ more) n = true.
Proof.
  rewrite !overlap_spec. intros (e & Hin & H).
  exists e. split; [apply in_or_app; now left|assumption].
Qed.

Lemma overlap_filter_snoc notes n :
  overlap_filter (notes ++ [n])
  = if overlap (overlap_filter notes) n then overlap_filter notes
    else overlap_filter notes ++ [n].
Proof. unfold overlap_filter. now rewrite fold_left_app. Qed.

Lemma filter_loop_incl rest kept x :
  In x (fold_left filter_step rest kept) -> In x kept \/ In x rest.
Proof.
  revert kept; induction rest as [|n rest IH]; intros kept; simpl;
    [now left|].
  intros H. apply IH in H. destruct H as [H|H]; [|now right; right].
  unfold filter_step in H. destruct (overlap kept n); [now left|].
  apply in_app_or in H. destruct H as [H|[<-|[]]]; [now left|right; now left].
Qed.

Lemma overlap_filter_incl notes x : In x (overlap_filter notes) -> In x notes.
Proof.
  intros H. apply filter_loop_incl in H. destruct H as [[]|H]. exact H.
Qed.

Lemma sorted_before {A : Type} (R : A -> A -> Prop) l1 x l2 :
  StronglySorted R (l1 ++ x :: l2) -> Forall (fun k => R k x) l1.
Proof.
  induction l1 as [|k l1 IH]; simpl; intros H; [constructor|].
  inversion H as [|? ? Hs Hall]; subst. constructor; [|auto].
  rewrite Forall_forall in Hall. apply Hall. apply in_or_app. right. now left.
Qed.

Lemma sorted_after {A : Type} (R : A -> A -> Prop) l1 x l2 :
  StronglySorted R (l1 ++ x :: l2) -> Forall (R x) l2.
Proof.
  induction l1 as [|k l1 IH]; simpl; intros H;
    inversion H as [|? ? Hs Hall]; subst; auto.
Qed.

Lemma sorted_snoc {A : Type} (R : A -> A -> Prop) l x :
  StronglySorted R l -> Forall (fun k => R k x) l ->
  StronglySorted R (l ++ [x]).
Proof.
  induction 1 as [|k l Hs IH Hall]; simpl; intros Hx.
  - repeat constructor.
  - inversion Hx; subst. constructor; [auto|].
    apply Forall_app. split; [assumption|]. now constructor.
Qed.

Lemma ordpairs_snoc {A : Type} (R : A -> A -> Prop) l x :
  ForallOrdPairs R l -> Forall (fun k => R k x) l ->
  ForallOrdPairs R (l ++ [x]).
Proof.
  induction 1 as [|k l Hall Hp IH]; simpl; intros Hx.
  - repeat constructor.
  - inversion Hx; subst. constructor; [|auto].
    apply Forall_app. split; [assumption|]. now constructor.
Qed.

(** No point of time lies in the intervals of two notes when the second
    starts at or after the end of the first. *)
Lemma disjoint_after e n :
  offset_time_s e <= onset_time_s n -> ~ intervals_overlap e n.
Proof.
  intros H (t & [_ Ht] & [Ht' _]).
  apply (Qlt_irrefl t). eapply Qlt_le_trans; [exact Ht|].
  eapply Qle_trans; eassumption.
Qed.

Lemma filter_loop_apart rest :
  forall pre kept,
    StronglySorted onset_le (pre ++ rest) ->
    incl kept pre ->
    ForallOrdPairs apart kept ->
    ForallOrdPairs apart (fold_left filter_step rest kept).
Proof.
  induction rest as [|n rest IH]; intros pre kept Hs Hincl Hkept; simpl;
    [assumption|].
  apply (IH (pre ++ [n])).
  - now rewrite <- app_assoc.
  - unfold filter_step. destruct (overlap kept n).
    + intros k Hk. apply in_or_app. left. auto.
    + intros k Hk. apply in_app_or in Hk. apply in_or_app.
      destruct Hk as [Hk|Hk]; [left; auto|now right].
  - unfold filter_step. destruct (overlap kept n) eqn:E; [assumption|].
    apply ordpairs_snoc; [assumption|].
    apply sorted_before in Hs. rewrite Forall_forall in Hs |- *.
    intros k Hk Hpitch. specialize (Hs k (Hincl k Hk)). unfold onset_le in Hs.
    apply disjoint_after.
    destruct (Qlt_le_dec (onset_time_s n) (offset_time_s k)) as [Hlt|Hge];
      [|assumption].
    exfalso. assert (overlap kept n = true); [|congruence].
    apply overlap_spec. exists k. auto.
Qed.

Lemma overlap_filter_apart notes :
  StronglySorted onset_le notes -> ForallOrdPairs apart (overlap_filter notes).
Proof.
  intros Hs. unfold overlap_filter.
  apply filter_loop_apart with (pre := []).
  - exact Hs.
  - intros k [].
  - constructor.
Qed.

Lemma filter_loop_sorted notes :
  StronglySorted onset_le notes -> tidy notes ->
  forall rest pre kept,
    notes = pre ++ rest ->
    incl kept pre ->
    (forall z, In z pre -> onset_time_s z < offset_time_s z ->
               overlap kept z = true) ->
    StronglySorted onset_pitch_lt kept ->
    StronglySorted onset_pitch_lt (fold_left filter_step rest kept).
Proof.
  intros Hs Htidy.
  induction rest as [|n rest IH]; intros pre kept E Hincl Hcov Hkept; simpl;
    [assumption|].
  apply (IH (pre ++ [n])).
  - now rewrite <- app_assoc.
  - unfold filter_step. destruct (overlap kept n).
    + intros k Hk. apply in_or_app. left. auto.
    + intros k Hk. apply in_app_or in Hk. apply in_or_app.
      destruct Hk as [Hk|Hk]; [left; auto|now right].
  - intros z Hz Hpos. unfold filter_step. apply in_app_or in Hz.
    destruct (overlap kept n) eqn:Eo.
    + destruct Hz as [Hz|[<-|[]]]; auto.
    + destruct Hz as [Hz|[<-|[]]]; [apply overlap_app; auto|].
      apply overlap_spec. exists n.
      split; [apply in_or_app; right; now left|].
      split; [reflexivity|]. split; [apply Qle_refl|assumption].
  - unfold filter_step. destruct (overlap kept n) eqn:Eo; [assumption|].
    apply sorted_snoc; [assumption|].
    rewrite E in Hs. apply sorted_before in Hs.
    rewrite Forall_forall in Hs |- *. intros k Hk.
    pose proof (Hs k (Hincl k Hk)) as Hle. unfold onset_le in Hle.
    apply Qle_lt_or_eq in Hle. destruct Hle as [Hlt|Heq]; [now left|].
    right. split; [assumption|].
    destruct (in_split _ _ (Hincl k Hk)) as (l1 & l2 & Epre).
    destruct (Htidy l1 k (l2 ++ n :: rest) n) as [Hp|[Hin Hpos]].
    + rewrite E, Epre, <- app_assoc. reflexivity.
    + apply in_or_app. right. now left.
    + assumption.
    + exact Hp.
    + exfalso. assert (overlap kept n = true); [|congruence].
      apply Hcov; [|assumption]. rewrite Epre.
      apply in_app_or in Hin. apply in_or_app.
      destruct Hin as [Hin|[<-|[]]]; [now left|right; now left].
Qed.

Lemma overlap_filter_sorted notes :
  StronglySorted onset_le notes -> tidy notes ->
  StronglySorted onset_pitch_lt (overlap_filter notes).
Proof.
  intros Hs Ht.
  unfold overlap_filter.
  apply filter_loop_sorted with (notes := notes) (pre := []).
  - assumption.
  - assumption.
  - reflexivity.
  - intros k [].
  - intros z [].
  - constructor.
Qed.

End FilterFacts.

(** ** Repeated onset frames *)

Lemma filter_all {A : Type} (p : A -> bool) (l : list A) :
  Forall (fun x => p x = true) l -> filter p l = l.
Proof.
  induction 1 as [|x l Hx _ IH]; simpl; [reflexivity|].
  now rewrite Hx, IH.
Qed.

Lemma filter_none {A : Type} (p : A -> bool) (l : list A) :
  Forall (fun x => p x = false) l -> filter p l = [].
Proof.
  induction 1 as [|x l Hx _ IH]; simpl; [reflexivity|].
  now rewrite Hx.
Qed.

Lemma Forall2_In_r {A B : Type} (R : A -> B -> Prop) l l' b :
  Forall2 R l l' -> In b l' -> exists a, In a l /\ R a b.
Proof.
  induction 1 as [|a b' l l' Hab _ IH]; simpl; [intros []|].
  intros [<-|H].
  - exists a. split; [now left|assumption].
  - destruct (IH H) as (a' & Ha' & HR). exists a'. split; [now right|assumption].
Qed.

Lemma In_concat_repeat {A : Type} (l : list A) m x :
  In x (concat (repeat l m)) -> In x l /\ (1 <= m)%nat.
Proof.
  induction m as [|m IH]; simpl; [intros []|].
  intros H. apply in_app_or in H. destruct H as [H|H].
  - split; [assumption|lia].
  - split; [now apply IH|lia].
Qed.

Section RepeatFacts.
Import Numpy Transcriber.

(** A list of copies of one pitch-ascending run: a note that follows
    another has a higher pitch or has occurred by then, in an earlier
    copy. *)
Lemma repeat_tidy run0 :
  StronglySorted pitch_lt run0 ->
  forall m a k b x,
    concat (repeat run0 m) = a ++ k :: b -> In x b ->
    pitch_lt k x \/ (In x (a ++ [k]) /\ (2 <= m)%nat).
Proof.
  intros Hs. induction m as [|m IH]; intros a k b x E Hx; simpl in E.
  - destruct a; discriminate.
  - apply app_eq_app in E. destruct E as (l & [[E1 E2]|[E1 E2]]).
    + destruct l as [|k' l]; simpl in E2.
      * destruct (IH [] k b x) as [H|[H Hm]]; [now symmetry|assumption| |].
        -- now left.
        -- right. split; [|lia]. apply in_or_app. now right.
      * injection E2 as <- ->.
        apply in_app_or in Hx. destruct Hx as [Hx|Hx].
        -- left. rewrite E1 in Hs. apply sorted_after in Hs.
           rewrite Forall_forall in Hs. now apply Hs.
        -- apply In_concat_repeat in Hx. destruct Hx as [Hx Hm].
           rewrite E1 in Hx. apply in_app_or in Hx.
           destruct Hx as [Hx|[<-|Hx]].
           ++ right. split; [apply in_or_app; now left|lia].
           ++ right. split; [apply in_or_app; right; now left|lia].
           ++ left. rewrite E1 in Hs. apply sorted_after in Hs.
              rewrite Forall_forall in Hs. now apply Hs.
    + destruct (IH l k b x) as [H|[H Hm]]; [assumption|assumption| |].
      * now left.
      * right. split; [|lia]. rewrite E1, <- app_assoc.
        apply in_or_app. now right.
Qed.

Variable cfg : config.
Variable C_db : ndarray2.

Lemma runs_at_time fs runs f0 run0 :
  Forall2 (fun f run => run_at cfg C_db f = Ok run) fs runs ->
  run_at cfg C_db f0 = Ok run0 ->
  filter (fun m => Qeq_bool (onset_time_s m) (frames_to_time cfg f0))
         (concat runs)
  = concat (repeat run0 (count_occ Z.eq_dec fs f0)).
Proof.
  intros H H0. induction H as [|f run fs runs Hrun _ IH]; [reflexivity|].
  cbn [concat]. rewrite filter_app, IH. cbn [count_occ].
  pose proof (run_at_facts _ _ _ Hrun) as [Hon _].
  destruct (Z.eq_dec f f0) as [->|Hne].
  - cbn [repeat concat]. f_equal.
    assert (run = run0) as -> by congruence.
    apply filter_all. eapply Forall_impl; [|exact Hon]. cbv beta.
    intros n (-> & _). apply Qeq_bool_iff. reflexivity.
  - rewrite filter_none; [reflexivity|].
    eapply Forall_impl; [|exact Hon]. cbv beta. intros n (-> & _).
    destruct (Qeq_bool _ _) eqn:E; [|reflexivity].
    apply Qeq_bool_iff, frames_to_time_inj in E. contradiction.
Qed.

(** The sorted candidates are [tidy] when no onset frame is given twice,
    and also when the half-second default spans at least one frame. *)
Lemma sorted_candidates_tidy fs notes :
  candidates cfg C_db fs = Ok notes ->
  NoDup fs \/ (1 <= py_int (frame_rate cfg * (1 # 2)))%Z ->
  tidy (sort_by_onset notes).
Proof.
  intros Hc Hcase l1 k l2 x E Hx Heq.
  apply candidates_runs in Hc. destruct Hc as (runs & Hruns & ->).
  assert (Hin : In x (concat runs)).
  { apply (Permutation_in _ (Permutation_sym (sort_by_onset_perm _))).
    rewrite E. apply in_or_app. right. now right. }
  apply in_concat in Hin. destruct Hin as (run0 & Hrun0 & Hx0).
  destruct (Forall2_In_r _ Hruns Hrun0) as (f0 & Hf0 & Hat).
  pose proof (run_at_facts _ _ _ Hat) as [Hon Hsorted].
  rewrite Forall_forall in Hon. destruct (Hon x Hx0) as (Hxt & _ & Hpos).
  pose proof (@runs_at_time fs runs f0 run0 Hruns Hat) as Hfilter.
  rewrite <- (sort_by_onset_stable (frames_to_time cfg f0)) in Hfilter.
  cbv zeta in Hfilter. rewrite E, filter_app in Hfilter. cbn [filter] in Hfilter.
  assert (Ek : Qeq_bool (onset_time_s k) (frames_to_time cfg f0) = true)
    by (apply Qeq_bool_iff; now rewrite Heq, Hxt).
  rewrite Ek in Hfilter. symmetry in Hfilter.
  eapply repeat_tidy with (x := x) in Hfilter; [|exact Hsorted|].
  - destruct Hfilter as [Hlt|[Hin Hm]]; [now left|right].
    split.
    + apply in_app_or in Hin. apply in_or_app.
      destruct Hin as [Hin|Hin]; [left|now right].
      apply filter_In in Hin. tauto.
    + destruct Hcase as [Hnd|Hhalf]; [|auto].
      exfalso. rewrite (NoDup_count_occ Z.eq_dec) in Hnd.
      specialize (Hnd f0). lia.
  - apply filter_In. split; [assumption|].
    apply Qeq_bool_iff. now rewrite Hxt.
Qed.

End RepeatFacts.

(** * The agreement scorer *)

Section AgreementClaims.
Import Agreement.

(** C1. A note of the first list is counted iff some note of the second
    list is within one semitone and within 0.05 s of it, both bounds
    included (the onset bound is the code's: the float difference of the
    two onsets against the float 0.05); the scan of the second list stops
    at the first such note; nothing is removed from the second list, so
    one of its notes may serve several notes of the first; [matches] is
    the number of notes of the first list that have a partner.  Two notes
    a semitone apart with onsets 0.0 and 0.05 sit on both limits and
    match. *)
Theorem C1_first_fit_matching (notes1 notes2 : list note) :
  (forall n1 m,
      inner_loop n1 notes2 m = (m + 1)%Z
      <-> exists n2, In n2 notes2 /\ tolerant n1 n2)
  /\ (forall n1 m,
         inner_loop n1 notes2 m
         = match first_fit n1 notes2 with
           | Some _ => (m + 1)%Z
           | None => m
           end)
  /\ (forall n1 n2,
         first_fit n1 notes2 = Some n2
         <-> exists before after,
               notes2 = before ++ n2 :: after
               /\ tolerant n1 n2
               /\ Forall (fun x => ~ tolerant n1 x) before)
  /\ count_matches notes1 notes2
     = Z.of_nat
         (length (filter (fun n1 => existsb (is_match n1) notes2) notes1))
  /\ (forall n1,
         existsb (is_match n1) notes2 = true
         <-> exists n2, In n2 notes2 /\ tolerant n1 n2)
  /\ (forall n1 n2,
         is_match n1 n2 = true
         <-> (Z.abs (pitch_midi n1 - pitch_midi n2) <= 1)%Z
             /\ Qabs (Float.fsub (onset_time_s n1) (onset_time_s n2))
                <= Float.double (5 # 100))
  /\ (forall n1 n2,
         Z.abs (pitch_midi n1 - pitch_midi n2) = 1%Z ->
         Qabs (Float.fsub (onset_time_s n1) (onset_time_s n2))
         == Float.double (5 # 100) ->
         is_match n1 n2 = true)
  /\ is_match (triple 60 0 1) (triple 61 (5 # 100) 1) = true
  /\ (forall n1 n2,
         (Z.abs (pitch_midi n1 - pitch_midi n2) <= 1)%Z ->
         Qabs (onset_time_s n1 - onset_time_s n2) <= 5 # 100 ->
         is_match n1 n2 = true)
  /\ (forall n1 n2,
         is_match n1 n2 = true ->
         Qabs (onset_time_s n1 - onset_time_s n2)
         < Float.double (5 # 100) + 2 ^ (-57))
  /\ (forall n1 n1' n2,
         tolerant n1 n2 -> tolerant n1' n2 ->
         count_matches [n1; n1'] [n2] = 2%Z).
Proof.
  split; [intros; apply counted_iff_partner|].
  split; [intros; apply inner_loop_first_fit|].
  split; [intros; apply first_fit_first|].
  split; [apply count_matches_filter|].
  split.
  - intros n1. rewrite existsb_exists. split.
    + intros (n2 & Hin & Hm). exists n2. now rewrite <- is_match_spec.
    + intros (n2 & Hin & Hm). exists n2. now rewrite is_match_spec.
  - split; [intros; apply is_match_spec|].
    split.
    { intros n1 n2 Hp Ht. apply is_match_spec. split; [lia|].
      rewrite Ht. apply Qle_refl. }
    split; [vm_compute; reflexivity|].
    split.
    { intros n1 n2 Hp Ht. apply is_match_spec. split; [exact Hp|].
      now apply fsub_tolerance. }
    split.
    { intros n1 n2 H. apply is_match_spec in H. destruct H as [_ H].
      now apply fsub_tolerance. }
    intros n1 n1' n2 H H'. apply is_match_spec in H, H'.
    unfold count_matches. simpl. now rewrite H, H'.
Qed.

Lemma C1_first_fit_matching_witness :
  count_matches [triple 60 0 1; triple 61 (5 # 100) 1] [triple 60 0 1] = 2%Z.
Proof.
  apply (C1_first_fit_matching [] []); split; vm_compute; intros H;
    discriminate H.
Defined.

(** C3. The agreement ratio is [matches / max(len(a), len(b))], and is 0
    when both lists are empty; the division is never by zero. *)
Theorem C3_agreement_ratio (notes1 notes2 : list note) :
  agreement notes1 notes2
  = Ok (if truthy notes1 || truthy notes2
        then inject_Z (count_matches notes1 notes2)
             / inject_Z (Z.max (len notes1) (len notes2))
        else 0)
  /\ (truthy notes1 || truthy notes2 = false
      <-> notes1 = [] /\ notes2 = [])
  /\ (Z.max (len notes1) (len notes2) = 0%Z
      <-> notes1 = [] /\ notes2 = [])
  /\ agreement [] [] = Ok 0.
Proof.
  split; [apply agreement_value|].
  split; [|split; [|reflexivity]].
  - destruct notes1, notes2; simpl; split; try discriminate; auto;
      intros [? ?]; discriminate.
  - unfold len.
    destruct notes1, notes2; simpl length; split; auto; try lia;
      intros [? ?]; discriminate.
Qed.

(** C7. The agreement ratio is not symmetric: on the crafted pair
    [a = [(60, 0.0, 0.5)]], [b = [(61, 0.02, 0.5), (60, 0.0, 0.5)]] the
    score of [a] against [b] is 1/2 (one match, total 2) and that of [b]
    against [a] is 1. *)
Theorem C7_agreement_asymmetry :
  count_matches crafted_a crafted_b = 1%Z
  /\ count_matches crafted_b crafted_a = 2%Z
  /\ exists ab ba,
       agreement crafted_a crafted_b = Ok ab
       /\ agreement crafted_b crafted_a = Ok ba
       /\ ab == 1 # 2 /\ ba == 1 /\ ~ ab == ba.
Proof.
  split; [vm_compute; reflexivity|]. split; [vm_compute; reflexivity|].
  exists (1 # 2), (2 # 2).
  split; [vm_compute; reflexivity|]. split; [vm_compute; reflexivity|].
  split; [reflexivity|]. split; [reflexivity|].
  intros H. discriminate H.
Qed.

Lemma unit_fraction (m d : Z) :
  (0 <= m <= d)%Z -> (0 < d)%Z -> 0 <= inject_Z m / inject_Z d <= 1.
Proof.
  intros Hm Hd.
  assert (Hd' : 0 < inject_Z d) by (rewrite <- (Zlt_Qlt 0); exact Hd).
  split.
  - apply Qle_shift_div_l; [exact Hd'|].
    rewrite Qmult_0_l, <- (Zle_Qle 0). lia.
  - apply Qle_shift_div_r; [exact Hd'|].
    rewrite Qmult_1_l, <- Zle_Qle. lia.
Qed.

(** C9. Every note of the first list adds at most one to the count:
    [0 <= matches <= len(a) <= max(len(a), len(b))], and the ratio lies
    between 0 and 1. *)
Theorem C9_agreement_bounds (notes1 notes2 : list note) :
  (0 <= count_matches notes1 notes2 <= len notes1)%Z
  /\ (len notes1 <= Z.max (len notes1) (len notes2))%Z
  /\ exists q, agreement notes1 notes2 = Ok q /\ 0 <= q <= 1.
Proof.
  pose proof (count_matches_bounds notes1 notes2) as Hb.
  split; [exact Hb|]. split; [lia|].
  rewrite agreement_value. eexists. split; [reflexivity|].
  destruct (truthy notes1 || truthy notes2) eqn:E.
  - apply unit_fraction; [lia|].
    unfold len. destruct notes1, notes2; simpl in E; try discriminate;
      simpl length; lia.
  - split; [apply Qle_refl|discriminate].
Qed.

End AgreementClaims.

(** * The note-event extractor *)

Section ExtractorFacts.
Import Numpy Transcriber.
Variable cfg : config.
Variable C_db : ndarray2.

Lemma transcribe_inv fs notes :
  transcribe cfg C_db fs = Ok notes ->
  exists cands,
    candidates cfg C_db fs = Ok cands
    /\ notes = overlap_filter (sort_by_onset cands).
Proof.
  unfold transcribe. intros H. apply bind_Ok_inv in H.
  destruct H as (cands & Hc & [= <-]). exists cands. split; [exact Hc|reflexivity].
Qed.

Lemma transcribe_candidates fs :
  transcribe cfg C_db fs
  = (cands <- candidates cfg C_db fs ;;
     Ok (overlap_filter (sort_by_onset cands))).
Proof. reflexivity. Qed.

Lemma candidates_durations fs cands :
  candidates cfg C_db fs = Ok cands ->
  Forall (fun n =>
            onset_time_s n <= offset_time_s n
            /\ ((1 <= py_int (frame_rate cfg * (1 # 2)))%Z ->
                onset_time_s n < offset_time_s n)) cands.
Proof.
  intros H. apply candidates_runs in H. destruct H as (runs & Hruns & ->).
  apply Forall_forall. intros n Hn. apply in_concat in Hn.
  destruct Hn as (run & Hrun & Hn).
  destruct (Forall2_In_r _ Hruns Hrun) as (f & _ & Hat).
  apply run_at_facts in Hat. destruct Hat as [Hall _].
  rewrite Forall_forall in Hall. destruct (Hall n Hn) as (_ & H1 & H2).
  split; assumption.
Qed.

Lemma kept_are_candidates (cands : list note) n :
  In n (overlap_filter (sort_by_onset cands)) -> In n cands.
Proof.
  intros H. apply overlap_filter_incl in H.
  apply (Permutation_in _ (Permutation_sym (sort_by_onset_perm cands))), H.
Qed.

(** The guard of line 53 drops the onset frames at or beyond the number
    of frames, and nothing else. *)
Lemma candidates_guard fs :
  candidates cfg C_db fs
  = candidates cfg C_db
      (filter (fun f => (f <? Z.of_nat (shape1 C_db))%Z) fs).
Proof.
  induction fs as [|f fs IH]; [reflexivity|].
  cbn [filter]. destruct (Z.ltb_spec f (Z.of_nat (shape1 C_db))) as [Hlt|Hge].
  - rewrite !candidates_cons, IH. reflexivity.
  - rewrite candidates_cons, run_at_skipped by assumption.
    rewrite <- IH. simpl. destruct (candidates cfg C_db fs); reflexivity.
Qed.

End ExtractorFacts.

Lemma ordpairs_weaken {A : Type} (R R' : A -> A -> Prop) (l : list A) :
  (forall a b, R a b -> R' a b) -> ForallOrdPairs R l -> ForallOrdPairs R' l.
Proof.
  intros HR. induction 1 as [|a l Hall _ IH]; constructor; [|assumption].
  eapply Forall_impl; [|exact Hall]. auto.
Qed.

Lemma intervals_overlap_sym (n m : note) :
  Transcriber.intervals_overlap n m -> Transcriber.intervals_overlap m n.
Proof. intros (t & Hn & Hm). exists t. split; assumption. Qed.

Section ExtractorClaims.
Import Numpy Scipy Transcriber.

(** C2. No two notes of a transcription have the same pitch and
    overlapping [[onset, offset)] intervals.  The filter runs over the
    candidates sorted by ascending onset time, and rejects the incoming
    candidate iff a note kept so far has its pitch and an interval that
    contains its onset time. *)
Theorem C2_overlap_invariant (cfg : config) (C_db : ndarray2)
  (onset_frames : list Z) (notes : list note) :
  transcribe cfg C_db onset_frames = Ok notes ->
  ForallOrdPairs
    (fun e n =>
       pitch_midi e = pitch_midi n ->
       ~ intervals_overlap e n /\ ~ intervals_overlap n e) notes
  /\ (exists cands,
         candidates cfg C_db onset_frames = Ok cands
         /\ Permutation cands (sort_by_onset cands)
         /\ StronglySorted onset_le (sort_by_onset cands)
         /\ notes = overlap_filter (sort_by_onset cands))
  /\ (forall seen n,
         overlap_filter (seen ++ [n])
         = if overlap (overlap_filter seen) n then overlap_filter seen
           else overlap_filter seen ++ [n])
  /\ (forall kept n,
         overlap kept n = true
         <-> exists e, In e kept /\ pitch_midi e = pitch_midi n
                       /\ onset_time_s e <= onset_time_s n
                       /\ onset_time_s n < offset_time_s e).
Proof.
  intros H. apply transcribe_inv in H. destruct H as (cands & Hc & ->).
  split; [|split; [|split]].
  - eapply ordpairs_weaken;
      [|apply overlap_filter_apart, sort_by_onset_sorted].
    intros e n Ha Hp. split; [auto|].
    intros Ho. apply (Ha Hp). now apply intervals_overlap_sym.
  - exists cands. split; [exact Hc|].
    split; [apply sort_by_onset_perm|].
    split; [apply sort_by_onset_sorted|reflexivity].
  - apply overlap_filter_snoc.
  - apply overlap_spec.
Qed.

Lemma C2_overlap_invariant_witness :
  exists notes,
    transcribe default legato [1; 0; 0]%Z = Ok notes
    /\ length notes = 2%nat
    /\ ForallOrdPairs
         (fun e n =>
            pitch_midi e = pitch_midi n ->
            ~ intervals_overlap e n /\ ~ intervals_overlap n e)
         notes.
Proof.
  eexists. split; [vm_compute; reflexivity|]. split; [reflexivity|].
  apply (@C2_overlap_invariant default legato [1; 0; 0]%Z).
  vm_compute. reflexivity.
Defined.

(** C6. A transcription is in ascending order of onset time, notes of
    equal onset time in ascending order of pitch; in particular the
    onset times never decrease.  The onset frames are those of the onset
    detector, none given twice; at the default frame rate (whenever the
    half-second default spans at least one frame) repeated onset frames
    are ordered just the same. *)
Theorem C6_ordering (cfg : config) (C_db : ndarray2)
  (onset_frames : list Z) (notes : list note) :
  transcribe cfg C_db onset_frames = Ok notes ->
  NoDup onset_frames \/ (1 <= py_int (frame_rate cfg * (1 # 2)))%Z ->
  StronglySorted onset_pitch_lt notes /\ StronglySorted onset_le notes.
Proof.
  intros H Hcase. apply transcribe_inv in H. destruct H as (cands & Hc & ->).
  assert (Hs : StronglySorted onset_pitch_lt
                 (overlap_filter (sort_by_onset cands))).
  { apply overlap_filter_sorted; [apply sort_by_onset_sorted|].
    eapply sorted_candidates_tidy; eassumption. }
  split; [exact Hs|].
  eapply sorted_weaken; [|exact Hs].
  unfold onset_pitch_lt, onset_le. intros a b [Hlt|[Heq _]].
  - now apply Qlt_le_weak.
  - rewrite Heq. apply Qle_refl.
Qed.

Lemma C6_ordering_witness :
  exists notes,
    transcribe default legato [1; 0; 0]%Z = Ok notes
    /\ map pitch_midi notes = [60; 66]%Z
    /\ StronglySorted onset_pitch_lt notes
    /\ StronglySorted onset_le notes.
Proof.
  eexists. split; [vm_compute; reflexivity|]. split; [reflexivity|].
  apply (@C6_ordering default legato [1; 0; 0]%Z).
  - vm_compute. reflexivity.
  - right. vm_compute. intros H. discriminate H.
Defined.

(** C10. With a half-second default of at least one frame, as at the
    default frame rate (21 frames), every offset frame is after its
    onset frame and every note of a transcription ends strictly after it
    starts. *)
Theorem C10_positive_duration (cfg : config) (C_db : ndarray2)
  (onset_frames : list Z) (notes : list note) :
  (1 <= py_int (frame_rate cfg * (1 # 2)))%Z ->
  transcribe cfg C_db onset_frames = Ok notes ->
  Forall (fun n => onset_time_s n < offset_time_s n) notes
  /\ (forall peak_idx onset_frame offset_frame,
         estimate_offset cfg C_db peak_idx onset_frame = Ok offset_frame ->
         (onset_frame + 1 <= offset_frame)%Z)
  /\ py_int (frame_rate default * (1 # 2)) = 21%Z.
Proof.
  intros Hh H. apply transcribe_inv in H. destruct H as (cands & Hc & ->).
  split; [|split; [|reflexivity]].
  - pose proof (candidates_durations _ _ _ Hc) as Hd.
    rewrite Forall_forall in Hd |- *. intros n Hn.
    apply kept_are_candidates in Hn.
    destruct (Hd n Hn) as [_ Hpos]. auto.
  - intros p f off Hoff. apply estimate_offset_after in Hoff.
    destruct Hoff as [_ Hlt]. specialize (Hlt Hh). lia.
Qed.

Lemma C10_positive_duration_witness :
  exists notes,
    transcribe default staccato [0; 5]%Z = Ok notes
    /\ map pitch_midi notes = [60]%Z
    /\ Forall (fun n => onset_time_s n < offset_time_s n) notes.
Proof.
  eexists. split; [vm_compute; reflexivity|]. split; [reflexivity|].
  apply (@C10_positive_duration default staccato [0; 5]%Z).
  - vm_compute. intros H. discriminate H.
  - vm_compute. reflexivity.
Defined.

End ExtractorClaims.

Section SegmenterClaims.
Import Numpy Scipy Transcriber.

(** C4, as the code has it.  The offset frame is the first frame of the
    scan window (from the frame after the onset, for [int(2 * frame_rate)]
    frames at most and within the spectrogram) whose magnitude at the
    peak's bin is below -50 dB, and the onset frame plus
    [int(0.5 * frame_rate)] when there is none.  It is never extended:
    the one lower bound on [offset_frame - onset_frame] is the smaller of
    1 and [int(0.5 * frame_rate)]. *)
Theorem C4_offset_estimate (cfg : config) (C_db : ndarray2)
  (peak_idx : nat) (onset_frame offset_frame : Z) :
  estimate_offset cfg C_db peak_idx onset_frame = Ok offset_frame ->
  let half := py_int (frame_rate cfg * (1 # 2)) in
  let stop := Z.min (onset_frame + py_int (frame_rate cfg * 2))
                    (Z.of_nat (shape1 C_db)) in
  ((offset_frame = (onset_frame + half)%Z
    /\ forall k, (onset_frame + 1 <= k < stop)%Z -> sustained C_db peak_idx k)
   \/ ((onset_frame + 1 <= offset_frame < stop)%Z
       /\ decayed C_db peak_idx offset_frame
       /\ forall k, (onset_frame + 1 <= k < offset_frame)%Z ->
                    sustained C_db peak_idx k))
  /\ (Z.min 1 half <= offset_frame - onset_frame)%Z.
Proof.
  intros H half stop. pose proof (half_nonneg cfg) as Hh.
  pose proof (estimate_offset_cases _ _ _ _ H) as Hc. cbv zeta in Hc.
  split; [exact Hc|].
  fold half in Hh. destruct Hc as [[-> _]|(Hr & _)]; lia.
Qed.

Lemma C4_offset_estimate_witness :
  (Z.min 1 (py_int (frame_rate default * (1 # 2))) <= 1 - 0)%Z.
Proof.
  apply (@C4_offset_estimate default staccato 39 0 1).
  vm_compute. reflexivity.
Defined.

(** C4 as stated fails: in [staccato] the note at bin 39 and frame 0 gets
    the offset frame 1, one frame (about 23 ms) after its onset, and no
    minimum duration of more than one frame holds of every candidate. *)
Lemma C4_counterexample :
  estimate_offset default staccato 39 0 = Ok 1%Z
  /\ ~ exists min_frames : Z,
         (1 < min_frames)%Z
         /\ forall C_db peak_idx onset_frame offset_frame,
              estimate_offset default C_db peak_idx onset_frame
              = Ok offset_frame ->
              (min_frames <= offset_frame - onset_frame)%Z.
Proof.
  assert (E : estimate_offset default staccato 39 0 = Ok 1%Z)
    by (vm_compute; reflexivity).
  split; [exact E|].
  intros (m & Hm & Hall). specialize (Hall _ _ _ _ E). lia.
Qed.

(** C8, as the code has it.  The peak picker returns its candidate bins
    in ascending order of bin index (not of magnitude), each strictly
    inside the column, of magnitude [height] at least, and paired with
    its magnitude; the result is empty when every bin is below [height].
    With [distance=2] the bins are exactly the local maxima that reach
    [height]. *)
Theorem C8_peak_order (x : list Q) (height : Q) (distance : nat) :
  StronglySorted lt (fst (find_peaks x height distance))
  /\ Forall (fun p => (1 <= p < length x - 1)%nat /\ height <= at1 x p)
       (fst (find_peaks x height distance))
  /\ snd (find_peaks x height distance)
     = map (at1 x) (fst (find_peaks x height distance))
  /\ ((forall i, (i < length x)%nat -> at1 x i < height) ->
      find_peaks x height distance = ([], []))
  /\ fst (find_peaks x height 2)
     = filter (fun p => Qle_bool height (at1 x p)) (local_maxima_1d x).
Proof.
  pose proof (find_peaks_facts x height distance) as H.
  destruct (find_peaks x height distance) as [peaks heights] eqn:E.
  destruct H as (Hs & Hr & Hh & Hv). cbn [fst snd].
  split; [exact Hs|]. split; [|split; [exact Hv|split]].
  - rewrite Forall_forall in Hr, Hh |- *. intros p Hp. split; auto.
  - intros Hlow. rewrite <- E. now apply find_peaks_silence.
  - now rewrite find_peaks_distance_two.
Qed.

Lemma C8_peak_order_witness :
  find_peaks [-80; -60; -80] (-40) 2 = ([], []).
Proof.
  apply (C8_peak_order [-80; -60; -80] (-40) 2).
  intros i Hi.
  destruct i as [|[|[|i]]]; [reflexivity|reflexivity|reflexivity|].
  simpl in Hi. lia.
Defined.

(** C8 as stated fails: a column with peaks of -30 dB at bin 1 and of
    -10 dB at bin 3 yields them in that order, the quieter first. *)
Lemma C8_counterexample :
  find_peaks [-80; -30; -80; -10; -80] (-40) 2 = ([1; 3]%nat, [-30; -10])
  /\ ~ StronglySorted (fun a b : Q => b <= a)
         (snd (find_peaks [-80; -30; -80; -10; -80] (-40) 2)).
Proof.
  assert (E : find_peaks [-80; -30; -80; -10; -80] (-40) 2
              = ([1; 3]%nat, [-30; -10])) by (vm_compute; reflexivity).
  split; [exact E|]. rewrite E. cbn [snd]. intros H.
  inversion H as [|? ? _ Hall]; subst.
  inversion Hall as [|? ? Hle _]; subst.
  revert Hle. unfold Qle. simpl. lia.
Qed.

End SegmenterClaims.

Section RangeClaims.
Import Numpy Transcriber.

(** C5, as the code has it.  An onset frame at or beyond the number of
    frames is skipped by the guard of line 53: it adds no note and
    raises nothing, and the transcription is that of the other onset
    frames.  An [IndexError] reaches the caller exactly when an onset
    frame lies below minus the number of frames. *)
Theorem C5_out_of_range_frames (cfg : config) (C_db : ndarray2)
  (onset_frames : list Z) :
  let n_frames := Z.of_nat (shape1 C_db) in
  transcribe cfg C_db onset_frames
  = transcribe cfg C_db (filter (fun f => (f <? n_frames)%Z) onset_frames)
  /\ ((exists notes, transcribe cfg C_db onset_frames = Ok notes)
      <-> Forall (fun f => (- n_frames <= f)%Z) onset_frames)
  /\ (transcribe cfg C_db onset_frames = Raise IndexError
      <-> Exists (fun f => (f < - n_frames)%Z) onset_frames).
Proof.
  intros n_frames. rewrite !transcribe_candidates.
  split; [now rewrite <- candidates_guard|].
  pose proof (candidates_total cfg C_db onset_frames) as Htot.
  cbv zeta in Htot. fold n_frames in Htot.
  split.
  - rewrite <- Htot. split.
    + intros (notes & H). apply bind_Ok_inv in H.
      destruct H as (cands & Hc & _). eauto.
    + intros (cands & ->). simpl. eauto.
  - split.
    + intros H.
      destruct (Exists_dec (fun f => (f < - n_frames)%Z) onset_frames)
        as [Hex|Hnex]; [intros f; apply Z_lt_dec|exact Hex|].
      exfalso.
      assert (Hall : Forall (fun f => (- n_frames <= f)%Z) onset_frames).
      { apply Forall_forall. intros f Hf.
        destruct (Z_lt_dec f (- n_frames)) as [Hlt|]; [|lia].
        exfalso. apply Hnex. apply Exists_exists. eauto. }
      apply Htot in Hall. destruct Hall as (cands & Hc).
      rewrite Hc in H. discriminate.
    + intros H. now rewrite candidates_raise.
Qed.

(** C5 as stated fails: with 3 frames, the onset frames [[0; 5]] give
    the transcription of [[0]], one note, and no error. *)
Lemma C5_counterexample :
  (Z.of_nat (shape1 staccato) <= 5)%Z
  /\ transcribe default staccato [0; 5]%Z = transcribe default staccato [0%Z]
  /\ (exists n, transcribe default staccato [0; 5]%Z = Ok [n])
  /\ ~ forall C_db onset_frames,
         (exists f, In f onset_frames
                    /\ (f < 0 \/ Z.of_nat (shape1 C_db) <= f)%Z) ->
         exists e, transcribe default C_db onset_frames = Raise e.
Proof.
  split; [vm_compute; discriminate|].
  split; [vm_compute; reflexivity|].
  assert (E : exists n, transcribe default staccato [0; 5]%Z = Ok [n])
    by (eexists; vm_compute; reflexivity).
  split; [exact E|].
  intros H. destruct E as (n & E).
  destruct (H staccato [0; 5]%Z) as (e & He).
  - exists 5%Z. split; [right; now left|right; vm_compute; discriminate].
  - rewrite E in He. discriminate.
Qed.

End RangeClaims.

(** * Further properties of the extractor *)

Section FilterLaws.
Import Transcriber.

Lemma filter_loop_prefix rest kept :
  exists more, fold_left filter_step rest kept = kept ++ more.
Proof.
  revert kept; induction rest as [|n rest IH]; intros kept; simpl.
  - exists []. now rewrite app_nil_r.
  - destruct (IH (filter_step kept n)) as (more & ->).
    unfold filter_step. destruct (overlap kept n); [eauto|].
    exists (n :: more). now rewrite <- app_assoc.
Qed.

Lemma filter_loop_fixed rest :
  forall kept,
    overlap_filter kept = kept ->
    overlap_filter (fold_left filter_step rest kept)
    = fold_left filter_step rest kept.
Proof.
  induction rest as [|n rest IH]; intros kept Hk; simpl; [exact Hk|].
  apply IH. unfold filter_step.
  destruct (overlap kept n) eqn:E; [exact Hk|].
  rewrite overlap_filter_snoc, Hk, E. reflexivity.
Qed.

Lemma filter_loop_length rest kept :
  (length (fold_left filter_step rest kept) <= length kept + length rest)%nat.
Proof.
  revert kept; induction rest as [|n rest IH]; intros kept; simpl; [lia|].
  specialize (IH (filter_step kept n)). unfold filter_step in *.
  destruct (overlap kept n); [lia|]. rewrite length_app in IH. simpl in IH.
  lia.
Qed.

Lemma filter_loop_covers rest :
  forall kept n,
    In n kept \/ overlap kept n = true \/ In n rest ->
    In n (fold_left filter_step rest kept)
    \/ overlap (fold_left filter_step rest kept) n = true.
Proof.
  induction rest as [|m rest IH]; intros kept n H; simpl.
  - destruct H as [H|[H|[]]]; auto.
  - apply IH. unfold filter_step.
    destruct (overlap kept m) eqn:E.
    + destruct H as [H|[H|[<-|H]]]; auto.
    + destruct H as [H|[H|[<-|H]]]; auto.
      * left. apply in_or_app. now left.
      * right; left. now apply overlap_app.
      * left. apply in_or_app. right. now left.
Qed.

(** X1. Filtering a second time changes nothing
    ([simple_transcriber.py:93-103]). *)
Theorem overlap_filter_idempotent (notes : list note) :
  overlap_filter (overlap_filter notes) = overlap_filter notes.
Proof. unfold overlap_filter at 2 3. now apply filter_loop_fixed. Qed.

(** X2. The filter only drops notes and keeps the first candidate; it
    drops a candidate only when a note it keeps has the candidate's
    pitch and an interval that contains the candidate's onset. *)
Theorem overlap_filter_accounts (notes : list note) (n : note) :
  (In n (overlap_filter notes) -> In n notes)
  /\ (In n notes ->
      In n (overlap_filter notes)
      \/ exists e, In e (overlap_filter notes)
                   /\ pitch_midi e = pitch_midi n
                   /\ onset_time_s e <= onset_time_s n
                   /\ onset_time_s n < offset_time_s e)
  /\ hd_error (overlap_filter (n :: notes)) = Some n
  /\ (length (overlap_filter notes) <= length notes)%nat.
Proof.
  split; [apply overlap_filter_incl|]. split; [|split].
  - intros H. rewrite <- overlap_spec. unfold overlap_filter.
    apply filter_loop_covers. auto.
  - unfold overlap_filter. simpl.
    destruct (filter_loop_prefix notes (filter_step [] n)) as (more & ->).
    reflexivity.
  - apply (filter_loop_length notes []).
Qed.

End FilterLaws.

Section NoteRanges.
Import Numpy Transcriber.

Lemma velocity_of_floor h :
  velocity_of h = Qfloor (Qmin 127 (Qmax 1 ((h + 60) * 2)))
  /\ 1 <= Qmin 127 (Qmax 1 ((h + 60) * 2)) <= 127.
Proof.
  assert (Hb : 1 <= Qmin 127 (Qmax 1 ((h + 60) * 2)) <= 127).
  { split; [|apply Q.le_min_l].
    apply Q.min_glb; [discriminate|apply Q.le_max_l]. }
  split; [|exact Hb]. unfold velocity_of, py_int.
  destruct (Qle_bool 0 _) eqn:E; [reflexivity|].
  apply Qle_bool_gt in E. exfalso. destruct Hb as [Hb _].
  apply (Qlt_irrefl 0). eapply Qlt_trans; [|exact E].
  eapply Qlt_le_trans; [|exact Hb]. reflexivity.
Qed.

Lemma velocity_of_bounds h :
  (velocity_of h <= 127)%Z /\ (-40 <= h -> (40 <= velocity_of h)%Z).
Proof.
  destruct (velocity_of_floor h) as [-> [Hlo Hhi]]. split.
  - apply Qfloor_resp_le in Hhi. exact Hhi.
  - intros Hh. apply (Qfloor_resp_le 40).
    apply Q.min_glb; [discriminate|].
    eapply Qle_trans; [|apply Q.le_max_r]. lra.
Qed.

(** X3. Line 67: the velocity is clamped to the MIDI range 1..127
    whatever the peak height, and grows with it; a peak of -40 dB or
    more gets 40 at least. *)
Theorem velocity_of_range (h h' : Q) :
  (1 <= velocity_of h <= 127)%Z
  /\ (h <= h' -> (velocity_of h <= velocity_of h')%Z)
  /\ (-40 <= h -> (40 <= velocity_of h)%Z)
  /\ (h <= - (119 # 2) -> velocity_of h = 1%Z)
  /\ (7 # 2 <= h -> velocity_of h = 127%Z).
Proof.
  destruct (velocity_of_floor h) as [-> [Hlo Hhi]].
  destruct (velocity_of_floor h') as [-> _].
  split; [|split; [|split; [|split]]].
  - split.
    + apply (Qfloor_resp_le 1) in Hlo. exact Hlo.
    + apply Qfloor_resp_le in Hhi. exact Hhi.
  - intros Hh. apply Qfloor_resp_le.
    apply Q.min_le_compat_l, Q.max_le_compat_l.
    apply Qmult_le_compat_r; [|discriminate].
    now apply Qplus_le_compat; [|apply Qle_refl].
  - intros Hh. apply (Qfloor_resp_le 40).
    apply Q.min_glb; [discriminate|].
    eapply Qle_trans; [|apply Q.le_max_r]. lra.
  - intros Hh.
    assert (E : Qmin 127 (Qmax 1 ((h + 60) * 2)) == 1).
    { rewrite Q.max_l by lra. apply Q.min_r. discriminate. }
    now rewrite E.
  - intros Hh.
    assert (E : Qmin 127 (Qmax 1 ((h + 60) * 2)) == 127).
    { apply Q.min_l. eapply Qle_trans; [|apply Q.le_max_r]. lra. }
    now rewrite E.
Qed.

Lemma index_nth {B : Type} (f : nat -> B) (d : B) peaks p :
  In p peaks -> nth (index peaks p) (map f peaks) d = f p.
Proof.
  induction peaks as [|q peaks IH]; simpl; [intros []|].
  destruct (Nat.eqb_spec q p) as [->|Hne]; [reflexivity|].
  intros [H|H]; [contradiction|auto].
Qed.

Lemma note_of_peak_dynamics cfg C_db peaks heights f p n :
  note_of_peak cfg C_db peaks heights f p = Ok n ->
  velocity n = velocity_of (nth (index peaks p) heights 0)
  /\ confidence n = 1 # 2.
Proof.
  unfold note_of_peak. intros H. apply bind_Ok_inv in H.
  destruct H as (off & _ & [= <-]). simpl. auto.
Qed.

Lemma Forall2_In_l {A B : Type} (R : A -> B -> Prop) l l' b :
  Forall2 R l l' -> In b l' -> exists a, In a l /\ R a b.
Proof. apply Forall2_In_r. Qed.

(** Every note of one onset frame comes from a peak of the column: a
    bin strictly inside it, of -40 dB at least. *)
Lemma run_at_peaks cfg C_db f run n :
  run_at cfg C_db f = Ok run -> In n run ->
  exists p h,
    (1 <= p < shape0 C_db - 1)%nat /\ -40 <= h
    /\ pitch_midi n = (21 + Z.of_nat p)%Z
    /\ velocity n = velocity_of h
    /\ confidence n = 1 # 2
    /\ onset_time_s n = frames_to_time cfg f
    /\ exists off,
         estimate_offset cfg C_db p f = Ok off
         /\ offset_time_s n = frames_to_time cfg off.
Proof.
  unfold run_at, onset_body.
  destruct (f <? Z.of_nat (shape1 C_db))%Z; [|intros [= <-] []].
  intros H Hn. apply bind_Ok_inv in H. destruct H as (spectrum & Hcol & H).
  unfold column in Hcol. apply bind_Ok_inv in Hcol.
  destruct Hcol as (j & _ & [= <-]).
  set (spectrum := map (fun i => data C_db i j) (seq 0 (shape0 C_db))) in *.
  pose proof (find_peaks_facts spectrum (-40) 2) as Hfacts.
  destruct (Scipy.find_peaks spectrum (-40) 2) as [peaks heights].
  destruct Hfacts as (_ & Hrange & Hheight & ->).
  apply peaks_loop_run in H.
  destruct (Forall2_In_l _ H Hn) as (p & Hp & Hnote).
  rewrite Forall_forall in Hrange, Hheight.
  exists p, (at1 spectrum p).
  pose proof (Hrange p Hp) as Hr. subst spectrum.
  rewrite length_map, length_seq in Hr.
  split; [exact Hr|]. split; [now apply Hheight|].
  pose proof (note_of_peak_dynamics _ _ _ _ _ _ Hnote) as [Hv Hc].
  rewrite index_nth in Hv by assumption.
  apply note_of_peak_fields in Hnote.
  destruct Hnote as (Hpitch & Hon & off & Hoff & Hofft).
  repeat split; try assumption. eauto.
Qed.

Lemma transcribe_Forall cfg C_db fs notes (P : note -> Prop) :
  (forall f run n, run_at cfg C_db f = Ok run -> In n run -> P n) ->
  transcribe cfg C_db fs = Ok notes -> Forall P notes.
Proof.
  intros HP H. apply transcribe_inv in H. destruct H as (cands & Hc & ->).
  apply Forall_forall. intros n Hn. apply kept_are_candidates in Hn.
  apply candidates_runs in Hc. destruct Hc as (runs & Hruns & ->).
  apply in_concat in Hn. destruct Hn as (run & Hrun & Hn).
  destruct (Forall2_In_r _ Hruns Hrun) as (f & _ & Hat). eauto.
Qed.

End NoteRanges.

Section TranscriptionRanges.
Import Numpy Transcriber.
Variable cfg : config.

Lemma frames_to_time_plus a d :
  frames_to_time cfg (a + d) == frames_to_time cfg a + frames_to_time cfg d.
Proof.
  unfold frames_to_time, Qeq, Qplus. cbn [Qnum Qden].
  rewrite Pos2Z.inj_mul. ring.
Qed.

Lemma two_frames_bound :
  (py_int (frame_rate cfg * 2) * Z.pos (hop_length cfg)
   <= 2 * Z.pos (sample_rate cfg))%Z.
Proof.
  unfold py_int.
  assert (Hpos : 0 <= frame_rate cfg * 2)
    by (unfold frame_rate, Qle; simpl; lia).
  apply Qle_bool_iff in Hpos. rewrite Hpos.
  pose proof (Qfloor_le (frame_rate cfg * 2)) as H.
  set (k := Qfloor (frame_rate cfg * 2)) in *.
  unfold frame_rate, Qle in H. cbn [Qnum Qden Qmult inject_Z] in H.
  rewrite Pos2Z.inj_mul in H. lia.
Qed.

Lemma half_frames_bound :
  (2 * py_int (frame_rate cfg * (1 # 2)) * Z.pos (hop_length cfg)
   <= Z.pos (sample_rate cfg))%Z.
Proof.
  unfold py_int.
  assert (Hpos : 0 <= frame_rate cfg * (1 # 2))
    by (unfold frame_rate, Qle; simpl; lia).
  apply Qle_bool_iff in Hpos. rewrite Hpos.
  pose proof (Qfloor_le (frame_rate cfg * (1 # 2))) as H.
  set (k := Qfloor (frame_rate cfg * (1 # 2))) in *.
  unfold frame_rate, Qle in H. cbn [Qnum Qden Qmult inject_Z] in H.
  rewrite Pos2Z.inj_mul in H. lia.
Qed.

Lemma span_bound d :
  (d * Z.pos (hop_length cfg) <= 2 * Z.pos (sample_rate cfg))%Z ->
  frames_to_time cfg d <= 2.
Proof.
  intros H. unfold frames_to_time, Qle. cbn [Qnum Qden]. lia.
Qed.

Lemma estimate_offset_span C_db p f off :
  estimate_offset cfg C_db p f = Ok off ->
  frames_to_time cfg f <= frames_to_time cfg off
  /\ frames_to_time cfg off <= frames_to_time cfg f + 2.
Proof.
  intros H. pose proof (estimate_offset_after _ _ _ _ H) as [Hle _].
  split; [now apply frames_to_time_le|].
  apply estimate_offset_cases in H. cbv zeta in H.
  pose proof two_frames_bound. pose proof half_frames_bound.
  pose proof (half_nonneg cfg).
  replace off with (f + (off - f))%Z by lia.
  rewrite frames_to_time_plus. apply Qplus_le_compat; [apply Qle_refl|].
  apply span_bound. destruct H as [[-> _]|(Hr & _)]; nia.
Qed.

(** X4. The pitches of a transcription: bin 0 and the last bin are
    never peaks, so with 88 bins the notes lie between 22 and 107, never
    on the lowest (A0 = 21) or the highest key (C8 = 108). *)
Theorem transcribe_pitch_range (C_db : ndarray2) (onset_frames : list Z)
  (notes : list note) :
  transcribe cfg C_db onset_frames = Ok notes ->
  Forall (fun n =>
            (22 <= pitch_midi n <= 19 + Z.of_nat (shape0 C_db))%Z) notes.
Proof.
  apply transcribe_Forall. intros f run n Hrun Hn.
  destruct (@run_at_peaks cfg C_db f run n Hrun Hn) as (p & h & Hp & _ & -> & _). lia.
Qed.

(** X5. Every note of a transcription has a velocity between 40 and 127
    and the fixed confidence 0.5. *)
Theorem transcribe_velocity_range (C_db : ndarray2) (onset_frames : list Z)
  (notes : list note) :
  transcribe cfg C_db onset_frames = Ok notes ->
  Forall (fun n => (40 <= velocity n <= 127)%Z /\ confidence n = 1 # 2) notes.
Proof.
  apply transcribe_Forall. intros f run n Hrun Hn.
  destruct (@run_at_peaks cfg C_db f run n Hrun Hn) as (p & h & _ & Hh & _ & -> & -> & _).
  destruct (velocity_of_bounds h) as [Hhi Hlo].
  split; [split; auto|reflexivity].
Qed.

(** X6. Whatever the sample rate and hop length, no note of a
    transcription ends before it starts or lasts more than 2 seconds. *)
Theorem transcribe_duration_range (C_db : ndarray2) (onset_frames : list Z)
  (notes : list note) :
  transcribe cfg C_db onset_frames = Ok notes ->
  Forall (fun n =>
            onset_time_s n <= offset_time_s n
            /\ offset_time_s n <= onset_time_s n + 2) notes.
Proof.
  apply transcribe_Forall. intros f run n Hrun Hn.
  destruct (@run_at_peaks cfg C_db f run n Hrun Hn)
    as (p & h & _ & _ & _ & _ & _ & -> & off & Hoff & ->).
  now apply estimate_offset_span in Hoff.
Qed.

End TranscriptionRanges.

Section TranscriptionRangeWitnesses.
Import Numpy Transcriber.

Lemma transcribe_pitch_range_witness :
  exists notes,
    transcribe default legato [1; 0; 0]%Z = Ok notes
    /\ map pitch_midi notes = [60; 66]%Z
    /\ Forall (fun n => (22 <= pitch_midi n <= 19 + 88)%Z) notes.
Proof.
  eexists. split; [vm_compute; reflexivity|]. split; [reflexivity|].
  apply (@transcribe_pitch_range default legato [1; 0; 0]%Z).
  vm_compute. reflexivity.
Defined.

Lemma transcribe_velocity_range_witness :
  exists notes,
    transcribe default legato [1; 0; 0]%Z = Ok notes
    /\ map velocity notes = [100; 60]%Z
    /\ Forall (fun n => (40 <= velocity n <= 127)%Z /\ confidence n = 1 # 2)
         notes.
Proof.
  eexists. split; [vm_compute; reflexivity|]. split; [reflexivity|].
  apply (@transcribe_velocity_range default legato [1; 0; 0]%Z).
  vm_compute. reflexivity.
Defined.

Lemma transcribe_duration_range_witness :
  exists notes,
    transcribe default staccato [0; 5]%Z = Ok notes
    /\ length notes = 1%nat
    /\ Forall (fun n =>
                 onset_time_s n <= offset_time_s n
                 /\ offset_time_s n <= onset_time_s n + 2) notes.
Proof.
  eexists. split; [vm_compute; reflexivity|]. split; [reflexivity|].
  apply (@transcribe_duration_range default staccato [0; 5]%Z).
  vm_compute. reflexivity.
Defined.

End TranscriptionRangeWitnesses.

Section FrameOrder.
Import Numpy Transcriber.

(** Two lists in ascending onset order that agree on the notes of every
    single onset time, in order, are the same list. *)
Lemma sorted_stable_unique (S S' : list note) :
  StronglySorted onset_le S -> StronglySorted onset_le S' ->
  (forall t, filter (fun m => Qeq_bool (onset_time_s m) t) S
             = filter (fun m => Qeq_bool (onset_time_s m) t) S') ->
  S = S'.
Proof.
  intros HS; revert S'; induction HS as [|n S HS IH Hn]; intros S' HS' Heq.
  - destruct S' as [|m S']; [reflexivity|].
    specialize (Heq (onset_time_s m)). simpl in Heq.
    rewrite (proj2 (Qeq_bool_iff _ _) (Qeq_refl _)) in Heq. discriminate.
  - destruct S' as [|m S'].
    + specialize (Heq (onset_time_s n)). simpl in Heq.
      rewrite (proj2 (Qeq_bool_iff _ _) (Qeq_refl _)) in Heq. discriminate.
    + inversion HS' as [|? ? HS'' Hm]; subst.
      assert (Hnm : n = m).
      { pose proof (Heq (onset_time_s n)) as En. simpl in En.
        rewrite (proj2 (Qeq_bool_iff _ _) (Qeq_refl _)) in En.
        destruct (Qeq_bool (onset_time_s m) (onset_time_s n)) eqn:Em;
          [now injection En|].
        exfalso.
        assert (Hin : In n S').
        { assert (H : In n (n :: filter
                     (fun m0 => Qeq_bool (onset_time_s m0) (onset_time_s n)) S))
            by now left.
          rewrite En in H. apply filter_In in H. tauto. }
        rewrite Forall_forall in Hm. pose proof (Hm n Hin) as Hle.
        pose proof (Heq (onset_time_s m)) as E'. simpl in E'.
        rewrite (proj2 (Qeq_bool_iff _ _) (Qeq_refl _)) in E'.
        assert (Hin' : In m (n :: S)).
        { assert (H : In m (m :: filter
                     (fun m0 => Qeq_bool (onset_time_s m0) (onset_time_s m)) S'))
            by now left.
          rewrite <- E' in H.
          destruct (Qeq_bool (onset_time_s n) (onset_time_s m));
            [destruct H as [->|H]; [now left|]|];
            apply filter_In in H; right; tauto. }
        destruct Hin' as [->|Hin'].
        - rewrite (proj2 (Qeq_bool_iff _ _) (Qeq_refl _)) in Em. discriminate.
        - rewrite Forall_forall in Hn. pose proof (Hn m Hin') as Hge.
          unfold onset_le in *.
          assert (E : onset_time_s m == onset_time_s n)
            by (apply Qle_antisym; assumption).
          apply Qeq_bool_iff in E. congruence. }
      subst m. f_equal. apply IH; [assumption|].
      intros t. specialize (Heq t). simpl in Heq.
      destruct (Qeq_bool (onset_time_s n) t); [now injection Heq|exact Heq].
Qed.

Lemma Forall2_In_fst {A B : Type} (R : A -> B -> Prop) l l' a :
  Forall2 R l l' -> In a l -> exists b, In b l' /\ R a b.
Proof.
  induction 1 as [|a' b l l' Hab _ IH]; simpl; [intros []|].
  intros [<-|H].
  - exists b. split; [now left|assumption].
  - destruct (IH H) as (b' & Hb' & HR). exists b'. split; [now right|assumption].
Qed.

Variable cfg : config.
Variable C_db : ndarray2.

Lemma runs_elsewhere fs runs t :
  Forall2 (fun f run => run_at cfg C_db f = Ok run) fs runs ->
  existsb (fun f => Qeq_bool (frames_to_time cfg f) t) fs = false ->
  filter (fun m => Qeq_bool (onset_time_s m) t) (concat runs) = [].
Proof.
  intros H; induction H as [|f run fs runs Hrun _ IH]; [reflexivity|].
  cbn [existsb concat]. intros E. apply orb_false_iff in E.
  destruct E as [Ef Efs]. rewrite filter_app, IH, app_nil_r by assumption.
  apply filter_none. apply run_at_facts in Hrun. destruct Hrun as [Hon _].
  eapply Forall_impl; [|exact Hon]. cbv beta. now intros n (-> & _).
Qed.

Lemma candidates_at_time fs fs' notes notes' t :
  Permutation fs fs' ->
  candidates cfg C_db fs = Ok notes ->
  candidates cfg C_db fs' = Ok notes' ->
  filter (fun m => Qeq_bool (onset_time_s m) t) notes
  = filter (fun m => Qeq_bool (onset_time_s m) t) notes'.
Proof.
  intros Hperm Hc Hc'.
  apply candidates_runs in Hc, Hc'.
  destruct Hc as (runs & Hruns & ->), Hc' as (runs' & Hruns' & ->).
  destruct (existsb (fun f => Qeq_bool (frames_to_time cfg f) t) fs) eqn:E.
  - apply existsb_exists in E. destruct E as (f0 & Hf0 & Et).
    apply Qeq_bool_iff in Et.
    assert (Hext : forall m : note,
               Qeq_bool (onset_time_s m) t
               = Qeq_bool (onset_time_s m) (frames_to_time cfg f0)).
    { intros m.
      destruct (Qeq_bool (onset_time_s m) t) eqn:E1;
        destruct (Qeq_bool (onset_time_s m) (frames_to_time cfg f0)) eqn:E2;
        try reflexivity; exfalso.
      - apply Qeq_bool_iff in E1. rewrite <- Et in E1.
        apply Qeq_bool_iff in E1. congruence.
      - apply Qeq_bool_iff in E2. rewrite Et in E2.
        apply Qeq_bool_iff in E2. congruence. }
    rewrite !(filter_ext _ _ Hext).
    destruct (Forall2_In_fst _ Hruns Hf0) as (run0 & _ & Hrun0).
    rewrite (@runs_at_time cfg C_db fs runs f0 run0 Hruns Hrun0).
    rewrite (@runs_at_time cfg C_db fs' runs' f0 run0 Hruns' Hrun0).
    now rewrite (proj1 (Permutation_count_occ Z.eq_dec fs fs') Hperm f0).
  - rewrite (runs_elsewhere t Hruns E).
    rewrite (runs_elsewhere t Hruns'); [reflexivity|].
    destruct (existsb _ fs') eqn:E'; [|reflexivity].
    apply existsb_exists in E'. destruct E' as (f0 & Hf0 & Et).
    apply (Permutation_in _ (Permutation_sym Hperm)) in Hf0.
    assert (existsb (fun f => Qeq_bool (frames_to_time cfg f) t) fs = true)
      by (apply existsb_exists; eauto).
    congruence.
Qed.

End FrameOrder.

Section FrameOrderLaws.
Import Numpy Transcriber.

(** X7. The order in which the onset frames are supplied does not matter:
    a permutation of them gives the same transcription, or the same
    error. *)
Theorem transcribe_frame_order (cfg : config) (C_db : ndarray2)
  (onset_frames onset_frames' : list Z) :
  Permutation onset_frames onset_frames' ->
  transcribe cfg C_db onset_frames = transcribe cfg C_db onset_frames'.
Proof.
  intros Hperm. rewrite !transcribe_candidates.
  pose proof (candidates_total cfg C_db onset_frames) as Htot.
  pose proof (candidates_total cfg C_db onset_frames') as Htot'.
  cbv zeta in Htot, Htot'.
  destruct (candidates cfg C_db onset_frames) as [notes|e] eqn:Ec.
  - assert (Hall : Forall (fun f => (- Z.of_nat (shape1 C_db) <= f)%Z)
                     onset_frames') by
      (apply (Permutation_Forall Hperm), Htot; eauto).
    apply Htot' in Hall. destruct Hall as (notes' & Ec'). rewrite Ec'.
    simpl. do 2 f_equal.
    apply sorted_stable_unique; try apply sort_by_onset_sorted.
    intros t. rewrite !sort_by_onset_stable.
    eapply candidates_at_time; eassumption.
  - assert (Hex : Exists (fun f => (f < - Z.of_nat (shape1 C_db))%Z)
                    onset_frames).
    { destruct (Exists_dec (fun f => (f < - Z.of_nat (shape1 C_db))%Z)
                  onset_frames) as [Hex|Hnex];
        [intros f; apply Z_lt_dec|exact Hex|].
      exfalso.
      assert (Hall : Forall (fun f => (- Z.of_nat (shape1 C_db) <= f)%Z)
                       onset_frames).
      { apply Forall_forall. intros f Hf.
        destruct (Z_lt_dec f (- Z.of_nat (shape1 C_db))) as [Hlt|]; [|lia].
        exfalso. apply Hnex. apply Exists_exists. eauto. }
      apply Htot in Hall. destruct Hall as (notes & Hc). discriminate. }
    rewrite (candidates_raise cfg C_db Hex) in Ec. injection Ec as <-.
    rewrite candidates_raise; [reflexivity|].
    apply Exists_exists in Hex. destruct Hex as (f & Hf & Hlt).
    apply Exists_exists. exists f.
    split; [apply (Permutation_in _ Hperm Hf)|exact Hlt].
Qed.

Lemma transcribe_frame_order_witness :
  transcribe default legato [1; 0; 0]%Z = transcribe default legato [0; 1; 0]%Z.
Proof.
  apply transcribe_frame_order.
  apply perm_trans with (l' := [0; 1; 0]%Z); [apply perm_swap|reflexivity].
Defined.

Lemma column_at C_db j i :
  (i < shape0 C_db)%nat ->
  at1 (map (fun i => data C_db i j) (seq 0 (shape0 C_db))) i = data C_db i j.
Proof.
  intros Hi. unfold at1.
  rewrite (nth_indep _ 0 (data C_db 0 j)) by (now rewrite length_map, length_seq).
  rewrite (map_nth (fun i => data C_db i j)), seq_nth by assumption.
  reflexivity.
Qed.

Lemma silent_run cfg C_db f :
  (forall i j, (i < shape0 C_db)%nat -> (j < shape1 C_db)%nat ->
               data C_db i j < -40) ->
  (- Z.of_nat (shape1 C_db) <= f)%Z ->
  run_at cfg C_db f = Ok [].
Proof.
  intros Hsilent Hf. unfold run_at, onset_body.
  destruct (Z.ltb_spec f (Z.of_nat (shape1 C_db))) as [Hlt|]; [|reflexivity].
  unfold column.
  destruct (@norm_index_ok (shape1 C_db) f) as (j & -> & Hj); [lia|].
  cbn [bind]. rewrite find_peaks_silence; [reflexivity|].
  intros i Hi. rewrite length_map, length_seq in Hi.
  rewrite column_at by assumption. auto.
Qed.

(** X8. A spectrogram that stays below -40 dB everywhere yields the
    empty transcription, for all onset frames that index it. *)
Theorem transcribe_silence (cfg : config) (C_db : ndarray2)
  (onset_frames : list Z) :
  (forall i j, (i < shape0 C_db)%nat -> (j < shape1 C_db)%nat ->
               data C_db i j < -40) ->
  Forall (fun f => (- Z.of_nat (shape1 C_db) <= f)%Z) onset_frames ->
  transcribe cfg C_db onset_frames = Ok [].
Proof.
  intros Hsilent Hall. rewrite transcribe_candidates.
  assert (E : candidates cfg C_db onset_frames = Ok []).
  { induction Hall as [|f fs Hf _ IH]; [reflexivity|].
    rewrite candidates_cons, IH.
    change (Transcriber.run_at cfg C_db f) with (run_at cfg C_db f).
    now rewrite silent_run. }
  now rewrite E.
Qed.

Lemma transcribe_silence_witness :
  transcribe default
    {| shape0 := 88; shape1 := 3; data := fun _ _ => -80 |} [0; 2; 7; -3]%Z
  = Ok [].
Proof.
  apply transcribe_silence.
  - intros i j _ _. reflexivity.
  - repeat constructor; vm_compute; discriminate.
Defined.

End FrameOrderLaws.

(** * Further properties of the agreement score *)

Section AgreementLaws.
Import Agreement.

Lemma is_match_refl n : is_match n n = true.
Proof.
  apply is_match_spec. split.
  - rewrite Z.sub_diag. simpl. lia.
  - rewrite fsub_diag. vm_compute. discriminate.
Qed.

Lemma partner_In notes2 n1 :
  existsb (is_match n1) notes2 = true
  <-> exists n2, In n2 notes2 /\ is_match n1 n2 = true.
Proof. apply existsb_exists. Qed.

Lemma partner_perm notes2 notes2' n1 :
  Permutation notes2 notes2' ->
  existsb (is_match n1) notes2 = existsb (is_match n1) notes2'.
Proof.
  intros Hp.
  destruct (existsb (is_match n1) notes2) eqn:E;
    destruct (existsb (is_match n1) notes2') eqn:E'; try reflexivity; exfalso.
  - apply partner_In in E. destruct E as (n2 & Hin & Hm).
    assert (existsb (is_match n1) notes2' = true); [|congruence].
    apply partner_In. exists n2. split; [|assumption].
    now apply (Permutation_in _ Hp).
  - apply partner_In in E'. destruct E' as (n2 & Hin & Hm).
    assert (existsb (is_match n1) notes2 = true); [|congruence].
    apply partner_In. exists n2. split; [|assumption].
    now apply (Permutation_in _ (Permutation_sym Hp)).
Qed.

Lemma filter_length_perm {A : Type} (p : A -> bool) (l l' : list A) :
  Permutation l l' -> length (filter p l) = length (filter p l').
Proof.
  induction 1 as [|x l l' _ IH|x y l|l l' l'' _ IH _ IH']; simpl.
  - reflexivity.
  - destruct (p x); simpl; now rewrite IH.
  - destruct (p x), (p y); reflexivity.
  - now rewrite IH.
Qed.

(** X9. A note list agrees fully with itself: every note finds itself,
    so [matches = len] and the ratio is 1 (0 for the empty list). *)
Theorem agreement_self (notes : list note) :
  count_matches notes notes = len notes
  /\ agreement notes notes
     = Ok (if truthy notes
           then inject_Z (len notes) / inject_Z (len notes)
           else 0)
  /\ exists q, agreement notes notes = Ok q
               /\ q == (if truthy notes then 1 else 0).
Proof.
  assert (E : count_matches notes notes = len notes).
  { rewrite count_matches_filter. unfold len. f_equal. f_equal.
    apply filter_all. apply Forall_forall. intros n Hn.
    apply partner_In. exists n. split; [assumption|apply is_match_refl]. }
  assert (E' : agreement notes notes
               = Ok (if truthy notes
                     then inject_Z (len notes) / inject_Z (len notes)
                     else 0)).
  { rewrite agreement_value, E, Z.max_id.
    destruct notes; reflexivity. }
  split; [exact E|]. split; [exact E'|].
  rewrite E'. eexists. split; [reflexivity|].
  destruct notes as [|n notes]; [reflexivity|]. cbn [truthy].
  apply Qmult_inv_r. unfold len. simpl length.
  intros H. apply (proj1 (inject_Z_injective _ 0%Z)) in H. lia.
Qed.

(** X10. The score does not depend on the order of the notes in either
    list, first fit or not. *)
Theorem agreement_note_order (notes1 notes1' notes2 notes2' : list note) :
  Permutation notes1 notes1' -> Permutation notes2 notes2' ->
  count_matches notes1 notes2 = count_matches notes1' notes2'
  /\ agreement notes1 notes2 = agreement notes1' notes2'.
Proof.
  intros H1 H2.
  assert (E : count_matches notes1 notes2 = count_matches notes1' notes2').
  { rewrite !count_matches_filter. f_equal.
    rewrite (filter_ext _ (fun n1 => existsb (is_match n1) notes2'))
      by (intros n1; now apply partner_perm).
    now apply filter_length_perm. }
  split; [exact E|].
  rewrite !agreement_value, E. unfold len.
  rewrite (Permutation_length H1), (Permutation_length H2).
  replace (truthy notes1') with (truthy notes1)
    by (destruct notes1, notes1'; try reflexivity;
        [apply Permutation_nil_cons in H1|
         apply Permutation_sym, Permutation_nil_cons in H1]; contradiction).
  replace (truthy notes2') with (truthy notes2)
    by (destruct notes2, notes2'; try reflexivity;
        [apply Permutation_nil_cons in H2|
         apply Permutation_sym, Permutation_nil_cons in H2]; contradiction).
  reflexivity.
Qed.

Lemma agreement_note_order_witness :
  agreement crafted_a crafted_b = agreement crafted_a (rev crafted_b).
Proof.
  apply agreement_note_order; [reflexivity|apply Permutation_rev].
Defined.

(** X11. The count adds up over the first list and can only grow with
    the second: notes added to [b] never remove a match, and against an
    empty list nothing matches. *)
Theorem count_matches_additive (notes1 notes1' notes2 notes2' : list note) :
  count_matches (notes1 ++ notes1') notes2
  = (count_matches notes1 notes2 + count_matches notes1' notes2)%Z
  /\ (count_matches notes1 notes2
      <= count_matches notes1 (notes2 ++ notes2'))%Z
  /\ (count_matches notes1 notes2
      <= count_matches notes1 (notes2' ++ notes2))%Z
  /\ count_matches notes1 [] = 0%Z
  /\ count_matches [] notes2 = 0%Z.
Proof.
  assert (Hmono : forall more more',
             (count_matches notes1 notes2
              <= count_matches notes1 (more ++ notes2 ++ more'))%Z).
  { intros more more'. rewrite !count_matches_filter.
    apply inj_le. induction notes1 as [|n l IH]; simpl; [lia|].
    destruct (existsb (is_match n) notes2) eqn:E.
    - rewrite !existsb_app, E, orb_true_r. simpl. lia.
    - destruct (existsb (is_match n) (more ++ notes2 ++ more')); simpl; lia. }
  split; [|split; [|split; [|split]]].
  - unfold count_matches. rewrite fold_left_app, !fold_count. lia.
  - apply (Hmono [] notes2').
  - specialize (Hmono notes2' []). now rewrite app_nil_r in Hmono.
  - rewrite count_matches_filter.
    rewrite (filter_none (fun n1 => existsb (is_match n1) []));
      [reflexivity|]. apply Forall_forall. reflexivity.
  - reflexivity.
Qed.

End AgreementLaws.

(** * The duplicate filters of the wrappers *)

Section DedupeLaws.
Import Wrappers.
Variable test : note -> note -> bool.

Lemma is_duplicate_spec kept n :
  is_duplicate test kept n = true
  <-> exists e, In e kept /\ test e n = true.
Proof.
  induction kept as [|e kept IH]; simpl.
  - split; [discriminate|intros (? & [] & _)].
  - destruct (test e n) eqn:E.
    + split; [intros _; exists e; split; [now left|exact E]|reflexivity].
    + rewrite IH. split.
      * intros (e' & Hin & H). exists e'. split; [now right|exact H].
      * intros (e' & [<-|Hin] & H); [congruence|eauto].
Qed.

Lemma is_duplicate_app kept more n :
  is_duplicate test kept n = true ->
  is_duplicate test (kept ++ more) n = true.
Proof.
  rewrite !is_duplicate_spec. intros (e & Hin & H).
  exists e. split; [apply in_or_app; now left|exact H].
Qed.

Lemma dedupe_snoc notes n :
  dedupe test (notes ++ [n])
  = if is_duplicate test (dedupe test notes) n then dedupe test notes
    else dedupe test notes ++ [n].
Proof. unfold dedupe. now rewrite fold_left_app. Qed.

Lemma dedupe_loop_mask rest :
  forall kept,
  exists mask,
    fold_left (keep_step test) rest kept
    = kept ++ Numpy.mask_select mask rest.
Proof.
  induction rest as [|n rest IH]; intros kept; simpl.
  - exists []. now rewrite app_nil_r.
  - destruct (IH (keep_step test kept n)) as (mask & ->).
    unfold keep_step. destruct (is_duplicate test kept n).
    + exists (false :: mask). reflexivity.
    + exists (true :: mask). simpl. now rewrite <- app_assoc.
Qed.

Lemma dedupe_mask notes :
  exists mask, dedupe test notes = Numpy.mask_select mask notes.
Proof. apply (dedupe_loop_mask notes []). Qed.

Lemma dedupe_loop_fixed rest :
  forall kept,
    dedupe test kept = kept ->
    dedupe test (fold_left (keep_step test) rest kept)
    = fold_left (keep_step test) rest kept.
Proof.
  induction rest as [|n rest IH]; intros kept Hk; simpl; [exact Hk|].
  apply IH. unfold keep_step.
  destruct (is_duplicate test kept n) eqn:E; [exact Hk|].
  now rewrite dedupe_snoc, Hk, E.
Qed.

Lemma dedupe_loop_apart rest :
  forall kept,
    ForallOrdPairs (fun e n => test e n = false) kept ->
    ForallOrdPairs (fun e n => test e n = false)
      (fold_left (keep_step test) rest kept).
Proof.
  induction rest as [|n rest IH]; intros kept Hk; simpl; [exact Hk|].
  apply IH. unfold keep_step.
  destruct (is_duplicate test kept n) eqn:E; [exact Hk|].
  apply ordpairs_snoc; [exact Hk|].
  apply Forall_forall. intros e He.
  destruct (test e n) eqn:Et; [|reflexivity].
  assert (is_duplicate test kept n = true)
    by (apply is_duplicate_spec; eauto).
  congruence.
Qed.

Lemma dedupe_loop_covers rest :
  forall kept n,
    In n kept \/ is_duplicate test kept n = true \/ In n rest ->
    In n (fold_left (keep_step test) rest kept)
    \/ is_duplicate test (fold_left (keep_step test) rest kept) n = true.
Proof.
  induction rest as [|m rest IH]; intros kept n H; simpl.
  - destruct H as [H|[H|[]]]; auto.
  - apply IH. unfold keep_step.
    destruct (is_duplicate test kept m) eqn:E.
    + destruct H as [H|[H|[<-|H]]]; auto.
    + destruct H as [H|[H|[<-|H]]]; auto.
      * left. apply in_or_app. now left.
      * right; left. now apply is_duplicate_app.
      * left. apply in_or_app. right. now left.
Qed.

(** What both duplicate filters guarantee, for any test. *)
Lemma dedupe_laws notes :
  ForallOrdPairs (fun e n => test e n = false) (dedupe test notes)
  /\ dedupe test (dedupe test notes) = dedupe test notes
  /\ (forall n, In n (dedupe test notes) -> In n notes)
  /\ (forall n, In n notes ->
                In n (dedupe test notes)
                \/ exists e, In e (dedupe test notes) /\ test e n = true)
  /\ (length (dedupe test notes) <= length notes)%nat
  /\ forall n, hd_error (dedupe test (n :: notes)) = Some n.
Proof.
  split; [apply dedupe_loop_apart; constructor|].
  split; [now apply dedupe_loop_fixed|].
  destruct (dedupe_mask notes) as (mask & E).
  split; [|split; [|split]].
  - intros n. rewrite E. apply mask_select_In.
  - intros n Hn. rewrite <- is_duplicate_spec.
    apply dedupe_loop_covers. auto.
  - rewrite E. clear E. revert mask.
    induction notes as [|n notes IH]; intros mask.
    + now rewrite mask_select_nil.
    + destruct mask as [|[] mask]; simpl; [lia| |];
        specialize (IH mask); lia.
  - intros n. unfold dedupe. simpl.
    destruct (dedupe_loop_mask notes (keep_step test [] n)) as (mask' & ->).
    reflexivity.
Qed.

End DedupeLaws.

Section WrapperFilters.
Import Wrappers.

Lemma Qabs_flip (a b : Q) : Qabs (a - b) == Qabs (b - a).
Proof.
  assert (E : a - b == - (b - a)) by ring.
  rewrite E. apply Qabs_opp.
Qed.

(** X12. The CREPE wrapper's filter leaves no two notes that are within
    a semitone and less than 50 ms apart, drops a note only for such a
    kept neighbour, keeps the first note, and is idempotent. *)
Theorem crepe_filter_laws (notes : list note) :
  ForallOrdPairs
    (fun e n =>
       (1 < Z.abs (pitch_midi e - pitch_midi n))%Z
       \/ 5 # 100 <= Qabs (onset_time_s e - onset_time_s n))
    (crepe_filter notes)
  /\ crepe_filter (crepe_filter notes) = crepe_filter notes
  /\ (forall n, In n (crepe_filter notes) -> In n notes)
  /\ (forall n,
         In n notes ->
         In n (crepe_filter notes)
         \/ exists e,
              In e (crepe_filter notes)
              /\ (Z.abs (pitch_midi e - pitch_midi n) <= 1)%Z
              /\ Qabs (onset_time_s e - onset_time_s n) < 5 # 100)
  /\ forall n, hd_error (crepe_filter (n :: notes)) = Some n.
Proof.
  destruct (dedupe_laws crepe_test notes) as (Hp & Hi & Hs & Hc & _ & Hh).
  split; [|split; [exact Hi|split; [exact Hs|split; [|exact Hh]]]].
  - eapply ordpairs_weaken; [|exact Hp]. cbv beta. unfold crepe_test.
    intros e n H. apply andb_false_iff in H. destruct H as [H|H].
    + left. apply Z.leb_gt in H. exact H.
    + right. now apply Qltb_ge.
  - intros n Hn. destruct (Hc n Hn) as [H|(e & He & Ht)]; [now left|right].
    exists e. split; [exact He|]. unfold crepe_test in Ht.
    apply andb_true_iff in Ht. destruct Ht as [H1 H2].
    split; [now apply Z.leb_le|now apply Qltb_lt].
Qed.

(** X13. The transformer wrapper's filter leaves no two notes of the
    same pitch less than 50 ms apart, drops a note only for such a kept
    note, keeps the first note, and is idempotent. *)
Theorem transformer_unique_laws (notes : list note) :
  ForallOrdPairs
    (fun e n =>
       pitch_midi e = pitch_midi n ->
       5 # 100 <= Qabs (onset_time_s e - onset_time_s n))
    (transformer_unique notes)
  /\ transformer_unique (transformer_unique notes) = transformer_unique notes
  /\ (forall n, In n (transformer_unique notes) -> In n notes)
  /\ (forall n,
         In n notes ->
         In n (transformer_unique notes)
         \/ exists e,
              In e (transformer_unique notes)
              /\ pitch_midi e = pitch_midi n
              /\ Qabs (onset_time_s e - onset_time_s n) < 5 # 100)
  /\ forall n, hd_error (transformer_unique (n :: notes)) = Some n.
Proof.
  destruct (dedupe_laws transformer_test notes)
    as (Hp & Hi & Hs & Hc & _ & Hh).
  split; [|split; [exact Hi|split; [exact Hs|split; [|exact Hh]]]].
  - eapply ordpairs_weaken; [|exact Hp]. cbv beta. unfold transformer_test.
    intros e n H Hpitch. apply andb_false_iff in H. destruct H as [H|H].
    + apply Z.eqb_neq in H. contradiction.
    + now apply Qltb_ge.
  - intros n Hn. destruct (Hc n Hn) as [H|(e & He & Ht)]; [now left|right].
    exists e. split; [exact He|]. unfold transformer_test in Ht.
    apply andb_true_iff in Ht. destruct Ht as [H1 H2].
    split; [now apply Z.eqb_eq|now apply Qltb_lt].
Qed.

End WrapperFilters.

(** * The notes of the CREPE wrapper *)

Section CrepeNotes.
Import Wrappers.

Lemma py_round_near (x : Q) : Qabs (inject_Z (py_round x) - x) <= 1 # 2.
Proof.
  unfold py_round.
  pose proof (Qfloor_le x) as Hlo. pose proof (Qlt_floor x) as Hhi.
  rewrite inject_Z_plus in Hhi. change (inject_Z 1) with 1 in Hhi.
  set (low := Qfloor x) in *.
  assert (Hup : inject_Z (low + 1) == inject_Z low + 1)
    by (rewrite inject_Z_plus; reflexivity).
  destruct (Qltb (x - inject_Z low) (1 # 2)) eqn:E1.
  - apply Qltb_lt in E1. apply Qabs_Qle_condition. split; lra.
  - apply Qltb_ge in E1.
    assert (Hnear : Qabs (inject_Z (low + 1) - x) <= 1 # 2)
      by (apply Qabs_Qle_condition; rewrite Hup; split; lra).
    destruct (Qltb (1 # 2) (x - inject_Z low)) eqn:E2; [exact Hnear|].
    apply Qltb_ge in E2.
    destruct (Z.even low); [|exact Hnear].
    apply Qabs_Qle_condition. split; lra.
Qed.

Lemma argmin_from_bound a :
  forall best_i best i,
    (best_i < i)%nat -> (argmin_from best_i best i a < i + length a)%nat.
Proof.
  induction a as [|x a IH]; intros best_i best i H; simpl; [lia|].
  destruct (Qltb x best).
  - specialize (IH i x (S i)). lia.
  - specialize (IH best_i best (S i)). lia.
Qed.

Lemma argmin_bound a i : argmin a = Some i -> (i < length a)%nat.
Proof.
  destruct a as [|x a]; simpl; [discriminate|]. intros [= <-].
  pose proof (@argmin_from_bound a 0%nat x 1%nat). lia.
Qed.

Lemma mask_select_twice {A : Type} (l : list A) :
  forall m2 m1,
  exists m,
    Numpy.mask_select m1 (Numpy.mask_select m2 l) = Numpy.mask_select m l.
Proof.
  induction l as [|x l IH]; intros m2 m1.
  - exists []. now rewrite !mask_select_nil.
  - destruct m2 as [|[] m2]; simpl.
    + exists []. now rewrite mask_select_nil.
    + destruct m1 as [|[] m1]; simpl.
      * exists []. reflexivity.
      * destruct (IH m2 m1) as (m & ->). exists (true :: m). reflexivity.
      * destruct (IH m2 m1) as (m & ->). exists (false :: m). reflexivity.
    + destruct (IH m2 m1) as (m & ->). exists (false :: m). reflexivity.
Qed.

Lemma mask_select_length {A : Type} (l : list A) :
  forall m, (length (Numpy.mask_select m l) <= length l)%nat.
Proof.
  induction l as [|x l IH]; intros m.
  - now rewrite mask_select_nil.
  - destruct m as [|[] m]; simpl; [lia| |]; specialize (IH m); lia.
Qed.

Lemma argmin_from_spec a :
  forall best_i best i,
    (argmin_from best_i best i a = best_i
     /\ Forall (fun y => best <= y) a)
    \/ (exists x,
          (i <= argmin_from best_i best i a)%nat
          /\ nth_error a (argmin_from best_i best i a - i) = Some x
          /\ x < best
          /\ Forall (fun y => x <= y) a
          /\ forall j y,
               (j < argmin_from best_i best i a - i)%nat ->
               nth_error a j = Some y -> x < y).
Proof.
  induction a as [|x a IH]; intros best_i best i; cbn [argmin_from].
  - left. split; [reflexivity|constructor].
  - destruct (Qltb x best) eqn:E.
    + apply Qltb_lt in E. right.
      destruct (IH i x (S i))
        as [[Hr Hall]|(x' & Hle & Hnth & Hlt & Hall & Hbefore)].
      * rewrite Hr. exists x. rewrite Nat.sub_diag.
        split; [lia|]. split; [reflexivity|]. split; [exact E|].
        split; [constructor; [apply Qle_refl|exact Hall]|].
        intros j y Hj. lia.
      * set (r := argmin_from i x (S i) a) in *. exists x'.
        split; [lia|]. replace (r - i)%nat with (S (r - S i)) by lia.
        split; [exact Hnth|]. split; [lra|].
        split; [constructor; [lra|exact Hall]|].
        intros [|j] y Hj Hy; cbn [nth_error] in Hy.
        -- injection Hy as <-. exact Hlt.
        -- apply (Hbefore j y); [lia|exact Hy].
    + apply Qltb_ge in E.
      destruct (IH best_i best (S i))
        as [[Hr Hall]|(x' & Hle & Hnth & Hlt & Hall & Hbefore)].
      * left. split; [exact Hr|]. constructor; assumption.
      * set (r := argmin_from best_i best (S i) a) in *. right. exists x'.
        split; [lia|]. replace (r - i)%nat with (S (r - S i)) by lia.
        split; [exact Hnth|]. split; [exact Hlt|].
        split; [constructor; [lra|exact Hall]|].
        intros [|j] y Hj Hy; cbn [nth_error] in Hy.
        -- injection Hy as <-. lra.
        -- apply (Hbefore j y); [lia|exact Hy].
Qed.

(** [np.argmin] returns the first index of a least entry. *)
Lemma argmin_spec a r :
  argmin a = Some r ->
  exists x,
    nth_error a r = Some x
    /\ forall j y,
         nth_error a j = Some y -> x <= y /\ ((j < r)%nat -> x < y).
Proof.
  destruct a as [|x0 a]; cbn [argmin]; [discriminate|]. intros [= <-].
  destruct (argmin_from_spec a 0 x0 1)
    as [[Hr Hall]|(x & Hle & Hnth & Hlt & Hall & Hbefore)].
  - rewrite Hr. exists x0. split; [reflexivity|].
    intros [|j] y Hy; cbn [nth_error] in Hy.
    + injection Hy as <-. split; [apply Qle_refl|lia].
    + split; [|lia]. rewrite Forall_forall in Hall.
      apply Hall. eapply nth_error_In; eassumption.
  - set (r := argmin_from 0 x0 1 a) in *. exists x.
    destruct r as [|r]; [lia|]. cbn [nth_error].
    replace (S r - 1)%nat with r in * by lia.
    split; [exact Hnth|].
    intros [|j] y Hy; cbn [nth_error] in Hy.
    + injection Hy as <-. split; [lra|intros _; exact Hlt].
    + split.
      * rewrite Forall_forall in Hall.
        apply Hall. eapply nth_error_In; eassumption.
      * intros Hj. apply (Hbefore j y); [lia|exact Hy].
Qed.

Lemma argmin_nearest stamps onset i :
  argmin (distances stamps onset) = Some i -> nearest stamps onset i.
Proof.
  intros H. apply argmin_spec in H. destruct H as (x & Hx & Hleast).
  unfold distances in Hx, Hleast. rewrite nth_error_map in Hx.
  destruct (nth_error stamps i) as [ts|] eqn:Ets; [|discriminate].
  injection Hx as <-. exists ts. split; [exact Ets|].
  intros j ts' Hj. apply Hleast. rewrite nth_error_map, Hj. reflexivity.
Qed.

Lemma crepe_note_earlier stamps pitches confs t onset_times n :
  crepe_note stamps pitches confs onset_times n ->
  crepe_note stamps pitches confs (t :: onset_times) n.
Proof.
  intros (i & c & m & d & before & later & H1 & H2 & H3 & H4 & H5 & H6
          & H7 & H8 & H9 & H10).
  exists i, c, m, d, (t :: before), later.
  repeat (split; [assumption|]). split; [|split; assumption].
  rewrite H8. reflexivity.
Qed.

Lemma crepe_loop_spec (stamps pitches confs : list Q) :
  forall onset_times notes out,
    crepe_notes_loop stamps pitches confs onset_times notes = Some out ->
    exists new mask,
      out = notes ++ new
      /\ map onset_time_s new = Numpy.mask_select mask onset_times
      /\ Forall (crepe_note stamps pitches confs onset_times) new.
Proof.
  induction onset_times as [|t later IH]; intros notes out;
    cbn [crepe_notes_loop].
  - intros [= <-]. exists [], []. rewrite app_nil_r.
    repeat split; constructor.
  - destruct (argmin (distances stamps t)) as [time_idx|] eqn:Ea;
      [|discriminate].
    destruct (nth_error confs time_idx) as [c|] eqn:Ec; [|discriminate].
    destruct (Qltb (5 # 10) c) eqn:Hc.
    + destruct (nth_error pitches time_idx) as [m|] eqn:Em; [|discriminate].
      intros H. apply IH in H.
      destruct H as (new & mask & -> & Hmask & Hall).
      set (n := {| pitch_midi := py_round m; onset_time_s := t;
                   offset_time_s := _; velocity := 64; confidence := c |}).
      exists (n :: new), (true :: mask).
      split; [now rewrite <- app_assoc|].
      split; [simpl; now rewrite Hmask|].
      constructor.
      * exists time_idx, c, m,
          (match later with
           | next :: _ => Qmin (Float.fsub next t) 2
           | [] => 5 # 10
           end), [], later.
        subst n. cbn [pitch_midi onset_time_s offset_time_s velocity
                      confidence app].
        split; [now apply argmin_nearest|].
        split; [exact Ec|]. split; [exact Em|].
        split; [now apply Qltb_lt|].
        repeat (split; [reflexivity|]). reflexivity.
      * eapply Forall_impl; [|exact Hall].
        intros n'. apply crepe_note_earlier.
    + intros H. apply IH in H.
      destruct H as (new & mask & -> & Hmask & Hall).
      exists new, (false :: mask).
      split; [reflexivity|]. split; [exact Hmask|].
      eapply Forall_impl; [|exact Hall].
      intros n'. apply crepe_note_earlier.
Qed.

Lemma crepe_duration_bound (later : list Q) (t : Q) :
  match later with
  | next :: _ => Qmin (Float.fsub next t) 2
  | [] => 5 # 10
  end <= 2.
Proof. destruct later; [discriminate|apply Q.le_min_r]. Qed.

Lemma sorted_middle (before later : list Q) (t : Q) :
  StronglySorted Qlt (before ++ t :: later) -> Forall (Qlt t) later.
Proof.
  induction before as [|b before IH]; cbn [app]; intros H;
    inversion H; subst; auto.
Qed.

(** X14. The notes of the CREPE wrapper: at most one per onset time and
    in the order of the onset times.  Each note is read at the first of
    CREPE's frames nearest to its onset (in float distance): it has the
    confidence of that frame, which is above 0.5, and its pitch rounded
    to the nearest integer, so within half a semitone, and velocity 64.
    Its offset is the float sum of the onset and the duration (the float
    distance to the next onset time capped at 2, or 0.5 for the last
    onset), hence at most the float [onset + 2.0] and within half a unit
    in the last place of the real sum.  With strictly increasing onset
    times the onsets of the notes increase strictly and no float offset
    lies before its onset. *)
Theorem crepe_notes_facts (time_stamps midi_pitches confidences : list Q)
  (onset_times : list Q) (notes : list note) :
  crepe_notes time_stamps midi_pitches confidences onset_times = Some notes ->
  (exists mask,
      map onset_time_s notes = Numpy.mask_select mask onset_times)
  /\ (length notes <= length onset_times)%nat
  /\ Forall (fun n =>
               crepe_note time_stamps midi_pitches confidences onset_times n
               /\ 5 # 10 < confidence n
               /\ velocity n = 64%Z
               /\ (exists m, In m midi_pitches
                             /\ Qabs (inject_Z (pitch_midi n) - m) <= 1 # 2)
               /\ offset_time_s n <= Float.fadd (onset_time_s n) 2
               /\ exists duration,
                    duration <= 2
                    /\ Qabs (offset_time_s n - (onset_time_s n + duration))
                       <= Float.ulp (onset_time_s n + duration) * (1 # 2))
       notes
  /\ (StronglySorted Qlt onset_times ->
      StronglySorted Qlt (map onset_time_s notes)
      /\ (Forall (fun t => Float.round64 t == t) onset_times ->
          Forall (fun n => onset_time_s n <= offset_time_s n) notes)).
Proof.
  unfold crepe_notes.
  destruct (crepe_notes_loop _ _ _ _ _) as [raw|] eqn:E; [|discriminate].
  intros [= <-]. apply crepe_loop_spec in E.
  destruct E as (new & mask & -> & Hmask & Hall). simpl.
  destruct (dedupe_mask crepe_test new) as (mask' & E'). unfold crepe_filter.
  assert (Hm : exists m,
             map onset_time_s (dedupe crepe_test new)
             = Numpy.mask_select m onset_times).
  { rewrite E', <- mask_select_map, Hmask. apply mask_select_twice. }
  split; [exact Hm|]. split.
  { destruct Hm as (m & Hm). rewrite <- (length_map onset_time_s), Hm.
    apply mask_select_length. }
  split.
  { rewrite E'. apply mask_select_Forall.
    eapply Forall_impl; [|exact Hall]. intros n Hn. split; [exact Hn|].
    destruct Hn as (i & c & m & d & before & later & _ & Hc & Hp & Hgt
                    & -> & -> & -> & _ & Hd & ->).
    assert (Hd2 : d <= 2) by (rewrite Hd; apply crepe_duration_bound).
    split; [exact Hgt|]. split; [reflexivity|].
    split; [exists m; split;
            [eapply nth_error_In; eassumption|apply py_round_near]|].
    split.
    - unfold Float.fadd. apply round64_mono. lra.
    - exists d. split; [exact Hd2|]. unfold Float.fadd.
      apply round64_error. }
  intros Hs. split.
  { destruct Hm as (m & ->). now apply mask_select_sorted. }
  intros Hdouble. rewrite E'. apply mask_select_Forall.
  eapply Forall_impl; [|exact Hall]. intros n Hn.
  destruct Hn as (i & c & m & d & before & later & _ & _ & _ & _
                  & _ & _ & _ & Hsplit & Hd & ->).
  set (t := onset_time_s n) in *.
  assert (Ht : Float.round64 t == t).
  { rewrite Forall_forall in Hdouble. apply Hdouble.
    rewrite Hsplit. apply in_or_app. right. now left. }
  assert (Hd0 : 0 <= d).
  { rewrite Hd. destruct later as [|next later']; [discriminate|].
    rewrite Hsplit in Hs. apply sorted_middle in Hs.
    inversion Hs as [|? ? Hnext _]; subst.
    apply Q.min_glb; [|discriminate].
    unfold Float.fsub. apply round64_nonneg. lra. }
  rewrite <- Ht at 1. unfold Float.fadd. apply round64_mono. lra.
Qed.

Lemma crepe_notes_facts_witness :
  exists notes,
    crepe_notes [0; Float.double (1 # 100); Float.double (2 # 100)]
      [60; 605 # 10; 62] [9 # 10; 9 # 10; 2 # 10]
      [Float.double (1 # 100); Float.double (2 # 100); 3]
    = Some notes
    /\ map pitch_midi notes = [60]%Z
    /\ (length notes <= 3)%nat.
Proof.
  eexists. split; [vm_compute; reflexivity|]. split; [reflexivity|].
  apply (@crepe_notes_facts
           [0; Float.double (1 # 100); Float.double (2 # 100)]
           [60; 605 # 10; 62] [9 # 10; 9 # 10; 2 # 10]
           [Float.double (1 # 100); Float.double (2 # 100); 3]).
  vm_compute. reflexivity.
Defined.

Lemma crepe_loop_total (stamps pitches confs : list Q) :
  stamps <> [] -> length confs = length stamps ->
  length pitches = length stamps ->
  forall onset_times notes,
  exists out,
    crepe_notes_loop stamps pitches confs onset_times notes = Some out.
Proof.
  intros Hne Hc Hp. induction onset_times as [|t later IH]; intros notes;
    cbn [crepe_notes_loop]; [eauto|].
  destruct (argmin (distances stamps t)) as [i|] eqn:Ei.
  - apply argmin_bound in Ei. unfold distances in Ei.
    rewrite length_map in Ei.
    destruct (nth_error confs i) as [c|] eqn:Ec;
      [|apply nth_error_None in Ec; lia].
    destruct (Qltb (5 # 10) c); [|apply IH].
    destruct (nth_error pitches i) as [m|] eqn:Em;
      [apply IH|apply nth_error_None in Em; lia].
  - destruct stamps; [contradiction|discriminate].
Qed.

(** X15. The CREPE wrapper's note loop returns whenever CREPE's three
    arrays are non-empty and of one length; without any time stamp the
    first onset makes [np.argmin] raise. *)
Theorem crepe_notes_defined (time_stamps midi_pitches confidences : list Q)
  (onset_times : list Q) :
  (time_stamps <> [] ->
   length confidences = length time_stamps ->
   length midi_pitches = length time_stamps ->
   exists notes,
     crepe_notes time_stamps midi_pitches confidences onset_times
     = Some notes)
  /\ (onset_times <> [] ->
      crepe_notes [] midi_pitches confidences onset_times = None)
  /\ crepe_notes time_stamps midi_pitches confidences [] = Some [].
Proof.
  split; [|split; [|reflexivity]].
  - intros Hne Hc Hp. unfold crepe_notes.
    destruct (@crepe_loop_total time_stamps midi_pitches confidences
                Hne Hc Hp onset_times []) as (out & ->). eauto.
  - intros Hne. destruct onset_times; [contradiction|reflexivity].
Qed.

End CrepeNotes.

(** * Onset precision, recall and F1 *)

Section EvaluationFacts.
Import Evaluation.

Lemma key_eqb_eq a b : key_eqb a b = true <-> a = b.
Proof.
  unfold key_eqb. rewrite andb_true_iff, !Z.eqb_eq.
  destruct a, b; simpl. split; [intros [-> ->]; reflexivity|].
  intros [= -> ->]. auto.
Qed.

Lemma mem_In k s : mem k s = true <-> In k s.
Proof.
  unfold mem. rewrite existsb_exists. split.
  - intros (x & Hx & E). apply key_eqb_eq in E. now subst.
  - intros H. exists k. split; [exact H|now apply key_eqb_eq].
Qed.

Lemma to_set_In keys k : In k (to_set keys) <-> In k keys.
Proof.
  induction keys as [|x keys IH]; simpl; [reflexivity|].
  destruct (mem x (to_set keys)) eqn:E.
  - apply mem_In in E. split.
    + intros H. right. now apply IH.
    + intros [<-|H]; [exact E|now apply IH].
  - simpl. now rewrite IH.
Qed.

Lemma to_set_NoDup keys : NoDup (to_set keys).
Proof.
  induction keys as [|x keys IH]; simpl; [constructor|].
  destruct (mem x (to_set keys)) eqn:E; [exact IH|].
  constructor; [|exact IH]. intros H. apply mem_In in H. congruence.
Qed.

Lemma onsets_NoDup notes : NoDup (onsets notes).
Proof. apply to_set_NoDup. Qed.

Lemma to_set_length keys : (length (to_set keys) <= length keys)%nat.
Proof.
  induction keys as [|x keys IH]; simpl; [lia|].
  destruct (mem x (to_set keys)); simpl; lia.
Qed.

Lemma inter_diff_length a b :
  (length (inter a b) + length (diff a b) = length a)%nat.
Proof.
  unfold inter, diff. induction a as [|k a IH]; simpl; [reflexivity|].
  destruct (mem k b); simpl; lia.
Qed.

Lemma inter_comm_length a b :
  NoDup a -> NoDup b -> length (inter a b) = length (inter b a).
Proof.
  intros Ha Hb. apply Permutation_length.
  apply NoDup_Permutation; try (now apply NoDup_filter).
  intros k. unfold inter. rewrite !filter_In, !mem_In. tauto.
Qed.

Lemma diff_self a : diff a a = [].
Proof.
  unfold diff. apply filter_none. apply Forall_forall. intros k Hk.
  apply mem_In in Hk. now rewrite Hk.
Qed.

Lemma evaluate_value predicted ground_truth :
  let tp := Z.of_nat (length (inter (onsets predicted) (onsets ground_truth))) in
  let fp := Z.of_nat (length (diff (onsets predicted) (onsets ground_truth))) in
  let fn := Z.of_nat (length (diff (onsets ground_truth) (onsets predicted))) in
  evaluate_against_ground_truth predicted ground_truth
  = Ok {| onset_precision := ratio tp fp;
          onset_recall := ratio tp fn;
          onset_f1 := harmonic (ratio tp fp) (ratio tp fn);
          true_positives := tp;
          false_positives := fp;
          false_negatives := fn |}.
Proof.
  intros tp fp fn. unfold evaluate_against_ground_truth. fold tp fp fn.
  assert (Hdiv : forall other,
             (if (0 <? tp + other)%Z then Agreement.truediv tp (tp + other)
              else Ok 0) = Ok (ratio tp other)).
  { intros other. unfold ratio, Agreement.truediv.
    destruct (Z.ltb_spec 0 (tp + other)); [|reflexivity].
    destruct (Z.eqb_spec (tp + other) 0); [lia|reflexivity]. }
  rewrite !Hdiv. cbn [bind]. unfold harmonic, fdiv.
  destruct (Qltb 0 (ratio tp fp + ratio tp fn)) eqn:E; [|reflexivity].
  destruct (Qeq_bool (ratio tp fp + ratio tp fn) 0) eqn:E0; [|reflexivity].
  exfalso. apply Qltb_lt in E. apply Qeq_bool_iff in E0.
  rewrite E0 in E. now apply Qlt_irrefl in E.
Qed.

Lemma ratio_range tp other :
  (0 <= tp)%Z -> (0 <= other)%Z -> 0 <= ratio tp other <= 1.
Proof.
  intros Htp Ho. unfold ratio.
  destruct (Z.ltb_spec 0 (tp + other)).
  - apply unit_fraction; lia.
  - split; [apply Qle_refl|discriminate].
Qed.

Lemma harmonic_range p r :
  0 <= p <= 1 -> 0 <= r <= 1 -> 0 <= harmonic p r <= 1.
Proof.
  intros [Hp0 Hp1] [Hr0 Hr1]. unfold harmonic.
  destruct (Qltb 0 (p + r)) eqn:E; [|split; [apply Qle_refl|discriminate]].
  apply Qltb_lt in E. split.
  - apply Qle_shift_div_l; [exact E|]. rewrite Qmult_0_l.
    apply Qmult_le_0_compat; [|exact Hr0].
    apply Qmult_le_0_compat; [discriminate|exact Hp0].
  - apply Qle_shift_div_r; [exact E|]. rewrite Qmult_1_l.
    nra.
Qed.

(** X16. The evaluation never divides by zero.  Its counts partition the
    two onset sets ([tp + fp] predicted onsets, [tp + fn] true ones, no
    more than there are notes), and precision, recall and F1 all lie
    between 0 and 1. *)
Theorem evaluate_metrics (predicted ground_truth : list note) :
  exists m,
    evaluate_against_ground_truth predicted ground_truth = Ok m
    /\ (true_positives m + false_positives m
        = Z.of_nat (length (onsets predicted)))%Z
    /\ (true_positives m + false_negatives m
        = Z.of_nat (length (onsets ground_truth)))%Z
    /\ (0 <= true_positives m)%Z /\ (0 <= false_positives m)%Z
    /\ (0 <= false_negatives m)%Z
    /\ (length (onsets predicted) <= length predicted)%nat
    /\ 0 <= onset_precision m <= 1
    /\ 0 <= onset_recall m <= 1
    /\ 0 <= onset_f1 m <= 1.
Proof.
  rewrite evaluate_value. eexists. split; [reflexivity|]. cbn.
  pose proof (inter_diff_length (onsets predicted) (onsets ground_truth)) as H1.
  pose proof (inter_diff_length (onsets ground_truth) (onsets predicted)) as H2.
  rewrite (inter_comm_length (onsets_NoDup ground_truth)
             (onsets_NoDup predicted)) in H2.
  split; [lia|]. split; [lia|].
  split; [lia|]. split; [lia|]. split; [lia|].
  split; [unfold onsets; rewrite <- (length_map onset_key predicted);
          apply to_set_length|].
  assert (Hp : 0 <= ratio
                 (Z.of_nat (length (inter (onsets predicted)
                                      (onsets ground_truth))))
                 (Z.of_nat (length (diff (onsets predicted)
                                      (onsets ground_truth)))) <= 1)
    by (apply ratio_range; lia).
  assert (Hr : 0 <= ratio
                 (Z.of_nat (length (inter (onsets predicted)
                                      (onsets ground_truth))))
                 (Z.of_nat (length (diff (onsets ground_truth)
                                      (onsets predicted)))) <= 1)
    by (apply ratio_range; lia).
  split; [exact Hp|]. split; [exact Hr|]. now apply harmonic_range.
Qed.

Lemma ratio_zero other : ratio 0 other == 0.
Proof.
  unfold ratio. destruct (0 <? 0 + other)%Z; [|reflexivity].
  unfold Qdiv. apply Qmult_0_l.
Qed.

Lemma ratio_pos tp other :
  (0 < tp)%Z -> (0 <= other)%Z ->
  ratio tp other = inject_Z tp / inject_Z (tp + other)
  /\ 0 < ratio tp other.
Proof.
  intros Htp Ho. unfold ratio.
  destruct (Z.ltb_spec 0 (tp + other)); [|lia]. split; [reflexivity|].
  apply Qlt_shift_div_l.
  - rewrite <- (Zlt_Qlt 0). lia.
  - rewrite Qmult_0_l, <- (Zlt_Qlt 0). exact Htp.
Qed.

Lemma harmonic_zero p r : p == 0 -> r == 0 -> harmonic p r = 0.
Proof.
  intros Hp Hr. unfold harmonic.
  destruct (Qltb 0 (p + r)) eqn:E; [|reflexivity].
  apply Qltb_lt in E. rewrite Hp, Hr in E. discriminate E.
Qed.

Lemma harmonic_pos p r :
  0 < p + r -> harmonic p r = 2 * p * r / (p + r).
Proof.
  intros H. unfold harmonic. apply Qltb_lt in H. now rewrite H.
Qed.

Lemma harmonic_comm p r : harmonic p r == harmonic r p.
Proof.
  unfold harmonic.
  assert (E : Qltb 0 (p + r) = Qltb 0 (r + p)).
  { destruct (Qltb 0 (p + r)) eqn:E1; destruct (Qltb 0 (r + p)) eqn:E2;
      try reflexivity; exfalso.
    - apply Qltb_lt in E1. apply Qltb_ge in E2. lra.
    - apply Qltb_ge in E1. apply Qltb_lt in E2. lra. }
  rewrite <- E. destruct (Qltb 0 (p + r)) eqn:E1; [|reflexivity].
  apply Qltb_lt in E1. field. lra.
Qed.

Lemma onsets_nonempty n notes : (0 < length (onsets (n :: notes)))%nat.
Proof.
  assert (H : In (onset_key n) (onsets (n :: notes)))
    by (apply to_set_In; now left).
  destruct (onsets (n :: notes)); [contradiction|simpl; lia].
Qed.

Lemma inter_self a : inter a a = a.
Proof.
  unfold inter. apply filter_all. apply Forall_forall. intros k Hk.
  now apply mem_In.
Qed.

(** X17. A transcription evaluated against itself has no false positive
    and no false negative, and precision, recall and F1 equal to 1 (to
    0 when it has no note). *)
Theorem evaluate_perfect (notes : list note) :
  exists m,
    evaluate_against_ground_truth notes notes = Ok m
    /\ true_positives m = Z.of_nat (length (onsets notes))
    /\ false_positives m = 0%Z /\ false_negatives m = 0%Z
    /\ onset_precision m == (if Agreement.truthy notes then 1 else 0)
    /\ onset_recall m == (if Agreement.truthy notes then 1 else 0)
    /\ onset_f1 m == (if Agreement.truthy notes then 1 else 0).
Proof.
  rewrite evaluate_value. eexists. split; [reflexivity|]. cbn.
  rewrite inter_self, diff_self. cbn [length].
  split; [reflexivity|]. split; [reflexivity|]. split; [reflexivity|].
  destruct notes as [|n notes]; cbn [Agreement.truthy].
  - repeat split; reflexivity.
  - pose proof (onsets_nonempty n notes) as Hne.
    set (tp := Z.of_nat (length (onsets (n :: notes)))) in *.
    assert (Htp : (0 < tp)%Z) by (subst tp; lia).
    destruct (ratio_pos Htp (Z.le_refl 0)) as [E Hpos].
    assert (E1 : ratio tp 0 == 1).
    { rewrite E, Z.add_0_r. apply Qmult_inv_r.
      intros H. apply (proj1 (inject_Z_injective _ 0%Z)) in H. lia. }
    split; [exact E1|]. split; [exact E1|].
    change (Z.of_nat 0) with 0%Z.
    rewrite harmonic_pos by lra. rewrite E1. reflexivity.
Qed.

(** X18. Exchanging prediction and ground truth keeps the true
    positives, exchanges false positives with false negatives and
    precision with recall, and leaves F1 as it is. *)
Theorem evaluate_swap (predicted ground_truth : list note) :
  exists m m',
    evaluate_against_ground_truth predicted ground_truth = Ok m
    /\ evaluate_against_ground_truth ground_truth predicted = Ok m'
    /\ true_positives m = true_positives m'
    /\ false_positives m = false_negatives m'
    /\ false_negatives m = false_positives m'
    /\ onset_precision m = onset_recall m'
    /\ onset_recall m = onset_precision m'
    /\ onset_f1 m == onset_f1 m'.
Proof.
  rewrite !evaluate_value. do 2 eexists.
  split; [reflexivity|]. split; [reflexivity|]. cbn.
  rewrite (inter_comm_length (onsets_NoDup ground_truth)
             (onsets_NoDup predicted)).
  repeat (split; [reflexivity|]). apply harmonic_comm.
Qed.

(** X19. Precision, recall and F1 vanish together: each of them is 0
    exactly when no predicted onset is a true onset, and all three are
    positive as soon as there is one true positive. *)
Theorem evaluate_f1_zero (predicted ground_truth : list note) :
  exists m,
    evaluate_against_ground_truth predicted ground_truth = Ok m
    /\ (onset_precision m == 0 <-> true_positives m = 0%Z)
    /\ (onset_recall m == 0 <-> true_positives m = 0%Z)
    /\ (onset_f1 m == 0 <-> true_positives m = 0%Z)
    /\ ((0 < true_positives m)%Z ->
        0 < onset_precision m /\ 0 < onset_recall m /\ 0 < onset_f1 m).
Proof.
  rewrite evaluate_value. eexists. split; [reflexivity|].
  cbn [true_positives false_positives false_negatives onset_f1
       onset_precision onset_recall].
  set (tp := Z.of_nat (length (inter _ _))).
  set (fp := Z.of_nat (length (diff (onsets predicted) _))).
  set (fn := Z.of_nat (length (diff (onsets ground_truth) _))).
  assert (Htp : (0 <= tp)%Z) by (subst tp; lia).
  assert (Hfp : (0 <= fp)%Z) by (subst fp; lia).
  assert (Hfn : (0 <= fn)%Z) by (subst fn; lia).
  assert (Hpos : (0 < tp)%Z ->
                 0 < ratio tp fp /\ 0 < ratio tp fn
                 /\ 0 < harmonic (ratio tp fp) (ratio tp fn)).
  { intros H. destruct (ratio_pos H Hfp) as [_ Hp].
    destruct (ratio_pos H Hfn) as [_ Hr].
    split; [exact Hp|]. split; [exact Hr|].
    rewrite harmonic_pos by lra.
    apply Qlt_shift_div_l; [lra|]. rewrite Qmult_0_l.
    apply Qmult_lt_0_compat; [|exact Hr].
    apply Qmult_lt_0_compat; [reflexivity|exact Hp]. }
  assert (Hzero : tp = 0%Z ->
                  ratio tp fp == 0 /\ ratio tp fn == 0
                  /\ harmonic (ratio tp fp) (ratio tp fn) == 0).
  { intros ->. split; [apply ratio_zero|]. split; [apply ratio_zero|].
    rewrite harmonic_zero by apply ratio_zero. reflexivity. }
  split; [|split; [|split; [|exact Hpos]]]; split; intros H;
    try (now apply Hzero);
    destruct (Z.eq_dec tp 0) as [E|E]; try exact E; exfalso;
      assert (Hlt : (0 < tp)%Z) by lia;
      destruct (Hpos Hlt) as (Hp & Hr & Hf); lra.
Qed.

End EvaluationFacts.

(** * run_comparison.py: the agreement table *)

Section CalculateAgreement.
Import Comparison.

Lemma lookup_key models name :
  In name (map fst models) -> exists notes, lookup models name = Some notes.
Proof.
  induction models as [|[key notes] models IH]; simpl; [intros []|].
  destruct (String.eqb key name) eqn:E; [eauto|].
  intros [H|H]; [|auto]. subst. rewrite String.eqb_refl in E. discriminate.
Qed.

Lemma total_positive (notes1 notes2 : list note) :
  (0 <? Z.max (Agreement.len notes1) (Agreement.len notes2))%Z
  = Agreement.truthy notes1 || Agreement.truthy notes2.
Proof.
  unfold Agreement.len.
  destruct notes1, notes2; simpl length; cbn [Agreement.truthy orb];
    [reflexivity| | |]; apply Z.ltb_lt; lia.
Qed.

Lemma pair_row_defined sample_name models name1 name2 :
  In name1 (map fst models) -> In name2 (map fst models) ->
  exists row,
    pair_row sample_name models name1 name2 = Some row
    /\ model1 row = name1 /\ model2 row = name2
    /\ row_of sample_name models row.
Proof.
  intros H1 H2. unfold pair_row.
  destruct (lookup_key models name1 H1) as (notes1 & E1).
  destruct (lookup_key models name2 H2) as (notes2 & E2).
  rewrite E1, E2.
  assert (E : (if (0 <? Z.max (Agreement.len notes1) (Agreement.len notes2))%Z
               then Agreement.truediv
                      (Agreement.count_matches notes1 notes2)
                      (Z.max (Agreement.len notes1) (Agreement.len notes2))
               else Ok 0)
              = Agreement.agreement notes1 notes2).
  { unfold Agreement.agreement. now rewrite total_positive. }
  rewrite E. pose proof (agreement_value notes1 notes2) as Hv.
  rewrite Hv. eexists. split; [reflexivity|]. cbn.
  split; [reflexivity|]. split; [reflexivity|].
  unfold row_of. cbn. split; [reflexivity|].
  exists notes1, notes2. rewrite E1, E2.
  repeat split; try reflexivity. exact Hv.
Qed.

Lemma inner_rows_spec sample_name models name1 later :
  In name1 (map fst models) -> incl later (map fst models) ->
  forall rows,
  exists new,
    inner_rows sample_name models name1 later rows = Some (rows ++ new)
    /\ length new = length later
    /\ Forall (row_of sample_name models) new.
Proof.
  intros H1. induction later as [|name2 later IH]; intros Hl rows; simpl.
  - exists []. rewrite app_nil_r. repeat split; constructor.
  - destruct (@pair_row_defined sample_name models name1 name2)
      as (row & -> & _ & _ & Hrow); [exact H1|apply Hl; now left|].
    destruct (IH (fun x Hx => Hl x (or_intror Hx)) (rows ++ [row]))
      as (new & -> & Hlen & Hall).
    exists (row :: new). rewrite <- app_assoc.
    split; [reflexivity|]. split; [simpl; now rewrite Hlen|].
    now constructor.
Qed.

Lemma triangle k : (k + k * (k - 1) / 2 = S k * (S k - 1) / 2)%nat.
Proof.
  replace (S k * (S k - 1))%nat with (k * (k - 1) + k * 2)%nat by nia.
  rewrite Nat.div_add by discriminate. lia.
Qed.

Lemma outer_rows_spec sample_name models names :
  incl names (map fst models) ->
  forall rows,
  exists new,
    outer_rows sample_name models names rows = Some (rows ++ new)
    /\ length new = (length names * (length names - 1) / 2)%nat
    /\ Forall (row_of sample_name models) new.
Proof.
  induction names as [|name1 later IH]; intros Hl rows; simpl outer_rows.
  - exists []. rewrite app_nil_r. repeat split; constructor.
  - destruct (@inner_rows_spec sample_name models name1 later)
      with (rows := rows) as (new1 & -> & Hlen1 & Hall1);
      [apply Hl; now left|intros x Hx; apply Hl; now right|].
    destruct (IH (fun x Hx => Hl x (or_intror Hx)) (rows ++ new1))
      as (new2 & -> & Hlen2 & Hall2).
    exists (new1 ++ new2). rewrite <- app_assoc.
    split; [reflexivity|]. split.
    + rewrite length_app, Hlen1, Hlen2. cbn [length]. apply triangle.
    + apply Forall_app. split; assumption.
Qed.

Lemma samples_loop_spec all_outputs :
  forall rows,
  exists new,
    samples_loop all_outputs rows = Some (rows ++ new)
    /\ length new
       = list_sum
           (map (fun entry =>
                   (length (snd entry) * (length (snd entry) - 1) / 2)%nat)
                all_outputs)
    /\ Forall (fun row =>
                 exists models,
                   In (sample row, models) all_outputs
                   /\ row_of (sample row) models row) new.
Proof.
  induction all_outputs as [|[sample_name models] rest IH]; intros rows;
    simpl samples_loop.
  - exists []. rewrite app_nil_r. repeat split; constructor.
  - destruct (@outer_rows_spec sample_name models (map fst models))
      with (rows := rows) as (new1 & -> & Hlen1 & Hall1);
      [apply incl_refl|].
    destruct (IH (rows ++ new1)) as (new2 & -> & Hlen2 & Hall2).
    exists (new1 ++ new2). rewrite <- app_assoc.
    split; [reflexivity|]. split.
    + rewrite length_app, Hlen1, Hlen2, length_map.
      cbn [map list_sum fold_right snd]. reflexivity.
    + apply Forall_app. split.
      * eapply Forall_impl; [|exact Hall1]. intros row Hrow.
        exists models. destruct Hrow as [Hs Hrest].
        split; [rewrite Hs; now left|]. split; [reflexivity|exact Hrest].
      * eapply Forall_impl; [|exact Hall2]. intros row (m & Hin & Hrow).
        exists m. split; [now right|exact Hrow].
Qed.

Lemma pairs_length {A : Type} (l : list A) :
  length (pairs l) = (length l * (length l - 1) / 2)%nat.
Proof.
  induction l as [|x l IH]; [reflexivity|].
  cbn [pairs]. rewrite length_app, length_map, IH. cbn [length].
  apply triangle.
Qed.

(** A pair of [pairs l] takes its first entry before its second in [l]. *)
Lemma pairs_In {A : Type} (l : list A) (x y : A) :
  In (x, y) (pairs l) ->
  exists l1 l2 l3, l = l1 ++ x :: l2 ++ y :: l3.
Proof.
  induction l as [|a l IH]; cbn [pairs]; [intros []|].
  intros H. apply in_app_or in H. destruct H as [H|H].
  - apply in_map_iff in H. destruct H as (y' & [= <- <-] & Hy).
    destruct (in_split _ _ Hy) as (l2 & l3 & ->).
    exists [], l2, l3. reflexivity.
  - destruct (IH H) as (l1 & l2 & l3 & ->).
    exists (a :: l1), l2, l3. reflexivity.
Qed.

Lemma pairs_keys {A B : Type} (l : list (A * B)) (e1 e2 : A * B) :
  NoDup (map fst l) -> In (e1, e2) (pairs l) ->
  In e1 l /\ In e2 l /\ fst e1 <> fst e2.
Proof.
  intros Hnd H. apply pairs_In in H. destruct H as (l1 & l2 & l3 & ->).
  split; [apply in_or_app; right; now left|].
  split.
  - apply in_or_app. right. right. apply in_or_app. right. now left.
  - rewrite map_app in Hnd. apply NoDup_app_remove_l in Hnd.
    cbn [map] in Hnd. inversion Hnd as [|? ? Hnot _]; subst.
    intros E. apply Hnot. rewrite map_app. apply in_or_app. right.
    left. symmetry. exact E.
Qed.

Lemma lookup_entry models :
  NoDup (map fst models) ->
  forall e, In e models -> lookup models (fst e) = Some (snd e).
Proof.
  induction models as [|[key notes] models IH]; intros Hnd e Hin;
    [contradiction|].
  cbn [map fst] in Hnd. inversion Hnd as [|? ? Hnot Hnd']; subst.
  cbn [lookup]. destruct Hin as [<-|Hin].
  - cbn [fst snd]. now rewrite String.eqb_refl.
  - destruct (String.eqb key (fst e)) eqn:E; [|now apply IH].
    apply String.eqb_eq in E. subst key. exfalso. apply Hnot.
    now apply in_map.
Qed.

Lemma pair_row_for sample_name models e1 e2 :
  NoDup (map fst models) -> In e1 models -> In e2 models ->
  pair_row sample_name models (fst e1) (fst e2)
  = Some (row_for sample_name e1 e2).
Proof.
  intros Hnd H1 H2. unfold pair_row, row_for.
  rewrite (@lookup_entry models Hnd e1 H1), (@lookup_entry models Hnd e2 H2).
  cbv zeta.
  set (total := Z.max _ _).
  destruct (0 <? total)%Z eqn:E; [|reflexivity].
  apply Z.ltb_lt in E. unfold Agreement.truediv.
  destruct (Z.eqb_spec total 0); [lia|reflexivity].
Qed.

Lemma inner_rows_table sample_name models e1 later :
  NoDup (map fst models) -> In e1 models -> incl later models ->
  forall rows,
    inner_rows sample_name models (fst e1) (map fst later) rows
    = Some (rows ++ map (row_for sample_name e1) later).
Proof.
  intros Hnd H1. induction later as [|e2 later IH]; intros Hl rows;
    cbn [map inner_rows].
  - now rewrite app_nil_r.
  - rewrite (@pair_row_for sample_name models e1 e2 Hnd H1)
      by (apply Hl; now left).
    rewrite IH by (intros x Hx; apply Hl; now right).
    now rewrite <- app_assoc.
Qed.

Lemma outer_rows_table sample_name models l :
  NoDup (map fst models) -> incl l models ->
  forall rows,
    outer_rows sample_name models (map fst l) rows
    = Some (rows
            ++ map (fun p => row_for sample_name (fst p) (snd p))
                 (pairs l)).
Proof.
  intros Hnd. induction l as [|e1 later IH]; intros Hl rows;
    cbn [map outer_rows pairs].
  - now rewrite app_nil_r.
  - rewrite (@inner_rows_table sample_name models e1 later Hnd)
      by (try (apply Hl; now left); intros x Hx; apply Hl; now right).
    rewrite IH by (intros x Hx; apply Hl; now right).
    rewrite map_app, map_map, <- app_assoc. reflexivity.
Qed.

Lemma samples_loop_table all_outputs :
  Forall (fun entry => NoDup (map fst (snd entry))) all_outputs ->
  forall rows, samples_loop all_outputs rows = Some (rows ++ table all_outputs).
Proof.
  induction 1 as [|[sample_name models] rest Hnd _ IH]; intros rows;
    cbn [samples_loop table flat_map].
  - now rewrite app_nil_r.
  - cbn [fst snd] in *.
    rewrite (@outer_rows_table sample_name models models Hnd (incl_refl _)).
    fold (sample_table sample_name models).
    rewrite IH, <- app_assoc. reflexivity.
Qed.

Lemma table_distinct all_outputs :
  Forall (fun entry => NoDup (map fst (snd entry))) all_outputs ->
  Forall (fun row => model1 row <> model2 row) (table all_outputs).
Proof.
  induction 1 as [|[sample_name models] rest Hnd _ IH];
    cbn [table flat_map]; [constructor|].
  apply Forall_app. split; [|exact IH].
  cbn [fst snd] in *. unfold sample_table.
  apply Forall_forall. intros row Hrow. apply in_map_iff in Hrow.
  destruct Hrow as ([e1 e2] & <- & Hp). cbn [row_for model1 model2 fst snd].
  now destruct (@pairs_keys _ _ models e1 e2 Hnd Hp) as (_ & _ & Hne).
Qed.

(** X20. [calculate_agreement] never raises.  For a sample with [k]
    models it yields [k (k - 1) / 2] rows; each row holds the match
    count, the larger length and exactly the ratio [compare_models.py]
    computes for the two lists, between 0 and 1.  With the keys of each
    sample's dict distinct, the table is, sample after sample, the rows
    of the pairs of the sample's models, each pair of positions once with
    the earlier model first and in the order of the two loops; no row
    pairs a model with itself. *)
Theorem calculate_agreement_rows
  (all_outputs : list (String.string * list (String.string * list note))) :
  exists rows,
    calculate_agreement all_outputs = Some rows
    /\ length rows
       = list_sum
           (map (fun entry =>
                   (length (snd entry) * (length (snd entry) - 1) / 2)%nat)
                all_outputs)
    /\ Forall (fun row =>
                 (exists models,
                     In (sample row, models) all_outputs
                     /\ row_of (sample row) models row)
                 /\ (0 <= matches row <= total row)%Z
                 /\ 0 <= agreement row <= 1) rows
    /\ (Forall (fun entry => NoDup (map fst (snd entry))) all_outputs ->
        rows = table all_outputs
        /\ (forall sample_name models,
               length (sample_table sample_name models)
               = (length models * (length models - 1) / 2)%nat)
        /\ Forall (fun row => model1 row <> model2 row) rows).
Proof.
  destruct (samples_loop_spec all_outputs []) as (rows & E & Hlen & Hall).
  exists rows. split; [exact E|]. split; [exact Hlen|]. split.
  - eapply Forall_impl; [|exact Hall]. intros row (models & Hin & Hrow).
    split; [eauto|].
    destruct Hrow as (_ & notes1 & notes2 & _ & _ & -> & -> & Ha).
    pose proof (count_matches_bounds notes1 notes2) as Hb.
    split; [lia|].
    rewrite agreement_value in Ha. injection Ha as <-.
    destruct (Agreement.truthy notes1 || Agreement.truthy notes2) eqn:E';
      [|split; [apply Qle_refl|discriminate]].
    apply unit_fraction; [lia|].
    rewrite <- total_positive in E'. now apply Z.ltb_lt.
  - intros Hnd.
    assert (Et : rows = table all_outputs).
    { pose proof (samples_loop_table Hnd []) as Ht. cbn [app] in *.
      unfold calculate_agreement in *. congruence. }
    split; [exact Et|]. split.
    + intros sample_name models. unfold sample_table.
      rewrite length_map. apply pairs_length.
    + rewrite Et. now apply table_distinct.
Qed.

End CalculateAgreement.

(** * run_comparison.py: the spectral baseline *)

Section SpectralFacts.
Import Numpy Comparison.




Lemma seq_sorted n : forall s, StronglySorted lt (seq s n).
Proof.
  induction n as [|n IH]; intros s; simpl; constructor; [apply IH|].
  apply Forall_forall. intros i Hi. apply in_seq in Hi. lia.
Qed.

Lemma filter_sorted {A : Type} (R : A -> A -> Prop) (p : A -> bool) l :
  StronglySorted R l -> StronglySorted R (filter p l).
Proof.
  induction 1 as [|x l Hs IH Hall]; simpl; [constructor|].
  destruct (p x); [|exact IH]. constructor; [exact IH|].
  apply Forall_forall. intros y Hy. apply filter_In in Hy.
  rewrite Forall_forall in Hall. apply Hall. tauto.
Qed.

Lemma firstn_In {A : Type} (l : list A) :
  forall k x, In x (firstn k l) -> In x l.
Proof.
  induction l as [|y l IH]; intros [|k] x; simpl; try tauto.
  intros [H|H]; [now left|right; eauto].
Qed.

Lemma firstn_sorted {A : Type} (R : A -> A -> Prop) l :
  StronglySorted R l -> forall k, StronglySorted R (firstn k l).
Proof.
  induction 1 as [|x l Hs IH Hall]; intros [|k]; simpl; try constructor.
  - apply IH.
  - apply Forall_forall. intros y Hy. apply firstn_In in Hy.
    rewrite Forall_forall in Hall. auto.
Qed.


Lemma where_gt_In a threshold i :
  In i (where_gt a threshold)
  <-> (i < length a)%nat /\ threshold < at1 a i.
Proof.
  unfold where_gt. rewrite filter_In, in_seq, Qltb_lt. split.
  - intros [H1 H2]. split; [lia|exact H2].
  - intros [H1 H2]. split; [lia|exact H2].
Qed.


Lemma spectral_peaks_some (spectrum : list Q) (peaks : list nat) :
  spectral_peaks spectrum = Some peaks ->
  (length peaks <= 5)%nat
  /\ StronglySorted lt peaks
  /\ Forall (fun p => (p < length spectrum)%nat) peaks.
Proof.
  unfold spectral_peaks.
  destruct (np_max spectrum) as [top|]; [|discriminate]. intros H.
  replace peaks with (firstn 5 (where_gt spectrum (top * (3 # 10))))
    by congruence.
  split; [apply firstn_le_length|]. split.
  - apply firstn_sorted, filter_sorted, seq_sorted.
  - apply Forall_forall. intros q Hq. apply firstn_In in Hq.
    now apply where_gt_In in Hq.
Qed.

Lemma spectral_peaks_none (spectrum : list Q) :
  spectral_peaks spectrum = None -> spectrum = [].
Proof.
  unfold spectral_peaks. destruct spectrum; [reflexivity|discriminate].
Qed.

Lemma onset_time_nonneg (f : Z) : (0 <= f)%Z -> 0 <= onset_time_of f.
Proof.
  intros Hf. unfold onset_time_of. apply round64_nonneg.
  unfold Transcriber.frames_to_time, Qle. cbn [Qnum Qden]. nia.
Qed.

Lemma spectral_note_times (f : Z) (p : nat) :
  onset_time_s (spectral_note f p) <= offset_time_s (spectral_note f p)
  /\ ((0 <= f)%Z ->
      Qabs (offset_time_s (spectral_note f p)
            - (onset_time_s (spectral_note f p) + (5 # 10)))
      <= (onset_time_s (spectral_note f p) + (5 # 10)) * 2 ^ (-53)).
Proof.
  unfold spectral_note. cbn [onset_time_s offset_time_s]. split.
  - unfold onset_time_of at 1. rewrite <- round64_idempotent.
    fold (onset_time_of f). unfold Float.fadd. apply round64_mono. lra.
  - intros Hf. pose proof (onset_time_nonneg Hf) as H0.
    set (q := onset_time_of f + (5 # 10)).
    assert (Hq : 5 # 10 <= q) by (unfold q; lra).
    assert (Ha : Qabs q == q) by (apply Qabs_pos; lra).
    rewrite <- Ha at 2. unfold Float.fadd. fold q.
    apply round64_relative. rewrite Ha.
    eapply Qle_trans; [|exact Hq]. vm_compute. discriminate.
Qed.

Lemma spectral_group_of C f j peaks :
  (f < Z.of_nat (shape1 C))%Z ->
  spectral_peaks (map (fun i => data C i j) (seq 0 (shape0 C))) = Some peaks ->
  spectral_group C f (map (spectral_note f) peaks).
Proof.
  intros Hf Ep. apply spectral_peaks_some in Ep.
  destruct Ep as (Hfive & Hsorted & Hrange).
  rewrite length_map, length_seq in Hrange.
  split; [lia|]. split; [now rewrite length_map|]. split.
  - rewrite map_map. cbn [spectral_note pitch_midi]. clear Hfive Hrange.
    induction Hsorted as [|p peaks Hs IH Hall]; cbn [map]; constructor;
      [exact IH|].
    apply Forall_forall. intros z Hz. apply in_map_iff in Hz.
    destruct Hz as (q & <- & Hq). rewrite Forall_forall in Hall.
    specialize (Hall q Hq). lia.
  - apply Forall_forall. intros n Hn. apply in_map_iff in Hn.
    destruct Hn as (q & <- & Hq). rewrite Forall_forall in Hrange.
    specialize (Hrange q Hq).
    destruct (spectral_note_times f q) as [Hle Herr].
    split; [cbn [spectral_note pitch_midi]; lia|].
    repeat (split; [reflexivity|]). split; [exact Hle|exact Herr].
Qed.

Lemma spectral_loop_spec C onset_frames :
  forall notes out,
    spectral_loop C onset_frames notes = Some out ->
    exists groups,
      out = notes ++ concat groups
      /\ Forall2 (spectral_group C) onset_frames groups.
Proof.
  induction onset_frames as [|f rest IH]; intros notes out;
    cbn [spectral_loop].
  - intros [= <-]. exists []. rewrite app_nil_r. split; constructor.
  - destruct (Z.ltb_spec f (Z.of_nat (shape1 C))) as [Hf|Hf].
    + destruct (column C f) as [spectrum|e] eqn:Ecol; [|discriminate].
      destruct (spectral_peaks spectrum) as [peaks|] eqn:Ep; [|discriminate].
      intros H. apply IH in H. destruct H as (groups & -> & Hall).
      exists (map (spectral_note f) peaks :: groups).
      cbn [concat]. rewrite <- app_assoc. split; [reflexivity|].
      constructor; [|exact Hall].
      unfold column in Ecol. apply bind_Ok_inv in Ecol.
      destruct Ecol as (j & _ & [= <-]).
      now apply spectral_group_of with (j := j).
    + intros H. apply IH in H. destruct H as (groups & -> & Hall).
      exists ([] :: groups). split; [reflexivity|].
      constructor; [|exact Hall].
      split; [reflexivity|]. split; [simpl; lia|].
      split; constructor.
Qed.

Lemma spectral_loop_total C onset_frames :
  (0 < shape0 C)%nat ->
  Forall (fun f => (- Z.of_nat (shape1 C) <= f)%Z) onset_frames ->
  forall notes, exists out, spectral_loop C onset_frames notes = Some out.
Proof.
  intros Hbins. induction 1 as [|f rest Hf _ IH]; intros notes;
    cbn [spectral_loop]; [eauto|].
  destruct (Z.ltb_spec f (Z.of_nat (shape1 C))); [|apply IH].
  unfold column.
  destruct (@norm_index_ok (shape1 C) f) as (j & -> & _); [lia|].
  cbn [bind].
  destruct (spectral_peaks _) as [peaks|] eqn:E; [apply IH|].
  apply spectral_peaks_none in E.
  apply (f_equal (@length Q)) in E.
  rewrite length_map, length_seq in E. simpl in E. lia.
Qed.

Lemma concat_length_bound {A : Type} (k : nat) (groups : list (list A)) :
  Forall (fun g => (length g <= k)%nat) groups ->
  (length (concat groups) <= k * length groups)%nat.
Proof.
  induction 1 as [|g groups Hg _ IH]; cbn [concat length]; [lia|].
  rewrite length_app. nia.
Qed.

(** X22. The spectral baseline returns a note list whenever the
    magnitude array has a bin and no onset frame lies below minus the
    number of frames.  The list is made of one group of notes per onset
    frame, in the order of the frames: no note for a frame at or past the
    end of the array, otherwise at most five, by strictly ascending pitch
    from 21 up to 20 + the number of bins, with velocity 64 and
    confidence 0.5.  Every note of a group starts at the float time of
    its frame and ends at the float sum of that time and 0.5, which is
    never before the onset and, for a frame from 0 on, within the
    relative rounding error [2^-53] of the real sum. *)
Theorem run_spectral_analysis_facts (C : ndarray2) (onset_frames : list Z) :
  ((0 < shape0 C)%nat ->
   Forall (fun f => (- Z.of_nat (shape1 C) <= f)%Z) onset_frames ->
   exists notes, run_spectral_analysis C onset_frames = Some notes)
  /\ forall notes,
       run_spectral_analysis C onset_frames = Some notes ->
       (exists groups,
           notes = concat groups
           /\ Forall2 (spectral_group C) onset_frames groups)
       /\ (length notes <= 5 * length onset_frames)%nat.
Proof.
  split.
  - intros Hbins Hall. now apply spectral_loop_total.
  - intros notes H. apply spectral_loop_spec in H.
    destruct H as (groups & -> & Hall). cbn [app].
    split; [exists groups; split; [reflexivity|exact Hall]|].
    rewrite (Forall2_length Hall).
    apply concat_length_bound.
    clear - Hall. induction Hall as [|f g fs gs Hg _ IH]; constructor;
      [apply Hg|exact IH].
Qed.

End SpectralFacts.

(** * compare_models.py: the agreement table *)

Section ReportFacts.
Import Report.

Ltac report_row_of Hs :=
  match goal with
  | |- row_of _
         {| sample := _;
            model_pair := String.append ?m1 (String.append _ ?m2);
            agreement := _;
            matching_notes := Agreement.count_matches ?n1 ?n2;
            total_notes_avg := _ |} =>
      exists m1, m2, n1, n2;
      cbn [sample model_pair agreement matching_notes total_notes_avg];
      split; [exact Hs|];
      split; [simpl; tauto|];
      split; [simpl; tauto|];
      split; [reflexivity|];
      split; [assumption|];
      split; [assumption|];
      split; [reflexivity|];
      split; [reflexivity|];
      split; [apply agreement_value|reflexivity]
  end.

Lemma report_sample_spec files sample_name rows :
  In sample_name samples ->
  exists new,
    sample_step files sample_name rows = Ok (rows ++ new)
    /\ length new
       = (length (model_outputs (files sample_name))
          * (length (model_outputs (files sample_name)) - 1) / 2)%nat
    /\ Forall (row_of files) new.
Proof.
  intros Hs. unfold sample_step, model_outputs, models. cbn [flat_map].
  destruct (files sample_name "basic_pitch"%string) as [n1|] eqn:E1;
    destruct (files sample_name "crepe_onset"%string) as [n2|] eqn:E2;
    destruct (files sample_name "piano_transformer"%string) as [n3|] eqn:E3;
    cbn -[Agreement.agreement Agreement.count_matches Agreement.len
          Qdiv inject_Z String.append];
    rewrite ?agreement_value; cbn [bind];
    rewrite <- ?app_assoc;
    first
      [ exists []; rewrite app_nil_r;
        split; [reflexivity|split; [reflexivity|constructor]]
      | eexists; split; [reflexivity|];
        split; [reflexivity|];
        repeat (constructor; [report_row_of Hs|]); constructor ].
Qed.

Lemma report_samples_spec files todo :
  incl todo samples ->
  forall rows,
  exists new,
    samples_loop files todo rows = Ok (rows ++ new)
    /\ length new
       = list_sum
           (map (fun s =>
                   (length (model_outputs (files s))
                    * (length (model_outputs (files s)) - 1) / 2)%nat)
                todo)
    /\ Forall (row_of files) new.
Proof.
  induction todo as [|s todo IH]; intros Hincl rows; cbn [samples_loop].
  - exists []. rewrite app_nil_r. repeat split; constructor.
  - destruct (@report_sample_spec files s rows) as (new1 & -> & Hlen1 & Hall1);
      [apply Hincl; now left|].
    cbn [bind].
    destruct (IH (fun x Hx => Hincl x (or_intror Hx)) (rows ++ new1))
      as (new2 & -> & Hlen2 & Hall2).
    exists (new1 ++ new2). rewrite <- app_assoc.
    split; [reflexivity|]. split.
    + rewrite length_app, Hlen1, Hlen2.
      cbn [map list_sum fold_right]. reflexivity.
    + apply Forall_app. split; assumption.
Qed.

Lemma report_sample_table files sample_name rows :
  sample_step files sample_name rows
  = Ok (rows ++ sample_table files sample_name)
  /\ NoDup (map model_pair (sample_table files sample_name)).
Proof.
  unfold sample_step, sample_table, model_outputs, models.
  cbn [flat_map].
  destruct (files sample_name "basic_pitch"%string) as [n1|];
    destruct (files sample_name "crepe_onset"%string) as [n2|];
    destruct (files sample_name "piano_transformer"%string) as [n3|];
    cbn -[Agreement.agreement Agreement.count_matches Agreement.len
          Agreement.truthy Qdiv inject_Z];
    rewrite ?agreement_value; cbn [bind];
    rewrite <- ?app_assoc, ?app_nil_r;
    (split; [reflexivity|]);
    repeat (constructor;
            [cbn [In]; intros H;
             repeat (destruct H as [H|H]; [discriminate H|]);
             exact H|]);
    constructor.
Qed.

Lemma report_samples_table files todo :
  forall rows,
    samples_loop files todo rows
    = Ok (rows ++ flat_map (sample_table files) todo).
Proof.
  induction todo as [|s todo IH]; intros rows;
    cbn [samples_loop flat_map].
  - now rewrite app_nil_r.
  - rewrite (proj1 (report_sample_table files s rows)). cbn [bind].
    rewrite IH, <- app_assoc. reflexivity.
Qed.

(** X23. [analyze_model_agreement] never raises, and its table is, for
    the three samples in turn, the rows of the pairs of the model outputs
    found for the sample: each pair of models once, the alphabetically
    first model first, in the order of the two loops, so [k (k - 1) / 2]
    rows with pairwise distinct names [model1-model2] for a sample with
    [k] files found and none for fewer than two, nine rows in all at
    most.  Each row holds the match count of the first list against the
    second, the agreement ratio of the pair and half the sum of the two
    lengths. *)
Theorem analyze_model_agreement_rows
  (files : String.string -> String.string -> option (list note)) :
  analyze_model_agreement files = Ok (table files)
  /\ (forall sample_name,
         length (sample_table files sample_name)
         = (length (model_outputs (files sample_name))
            * (length (model_outputs (files sample_name)) - 1) / 2)%nat
         /\ NoDup (map model_pair (sample_table files sample_name)))
  /\ length (table files)
     = list_sum
         (map (fun s =>
                 (length (model_outputs (files s))
                  * (length (model_outputs (files s)) - 1) / 2)%nat)
              samples)
  /\ (length (table files) <= 9)%nat
  /\ Forall (row_of files) (table files).
Proof.
  assert (Et : analyze_model_agreement files = Ok (table files)).
  { unfold analyze_model_agreement, table.
    now rewrite report_samples_table. }
  split; [exact Et|]. split.
  { intros sample_name.
    split; [|exact (proj2 (report_sample_table files sample_name []))].
    unfold sample_table. rewrite length_map. apply pairs_length. }
  destruct (@report_samples_spec files samples (incl_refl _) [])
    as (rows & E & Hlen & Hall).
  assert (Er : rows = table files).
  { unfold analyze_model_agreement in Et. cbn [app] in E. congruence. }
  subst rows. split; [exact Hlen|]. split; [|exact Hall].
  rewrite Hlen.
  assert (Hk : forall load,
             (length (model_outputs load)
              * (length (model_outputs load) - 1) / 2 <= 3)%nat).
  { intros load. unfold model_outputs, models. cbn [flat_map].
    destruct (load "basic_pitch"%string), (load "crepe_onset"%string),
      (load "piano_transformer"%string); vm_compute; lia. }
  unfold samples. cbn [map list_sum fold_right].
  pose proof (Hk (files "sample"%string)).
  pose proof (Hk (files "live_piano"%string)).
  pose proof (Hk (files "youtube_piano"%string)). lia.
Qed.

End ReportFacts.

(** * wrappers/base_wrapper.py: the standard note format *)

Section StandardFacts.

Variable model_name : String.string.

Lemma append_inj_l (s a b : String.string) :
  String.append s a = String.append s b -> a = b.
Proof.
  induction s as [|c s IH]; cbn [String.append]; intros H.
  - exact H.
  - injection H as H. exact (IH H).
Qed.

Lemma str_inj (i j : nat) : Standard.str i = Standard.str j -> i = j.
Proof.
  unfold Standard.str. intros H.
  apply DecimalNat.Unsigned.to_uint_inj.
  pose proof (DecimalString.NilEmpty.usu (Nat.to_uint i)) as Hi.
  pose proof (DecimalString.NilEmpty.usu (Nat.to_uint j)) as Hj.
  rewrite H in Hi. congruence.
Qed.

Lemma standard_from_cons (k : nat) (d : Standard.pydict)
  (ds : list Standard.pydict) :
  Standard.standard_from model_name k (d :: ds)
  = Standard.standard_note_of model_name k d
    :: Standard.standard_from model_name (S k) ds.
Proof. reflexivity. Qed.

Lemma standard_from_length (ds : list Standard.pydict) :
  forall k, length (Standard.standard_from model_name k ds) = length ds.
Proof.
  induction ds as [|d ds IH]; intros k; [reflexivity|].
  rewrite standard_from_cons. cbn [length]. now rewrite IH.
Qed.

Lemma standard_from_ids (ds : list Standard.pydict) :
  forall k,
    map Standard.id (Standard.standard_from model_name k ds)
    = map (fun i =>
             String.append model_name
               (String.append "_"%string (Standard.str i)))
          (seq k (length ds)).
Proof.
  induction ds as [|d ds IH]; intros k; [reflexivity|].
  rewrite standard_from_cons. cbn [length seq map Standard.id
    Standard.standard_note_of]. now rewrite IH.
Qed.

Lemma standard_from_nth (ds : list Standard.pydict) :
  forall k i d,
    nth_error ds i = Some d ->
    nth_error (Standard.standard_from model_name k ds) i
    = Some (Standard.standard_note_of model_name (k + i) d).
Proof.
  induction ds as [|d0 ds IH]; intros k i d H.
  - destruct i; discriminate.
  - rewrite standard_from_cons. destruct i as [|i]; cbn [nth_error] in *.
    + injection H as <-. now rewrite Nat.add_0_r.
    + rewrite (IH (S k) i d H). now rewrite Nat.add_succ_r.
Qed.

Lemma standard_from_carries (ns : list note) :
  forall k, Forall2 carries ns
              (Standard.standard_from model_name k
                 (map Standard.note_dict ns)).
Proof.
  induction ns as [|n ns IH]; intros k; [constructor|].
  cbn [map]. rewrite standard_from_cons. constructor; [|apply IH].
  unfold carries. repeat split.
Qed.

Lemma standard_from_again (ds : list Standard.pydict) :
  forall k,
    Standard.standard_from model_name k
      (map Standard.standard_dict (Standard.standard_from model_name k ds))
    = Standard.standard_from model_name k ds.
Proof.
  induction ds as [|d ds IH]; intros k; [reflexivity|].
  rewrite standard_from_cons. cbn [map]. rewrite standard_from_cons.
  rewrite IH. reflexivity.
Qed.

(** X24. [to_standard_format] returns one standard note per input dict,
    in the input's order: the note at index [i] is built from the dict at
    index [i] and has the id [<model_name>_<i>], so the ids of one
    result are pairwise distinct. *)
Theorem to_standard_format_ids (notes : list Standard.pydict) :
  length (Standard.to_standard_format model_name notes) = length notes
  /\ NoDup (map Standard.id (Standard.to_standard_format model_name notes))
  /\ forall i d,
       nth_error notes i = Some d ->
       nth_error (Standard.to_standard_format model_name notes) i
       = Some (Standard.standard_note_of model_name i d).
Proof.
  unfold Standard.to_standard_format.
  split; [apply standard_from_length|]. split.
  - rewrite standard_from_ids. apply Finite.Injective_map_NoDup.
    + intros i j H. apply append_inj_l in H. apply append_inj_l in H.
      now apply str_inj.
    + apply seq_NoDup.
  - intros i d H. now rewrite (standard_from_nth notes 0 i H).
Qed.

(** X25. The notes the three wrappers build (an int pitch, float onset
    and offset, an int velocity and a float confidence under the standard
    keys) pass through [to_standard_format] unchanged: the result has one
    note per wrapper note, in order, with the same five fields; no default
    and no fallback key is used, and [int] and [float] change nothing. *)
Theorem to_standard_format_wrapper_notes (notes : list note) :
  Forall2 carries notes
    (Standard.to_standard_format model_name
       (map Standard.note_dict notes)).
Proof.
  unfold Standard.to_standard_format.
  apply standard_from_carries.
Qed.

(** X26. [to_standard_format] is idempotent on any list of note dicts:
    standardising the standard notes again, under the same model name,
    returns them unchanged (the defaults are filled in once, a float
    velocity is truncated once). *)
Theorem to_standard_format_idempotent (notes : list Standard.pydict) :
  Standard.to_standard_format model_name
    (map Standard.standard_dict
       (Standard.to_standard_format model_name notes))
  = Standard.to_standard_format model_name notes.
Proof.
  unfold Standard.to_standard_format.
  apply standard_from_again.
Qed.

End StandardFacts.
